(** * viber: the concurrent directory scanner of [main.go]

    A shallow embedding of [FileScanner], [NewScanner] and [ScanForAI]
    together with the parts of the Go standard library they call
    ([strings.TrimSpace], [bufio.Scanner] with the default line splitter,
    [filepath.Ext], [filepath.Match], [filepath.Join], [filepath.WalkDir]),
    followed by the properties of the scanner.

    Go strings are byte sequences: they are modelled by [string], whose
    characters are the 256 values of [ascii].  Runes are [Z]. *)

From Stdlib Require Import ZArith List String Ascii Bool Lia Permutation.
From stdpp Require Import base option gmap strings.

Open Scope string_scope.
Open Scope Z_scope.

(** The proofs below compute with [++] on strings. *)
Arguments String.append : simpl nomatch.

(** ** Bytes and slices of Go strings *)

Definition byte_val (c : ascii) : Z := Z.of_N (N_of_ascii c).

Definition LF : ascii := ascii_of_nat 10.
Definition CR : ascii := ascii_of_nat 13.
Definition Separator : ascii := "/"%char.

(** [s[n:]] *)
Fixpoint str_drop (n : nat) (s : string) : string :=
  match n, s with
  | O, _ => s
  | S n', String _ s' => str_drop n' s'
  | S _, EmptyString => EmptyString
  end.

(** [s[:n]] *)
Fixpoint str_take (n : nat) (s : string) : string :=
  match n, s with
  | O, _ => EmptyString
  | S n', String c s' => String c (str_take n' s')
  | S _, EmptyString => EmptyString
  end.

(** [s[i]]; the callers below only index inside the string. *)
Definition str_at (i : nat) (s : string) : ascii :=
  match String.get i s with Some c => c | None => Ascii.zero end.

Definition str_len (s : string) : nat := String.length s.

Definition is_empty (s : string) : bool :=
  match s with EmptyString => true | String _ _ => false end.

Definition is_sep (c : ascii) : bool := Ascii.eqb c Separator.

(** ** unicode/utf8 *)

Module utf8.

Definition RuneError : Z := 0xFFFD.
Definition RuneSelf : Z := 0x80.
Definition UTFMax : nat := 4.

(** The table [first]: information about the first byte of an encoding.
    [0xF0] is ASCII ([as]), [0xF1] is invalid ([xx]), otherwise the low
    three bits give the size and the high four bits index
    [acceptRanges]. *)
Definition first (b : Z) : Z :=
  if b <? 0x80 then 0xF0
  else if b <? 0xC2 then 0xF1
  else if b <? 0xE0 then 0x02
  else if b =? 0xE0 then 0x13
  else if b <? 0xED then 0x03
  else if b =? 0xED then 0x23
  else if b <? 0xF0 then 0x03
  else if b =? 0xF0 then 0x34
  else if b <? 0xF4 then 0x04
  else if b =? 0xF4 then 0x44
  else 0xF1.

(** [acceptRanges[i]] as the pair (lo, hi). *)
Definition acceptRanges (i : Z) : Z * Z :=
  if i =? 1 then (0xA0, 0xBF)
  else if i =? 2 then (0x80, 0x9F)
  else if i =? 3 then (0x90, 0xBF)
  else if i =? 4 then (0x80, 0x8F)
  else (0x80, 0xBF).

Definition locb : Z := 0x80.
Definition hicb : Z := 0xBF.
Definition maskx : Z := 0x3F.
Definition mask2 : Z := 0x1F.
Definition mask3 : Z := 0x0F.
Definition mask4 : Z := 0x07.

(** [utf8.DecodeRuneInString]: the rune at the front of [s] and its width
    in bytes; [(RuneError, 0)] on the empty string and [(RuneError, 1)] on
    an invalid encoding. *)
Definition DecodeRuneInString (s : string) : Z * nat :=
  match s with
  | EmptyString => (RuneError, 0%nat)
  | String c0 t0 =>
      let s0 := byte_val c0 in
      let x := first s0 in
      if 0xF0 <=? x then
        (if x =? 0xF1 then RuneError else s0, 1%nat)
      else
        let sz := Z.to_nat (Z.land x 7) in
        let '(lo, hi) := acceptRanges (Z.shiftr x 4) in
        if (str_len s <? sz)%nat then (RuneError, 1%nat)
        else
          let s1 := byte_val (str_at 1 s) in
          if (s1 <? lo) || (hi <? s1) then (RuneError, 1%nat)
          else if (sz <=? 2)%nat then
            (Z.lor (Z.shiftl (Z.land s0 mask2) 6) (Z.land s1 maskx), 2%nat)
          else
            let s2 := byte_val (str_at 2 s) in
            if (s2 <? locb) || (hicb <? s2) then (RuneError, 1%nat)
            else if (sz <=? 3)%nat then
              (Z.lor (Z.lor (Z.shiftl (Z.land s0 mask3) 12)
                            (Z.shiftl (Z.land s1 maskx) 6))
                     (Z.land s2 maskx), 3%nat)
            else
              let s3 := byte_val (str_at 3 s) in
              if (s3 <? locb) || (hicb <? s3) then (RuneError, 1%nat)
              else
                (Z.lor (Z.lor (Z.lor (Z.shiftl (Z.land s0 mask4) 18)
                                     (Z.shiftl (Z.land s1 maskx) 12))
                              (Z.shiftl (Z.land s2 maskx) 6))
                       (Z.land s3 maskx), 4%nat)
  end.

(** [utf8.RuneStart] *)
Definition RuneStart (b : Z) : bool := negb (Z.land b 0xC0 =? 0x80).

(** The backward search of [DecodeLastRuneInString]:
    [for start--; start >= lim; start-- { if RuneStart(s[start]) break }],
    run from [start] (already decremented once) for at most [k] steps,
    where [k] is the distance to [lim].  The result is the final value of
    [start] as an integer: it may end at [lim - 1]. *)
Fixpoint back_to_start (s : string) (start : Z) (k : nat) : Z :=
  match k with
  | O => start
  | S k' =>
      if RuneStart (byte_val (str_at (Z.to_nat start) s)) then start
      else back_to_start s (start - 1) k'
  end.

(** [utf8.DecodeLastRuneInString] *)
Definition DecodeLastRuneInString (s : string) : Z * nat :=
  let end_ := Z.of_nat (str_len s) in
  if end_ =? 0 then (RuneError, 0%nat)
  else
    let start := end_ - 1 in
    let r := byte_val (str_at (Z.to_nat start) s) in
    if r <? RuneSelf then (r, 1%nat)
    else
      let lim := Z.max 0 (end_ - Z.of_nat UTFMax) in
      let start := back_to_start s (start - 1) (Z.to_nat (start - lim)) in
      let start := Z.max 0 start in
      let '(r, size) := DecodeRuneInString (str_drop (Z.to_nat start) s) in
      if negb (start + Z.of_nat size =? end_) then (RuneError, 1%nat)
      else (r, size).

End utf8.

(** ** unicode *)

Module unicode.

(** [unicode.IsSpace]: the Latin-1 spaces, then the [White_Space] table. *)
Definition IsSpace (r : Z) : bool :=
  if (0 <=? r) && (r <=? 0xFF) then
    (r =? 9) || (r =? 10) || (r =? 11) || (r =? 12) || (r =? 13)
    || (r =? 32) || (r =? 0x85) || (r =? 0xA0)
  else
    (r =? 0x1680) || ((0x2000 <=? r) && (r <=? 0x200A))
    || (r =? 0x2028) || (r =? 0x2029) || (r =? 0x202F)
    || (r =? 0x205F) || (r =? 0x3000).

End unicode.

(** ** strings *)

Module Strings.

(** The table [asciiSpace]. *)
Definition asciiSpace (c : Z) : bool :=
  (c =? 9) || (c =? 10) || (c =? 11) || (c =? 12) || (c =? 13) || (c =? 32).

(** [strings.HasPrefix] *)
Fixpoint HasPrefix (s prefix : string) : bool :=
  match prefix, s with
  | EmptyString, _ => true
  | String p prefix', String c s' => Ascii.eqb c p && HasPrefix s' prefix'
  | String _ _, EmptyString => false
  end.

(** [strings.TrimLeftFunc]: [indexFunc(s, f, false)] ranges over the runes
    of [s]; every iteration consumes at least one byte, so [fuel =
    len(s)] iterations are enough. *)
Fixpoint TrimLeftFunc_go (fuel : nat) (f : Z -> bool) (s : string) : string :=
  match fuel with
  | O => EmptyString
  | S fuel' =>
      match s with
      | EmptyString => EmptyString
      | String _ _ =>
          let '(r, size) := utf8.DecodeRuneInString s in
          if f r then TrimLeftFunc_go fuel' f (str_drop size s) else s
      end
  end.

Definition TrimLeftFunc (s : string) (f : Z -> bool) : string :=
  TrimLeftFunc_go (str_len s) f s.

(** [lastIndexFunc(s, f, false)]: the index of the last rune that does not
    satisfy [f], or -1. *)
Fixpoint lastIndexFunc_go (fuel : nat) (f : Z -> bool) (s : string) (i : nat) : Z :=
  match fuel with
  | O => -1
  | S fuel' =>
      if (0 <? i)%nat then
        let '(r, size) := utf8.DecodeLastRuneInString (str_take i s) in
        let i := (i - size)%nat in
        if negb (f r) then Z.of_nat i else lastIndexFunc_go fuel' f s i
      else -1
  end.

(** [strings.TrimRightFunc] *)
Definition TrimRightFunc (s : string) (f : Z -> bool) : string :=
  let i := lastIndexFunc_go (S (str_len s)) f s (str_len s) in
  let i :=
    if (0 <=? i) && (utf8.RuneSelf <=? byte_val (str_at (Z.to_nat i) s)) then
      let '(_, wid) := utf8.DecodeRuneInString (str_drop (Z.to_nat i) s) in
      i + Z.of_nat wid
    else i + 1 in
  str_take (Z.to_nat i) s.

(** [strings.TrimFunc] *)
Definition TrimFunc (s : string) (f : Z -> bool) : string :=
  TrimRightFunc (TrimLeftFunc s f) f.

(** The second loop of [TrimSpace], on [s = s[start:]]: [stop] walks down
    from [len(s)]. *)
Fixpoint TrimSpace_stop (s : string) (stop : nat) : string :=
  match stop with
  | O => str_take 0 s
  | S stop' =>
      let c := byte_val (str_at stop' s) in
      if utf8.RuneSelf <=? c then TrimRightFunc (str_take stop s) unicode.IsSpace
      else if negb (asciiSpace c) then str_take stop s
      else TrimSpace_stop s stop'
  end.

(** [strings.TrimSpace]: the first loop walks [start] up over ASCII
    spaces and falls back to [TrimFunc] on the first non-ASCII byte. *)
Fixpoint TrimSpace (s : string) : string :=
  match s with
  | EmptyString => EmptyString
  | String c0 s' =>
      let c := byte_val c0 in
      if utf8.RuneSelf <=? c then TrimFunc s unicode.IsSpace
      else if negb (asciiSpace c) then TrimSpace_stop s (str_len s)
      else TrimSpace s'
  end.

End Strings.

(** ** bufio *)

Module bufio.

Definition MaxScanTokenSize : Z := 65536.

(** The segments of [data] between line feeds; the last one is what
    follows the final line feed (possibly empty). *)
Fixpoint split_lf (data : string) : list string :=
  match data with
  | EmptyString => [EmptyString]
  | String c rest =>
      if Ascii.eqb c LF then EmptyString :: split_lf rest
      else
        match split_lf rest with
        | seg :: segs => String c seg :: segs
        | [] => [String c EmptyString]
        end
  end.

(** [dropCR]: drop one terminal carriage return. *)
Fixpoint dropCR (data : string) : string :=
  match data with
  | EmptyString => EmptyString
  | String c EmptyString => if Ascii.eqb c CR then EmptyString else data
  | String c rest => String c (dropCR rest)
  end.

(** The successive values of [scanner.Text()] while [scanner.Scan()]
    returns true, for a scanner with the default split function
    [ScanLines] and the default buffer.  A line feed terminates a token;
    what follows the last line feed is a token when it is not empty.  The
    buffer holds at most [MaxScanTokenSize] bytes: when it is full and
    holds no complete line, [Scan] stops with [ErrTooLong] (an error the
    caller may ignore), so a line of [MaxScanTokenSize] bytes or more ends
    the scan. *)
Fixpoint scan_segments (segs : list string) : list string :=
  match segs with
  | [] => []
  | [last] =>
      if is_empty last then []
      else if Z.of_nat (str_len last) <? MaxScanTokenSize then [dropCR last]
      else []
  | seg :: rest =>
      if Z.of_nat (str_len seg) <? MaxScanTokenSize then dropCR seg :: scan_segments rest
      else []
  end.

Definition ScanLines_tokens (data : string) : list string :=
  scan_segments (split_lf data).

End bufio.

(** ** Go errors *)

(** [*fs.PathError], the error type of the [os] calls. *)
Record PathError := { Op : string; ErrPath : string; Errno : string }.

(** The error values that occur in the scanner: the sentinels of [io/fs]
    and [path/filepath], which Go compares by identity, and the errors of
    the operating system. *)
Inductive error :=
| SkipDir
| SkipAll
| ErrBadPattern
| OsError (e : PathError).

Definition is_SkipDir (e : error) : bool :=
  match e with SkipDir => true | _ => false end.

Definition is_SkipAll (e : error) : bool :=
  match e with SkipAll => true | _ => false end.

(** ** os *)

Module os.

(** The unexported [basename] of package [os], which names the
    [FileInfo] that [os.Lstat] returns: [strip] removes trailing
    slashes (never the first byte), [after_slash] the leading directory
    name. *)
Fixpoint strip (name : string) (n : nat) : nat :=
  match n with
  | O => O
  | S O => 1%nat
  | S n' => if is_sep (str_at n' name) then strip name n' else n
  end.

Fixpoint after_slash (name : string) (i : nat) : string :=
  match i with
  | O => name
  | S i' => if is_sep (str_at i' name) then str_drop i name else after_slash name i'
  end.

Definition basename (name : string) : string :=
  let name := str_take (strip name (str_len name)) name in
  after_slash name (str_len name - 1).

End os.

(** ** path/filepath (Unix) *)

Module filepath.

Definition DOT : ascii := "."%char.

(** [filepath.Ext]: the loop
    [for i := len(path) - 1; i >= 0 && !os.IsPathSeparator(path[i]); i--],
    with [n = i + 1]. *)
Fixpoint Ext_from (path : string) (n : nat) : string :=
  match n with
  | O => EmptyString
  | S i =>
      let c := str_at i path in
      if is_sep c then EmptyString
      else if Ascii.eqb c DOT then str_drop i path
      else Ext_from path i
  end.

Definition Ext (path : string) : string := Ext_from path (str_len path).

Definition starts_with_sep (p : string) : bool :=
  match p with String c _ => is_sep c | EmptyString => false end.

(** [r == n || os.IsPathSeparator(path[r])] for [p = path[r:]]. *)
Definition at_elem_end (p : string) : bool :=
  match p with EmptyString => true | String c _ => is_sep c end.

(** The backtracking loop of a [..] element,
    [for out.w > dotdot && !os.IsPathSeparator(out.index(out.w)) { out.w-- }],
    entered after the first [out.w--]; the result is the final [out.w]. *)
Fixpoint backtrack (out : string) (w dotdot : nat) : nat :=
  match w with
  | O => O
  | S w' =>
      if (dotdot <? w)%nat && negb (is_sep (str_at w out)) then backtrack out w' dotdot
      else w
  end.

(** The main loop of [filepath.Clean] on [p = path[r:]].  The output
    buffer [out] holds the [out.w] bytes written so far ([lazybuf] only
    avoids allocating while the output is a prefix of the input).  The
    inner loop that copies a path element is the state [copying]: it
    leaves that state at the separator, which the outer loop then skips. *)
Fixpoint Clean_loop (rooted copying : bool) (out : string) (dotdot : nat)
    (p : string) : string :=
  match p with
  | EmptyString => out
  | String c p' =>
      if copying then
        if is_sep c then Clean_loop rooted false out dotdot p'
        else Clean_loop rooted true (out ++ String c EmptyString) dotdot p'
      else if is_sep c then
        (* empty path element *)
        Clean_loop rooted false out dotdot p'
      else if Ascii.eqb c DOT && at_elem_end p' then
        (* . element *)
        Clean_loop rooted false out dotdot p'
      else
        let real_element :=
          let out :=
            if (rooted && negb (str_len out =? 1)%nat)
               || (negb rooted && negb (str_len out =? 0)%nat)
            then out ++ String Separator EmptyString else out in
          Clean_loop rooted true (out ++ String c EmptyString) dotdot p' in
        match p' with
        | String c' p'' =>
            if Ascii.eqb c DOT && Ascii.eqb c' DOT && at_elem_end p'' then
              (* .. element: remove to last separator *)
              if (dotdot <? str_len out)%nat then
                let w := backtrack out (str_len out - 1) dotdot in
                Clean_loop rooted false (str_take w out) dotdot p''
              else if negb rooted then
                let out :=
                  if (0 <? str_len out)%nat
                  then out ++ String Separator EmptyString else out in
                let out := out ++ ".." in
                Clean_loop rooted false out (str_len out) p''
              else Clean_loop rooted false out dotdot p''
            else real_element
        | EmptyString => real_element
        end
  end.

(** [filepath.Clean] *)
Definition Clean (path : string) : string :=
  match path with
  | EmptyString => "."
  | String c rest =>
      let rooted := is_sep c in
      let out :=
        if rooted then Clean_loop true false (String Separator EmptyString) 1 rest
        else Clean_loop false false EmptyString 0 path in
      if is_empty out then "." else out
  end.

(** [filepath.Join] of two elements: empty leading elements are ignored
    and the rest is joined with the separator and cleaned. *)
Definition Join (dir name : string) : string :=
  if negb (is_empty dir) then Clean (dir ++ String Separator name)
  else if negb (is_empty name) then Clean name
  else EmptyString.

(** *** [filepath.Match] *)

Definition STAR : ascii := "*"%char.
Definition BACKSLASH : ascii := "\"%char.
Definition LBRACKET : ascii := "["%char.
Definition RBRACKET : ascii := "]"%char.
Definition CARET : ascii := "^"%char.
Definition DASH : ascii := "-"%char.
Definition QUESTION : ascii := "?"%char.

(** The first loop of [scanChunk]: skip leading stars. *)
Fixpoint skip_stars (star : bool) (pattern : string) : bool * string :=
  match pattern with
  | String c rest => if Ascii.eqb c STAR then skip_stars true rest else (star, pattern)
  | EmptyString => (star, pattern)
  end.

(** The second loop of [scanChunk]: the index of the first star outside
    a character class, or the length of the pattern. *)
Fixpoint scan_index (inrange : bool) (pattern : string) : nat :=
  match pattern with
  | EmptyString => O
  | String c rest =>
      if Ascii.eqb c BACKSLASH then
        match rest with
        | EmptyString => 1%nat
        | String _ rest' => S (S (scan_index inrange rest'))
        end
      else if Ascii.eqb c LBRACKET then S (scan_index true rest)
      else if Ascii.eqb c RBRACKET then S (scan_index false rest)
      else if Ascii.eqb c STAR then
        if inrange then S (scan_index inrange rest) else O
      else S (scan_index inrange rest)
  end.

(** [scanChunk]: (star, chunk, rest). *)
Definition scanChunk (pattern : string) : bool * string * string :=
  let '(star, pattern) := skip_stars false pattern in
  let i := scan_index false pattern in
  (star, str_take i pattern, str_drop i pattern).

(** [getEsc]: a possibly escaped character of a character class. *)
Definition getEsc (chunk : string) : Z * string * option error :=
  match chunk with
  | EmptyString => (0, EmptyString, Some ErrBadPattern)
  | String c0 rest0 =>
      if Ascii.eqb c0 DASH || Ascii.eqb c0 RBRACKET then
        (0, EmptyString, Some ErrBadPattern)
      else
        let chunk := if Ascii.eqb c0 BACKSLASH then rest0 else chunk in
        if is_empty chunk then (0, EmptyString, Some ErrBadPattern)
        else
          let '(r, n) := utf8.DecodeRuneInString chunk in
          let err :=
            if (r =? utf8.RuneError) && (n =? 1)%nat then Some ErrBadPattern else None in
          let nchunk := str_drop n chunk in
          let err := if is_empty nchunk then Some ErrBadPattern else err in
          (r, nchunk, err)
  end.

(** The loop that parses the ranges of a character class; every
    iteration consumes a byte of [chunk], which bounds [fuel].  The
    result is the rest of the chunk and whether [r] is in a range, or the
    error. *)
Fixpoint class_ranges (fuel : nat) (chunk : string) (r : Z) (matched : bool)
    (nrange : nat) : option error + string * bool :=
  match fuel with
  | O => inl (Some ErrBadPattern)
  | S fuel' =>
      let closing :=
        match chunk with
        | String c _ => Ascii.eqb c RBRACKET && (0 <? nrange)%nat
        | EmptyString => false
        end in
      if closing then inr (str_drop 1 chunk, matched)
      else
        match getEsc chunk with
        | (_, _, Some e) => inl (Some e)
        | (lo, chunk, None) =>
            let ranged :=
              if Ascii.eqb (str_at 0 chunk) DASH then getEsc (str_drop 1 chunk)
              else (lo, chunk, None) in
            match ranged with
            | (_, _, Some e) => inl (Some e)
            | (hi, chunk, None) =>
                let matched := if (lo <=? r) && (r <=? hi) then true else matched in
                class_ranges fuel' chunk r matched (S nrange)
            end
        end
  end.

(** [matchChunk]: (rest, ok, err).  [failed] records that the match has
    failed; the loop goes on to check that the chunk is well formed.
    Every iteration consumes a byte of [chunk], which bounds [fuel]. *)
Fixpoint matchChunk_loop (fuel : nat) (chunk s : string) (failed : bool)
    : string * bool * option error :=
  match fuel with
  | O => (EmptyString, false, Some ErrBadPattern)
  | S fuel' =>
      match chunk with
      | EmptyString =>
          if failed then (EmptyString, false, None) else (s, true, None)
      | String c0 chunk1 =>
          let failed := if negb failed && is_empty s then true else failed in
          if Ascii.eqb c0 LBRACKET then
            (* character class *)
            let '(r, s) :=
              if negb failed then
                let '(r, n) := utf8.DecodeRuneInString s in (r, str_drop n s)
              else (0, s) in
            let '(negated, chunk2) :=
              match chunk1 with
              | String c rest => if Ascii.eqb c CARET then (true, rest) else (false, chunk1)
              | EmptyString => (false, chunk1)
              end in
            match class_ranges (S (str_len chunk2)) chunk2 r false 0 with
            | inl _ => (EmptyString, false, Some ErrBadPattern)
            | inr (chunk3, matched) =>
                let failed := if Bool.eqb matched negated then true else failed in
                matchChunk_loop fuel' chunk3 s failed
            end
          else if Ascii.eqb c0 QUESTION then
            let '(s, failed) :=
              if negb failed then
                let failed := if is_sep (str_at 0 s) then true else failed in
                let '(_, n) := utf8.DecodeRuneInString s in (str_drop n s, failed)
              else (s, failed) in
            matchChunk_loop fuel' chunk1 s failed
          else
            let literal (chunk : string) :=
              let '(s, failed) :=
                if negb failed then
                  let failed :=
                    if negb (Ascii.eqb (str_at 0 chunk) (str_at 0 s)) then true else failed in
                  (str_drop 1 s, failed)
                else (s, failed) in
              matchChunk_loop fuel' (str_drop 1 chunk) s failed in
            if Ascii.eqb c0 BACKSLASH then
              if is_empty chunk1 then (EmptyString, false, Some ErrBadPattern)
              else literal chunk1
            else literal chunk
      end
  end.

Definition matchChunk (chunk s : string) : string * bool * option error :=
  matchChunk_loop (S (str_len chunk)) chunk s false.

(** The outcome of the loop that, after a star, looks for a match of the
    chunk skipping [i + 1] bytes of the name. *)
Inductive star_outcome :=
| StarMatched (t : string)
| StarError (e : error)
| StarNone.

Fixpoint star_loop (chunk : string) (last_chunk : bool) (name : string) : star_outcome :=
  match name with
  | EmptyString => StarNone
  | String c rest =>
      if is_sep c then StarNone
      else
        match matchChunk chunk rest with
        | (t, true, _) =>
            if last_chunk && negb (is_empty t) then star_loop chunk last_chunk rest
            else StarMatched t
        | (_, false, Some e) => StarError e
        | (_, false, None) => star_loop chunk last_chunk rest
        end
  end.

Fixpoint contains_sep (s : string) : bool :=
  match s with
  | EmptyString => false
  | String c rest => is_sep c || contains_sep rest
  end.

(** Before [Match] returns false without an error it checks that the
    rest of the pattern is well formed. *)
Fixpoint check_rest (fuel : nat) (pattern : string) : option error :=
  match fuel with
  | O => None
  | S fuel' =>
      if is_empty pattern then None
      else
        let '(_, chunk, pattern) := scanChunk pattern in
        match matchChunk chunk EmptyString with
        | (_, _, Some e) => Some e
        | (_, _, None) => check_rest fuel' pattern
        end
  end.

(** The loop [Pattern:] of [filepath.Match]; every iteration consumes a
    byte of the pattern, which bounds [fuel]. *)
Fixpoint Match_loop (fuel : nat) (pattern name : string) : bool * option error :=
  match fuel with
  | O => (is_empty name, None)
  | S fuel' =>
      if is_empty pattern then (is_empty name, None)
      else
        let '(star, chunk, pattern) := scanChunk pattern in
        if star && is_empty chunk then
          (* Trailing * matches rest of string unless it has a /. *)
          (negb (contains_sep name), None)
        else
          match matchChunk chunk name with
          | (t, ok, err) =>
              if ok && (is_empty t || negb (is_empty pattern)) then
                Match_loop fuel' pattern t
              else
                match err with
                | Some e => (false, Some e)
                | None =>
                    let after_star :=
                      if star then star_loop chunk (is_empty pattern) name
                      else StarNone in
                    match after_star with
                    | StarMatched t => Match_loop fuel' pattern t
                    | StarError e => (false, Some e)
                    | StarNone =>
                        match check_rest (str_len pattern) pattern with
                        | Some e => (false, Some e)
                        | None => (false, None)
                        end
                    end
                end
          end
  end.

(** [filepath.Match]: (matched, err). *)
Definition Match (pattern name : string) : bool * option error :=
  Match_loop (S (str_len pattern)) pattern name.

End filepath.

(** ** The file system seen by one scan *)

(** The result of an [os] call. *)
Inductive result (A : Type) :=
| Ok (a : A)
| Err (e : PathError).
Arguments Ok {A} a.
Arguments Err {A} e.

(** What [os.Lstat] and [os.ReadDir] show of a file tree that is not
    modified during the scan.  An entry that is not a directory (a regular
    file, a symbolic link, a device) is a [File].  A directory holds the
    entries that [os.ReadDir] returns, in the order it returns them, each
    with its name, and the error of [os.ReadDir] if it fails (then the
    entries are the ones read before the failure). *)
#[warnings="-register-all"]
Inductive Node :=
| File
| Dir (entries : list (string * Node)) (rderr : option PathError).

Definition node_is_dir (n : Node) : bool :=
  match n with File => false | Dir _ _ => true end.

(** [fs.DirEntry], as far as the scanner reads it. *)
Record DirEntry := { Name : string; IsDir : bool }.

(** The pair [(d, err)] that [filepath.WalkDir] passes to its callback:
    [(d, nil)] when it visits an entry, [(d, err)] when [os.ReadDir] fails
    on the directory [d], and [(nil, err)] when [os.Lstat] fails on the
    root. *)
Inductive WalkArg :=
| Visit (d : DirEntry)
| Failed (d : option DirEntry) (err : error).

(** ** [filepath.WalkDir] *)

Section WalkDir.

(** The state that the callback threads through the walk. *)
Context {S : Type}.
Variable fn : string -> WalkArg -> S -> S * option error.

Definition skipped_dir (err : option error) (d : DirEntry) : option error :=
  match err with
  | Some e => if is_SkipDir e && IsDir d then None else err
  | None => None
  end.

(** [walkDir]: visit [path], whose entry is [(name, node)], then its
    children in order. *)
Fixpoint walkDir (path name : string) (node : Node) (st : S) : S * option error :=
  let d := {| Name := name; IsDir := node_is_dir node |} in
  let '(st, err) := fn path (Visit d) st in
  match err, node with
  | Some _, _ | None, File => (st, skipped_dir err d)
  | None, Dir entries rderr =>
      let children :=
        fix children (es : list (string * Node)) (st : S) : S * option error :=
          match es with
          | [] => (st, None)
          | (name1, node1) :: es' =>
              let path1 := filepath.Join path name1 in
              let '(st, err) := walkDir path1 name1 node1 st in
              match err with
              | Some e => if is_SkipDir e then (st, None) else (st, Some e)
              | None => children es' st
              end
          end in
      match rderr with
      | Some e =>
          (* Second call, to report ReadDir error. *)
          let '(st, err) := fn path (Failed (Some d) (OsError e)) st in
          match err with
          | Some _ => (st, skipped_dir err d)
          | None => children entries st
          end
      | None => children entries st
      end
  end.

(** [filepath.WalkDir]; [lstat] is the result of [os.Lstat(root)]. *)
Definition WalkDir (root : string) (lstat : result Node) (st : S) : S * option error :=
  let '(st, err) :=
    match lstat with
    | Err e => fn root (Failed None (OsError e)) st
    | Ok node => walkDir root (os.basename root) node st
    end in
  match err with
  | Some e => if is_SkipDir e || is_SkipAll e then (st, None) else (st, err)
  | None => (st, None)
  end.

End WalkDir.

(** ** The scanner *)

(** [FileContent] holds the metadata and actual text of the file. *)
Record FileContent := { Path : string; Content : string }.

(** [FileScanner] handles the directory traversal logic. *)
Record FileScanner := {
  Root : string;
  IgnoredNames : gmap string bool;
  Patterns : list string;
  AllowedExts : gmap string bool
}.

(** Indexing a Go [map[string]bool]: a missing key reads as [false]. *)
Definition map_index (m : gmap string bool) (k : string) : bool :=
  default false (m !! k).

Definition set_AllowedExts (s : FileScanner) (ext : string) : FileScanner :=
  {| Root := Root s; IgnoredNames := IgnoredNames s; Patterns := Patterns s;
     AllowedExts := <[ext := true]> (AllowedExts s) |}.

Definition append_Pattern (s : FileScanner) (line : string) : FileScanner :=
  {| Root := Root s; IgnoredNames := IgnoredNames s;
     Patterns := (Patterns s ++ [line])%list; AllowedExts := AllowedExts s |}.

(** The body of the loop over the lines of the ignore-file. *)
Definition scan_line (s : FileScanner) (text : string) : FileScanner :=
  let line := Strings.TrimSpace text in
  if negb (is_empty line) && negb (Strings.HasPrefix line "#")
  then append_Pattern s line
  else s.

(** [NewScanner]; [os_Open ignoreFile] is the result of
    [os.Open(ignoreFile)]: the bytes that the opened file yields, or the
    error. *)
Definition NewScanner (os_Open : string -> result string)
    (root ignoreFile : string) (extensions : list string)
    : FileScanner * option error :=
  let s := {| Root := root;
              IgnoredNames := <[".git" := true]> (<["node_modules" := true]> ∅);
              Patterns := [];
              AllowedExts := ∅ |} in
  let s := fold_left set_AllowedExts extensions s in
  let s :=
    match os_Open ignoreFile with
    | Ok content => fold_left scan_line (bufio.ScanLines_tokens content) s
    | Err _ => s
    end in
  (s, None).

(** The loop over [s.Patterns] in the walk callback: true when the loop
    returns at a matching pattern; the error of [filepath.Match] is
    dropped. *)
Fixpoint matches_any (patterns : list string) (name : string) : bool :=
  match patterns with
  | [] => false
  | p :: rest =>
      let '(matched, _) := filepath.Match p name in
      if matched then true else matches_any rest name
  end.

(** The callback that [ScanForAI] gives to [filepath.WalkDir].  Its state
    is the sequence of paths it has sent on [pathsChan]. *)
Definition walkFn (s : FileScanner) (path : string) (arg : WalkArg)
    (sent : list string) : list string * option error :=
  match arg with
  | Failed _ err => (sent, Some err)
  | Visit d =>
      if IsDir d then
        if map_index (IgnoredNames s) (Name d) then (sent, Some SkipDir)
        else (sent, None)
      else if negb (map_index (AllowedExts s) (filepath.Ext path)) then (sent, None)
      else if matches_any (Patterns s) (Name d) then (sent, None)
      else ((sent ++ [path])%list, None)
  end.

(** The walk of [ScanForAI]: the paths sent on [pathsChan], in order, and
    the error that [filepath.WalkDir] returns. *)
Definition scan_walk (s : FileScanner) (lstat : result Node) : list string * option error :=
  WalkDir (walkFn s) (Root s) lstat [].

(** ** [ScanForAI]: the walker and its pool of workers *)

(** The capacity of [pathsChan]. *)
Definition chan_cap : nat := 100.

(** A worker goroutine is at the head of its loop over [pathsChan], about
    to read the file it received, about to call the callback with what it
    read, or past [wg.Done()]. *)
Inductive worker :=
| Receiving
| Reading (path : string)
| Calling (fc : FileContent)
| Exited.

#[global] Instance FileContent_eq_dec : EqDecision FileContent.
Proof. solve_decision. Defined.

#[global] Instance worker_eq_dec : EqDecision worker.
Proof. solve_decision. Defined.

(** The goroutine that runs [ScanForAI] has started the workers and is
    inside [filepath.WalkDir], with the sends that the walk still has to
    make and the error it will return; or it has closed the channel and is
    in [wg.Wait()]; or it has returned. *)
Inductive main_state :=
| Walking (pending : list string) (err : option error)
| Waiting (err : option error)
| Returned (err : option error).

Record state := {
  main : main_state;
  chan : list string;
  closed : bool;
  workers : list worker;
  calls : list FileContent
}.

Definition with_worker (st : state) (i : nat) (w : worker) : state :=
  {| main := main st; chan := chan st; closed := closed st;
     workers := <[i := w]> (workers st); calls := calls st |}.

Section ScanForAI.

(** [os.ReadFile] during the scan. *)
Variable ReadFile : string -> result string.

(** One atomic action of one goroutine. *)
Inductive step : state -> state -> Prop :=
| step_send p pending err ch ws cs :
    (* pathsChan <- path, when the buffer has room *)
    (length ch < chan_cap)%nat ->
    step {| main := Walking (p :: pending) err; chan := ch; closed := false;
            workers := ws; calls := cs |}
         {| main := Walking pending err; chan := (ch ++ [p])%list; closed := false;
            workers := ws; calls := cs |}
| step_close err ch cl ws cs :
    (* WalkDir has returned: close(pathsChan) *)
    step {| main := Walking [] err; chan := ch; closed := cl;
            workers := ws; calls := cs |}
         {| main := Waiting err; chan := ch; closed := true;
            workers := ws; calls := cs |}
| step_wait err ch cl ws cs :
    (* wg.Wait() returns when every worker has called wg.Done() *)
    Forall (fun w => w = Exited) ws ->
    step {| main := Waiting err; chan := ch; closed := cl;
            workers := ws; calls := cs |}
         {| main := Returned err; chan := ch; closed := cl;
            workers := ws; calls := cs |}
| step_recv st i p ch :
    (* a worker receives the next path *)
    workers st !! i = Some Receiving ->
    chan st = p :: ch ->
    step st {| main := main st; chan := ch; closed := closed st;
               workers := <[i := Reading p]> (workers st); calls := calls st |}
| step_exit st i :
    (* the channel is closed and drained: the range loop ends *)
    workers st !! i = Some Receiving ->
    chan st = [] ->
    closed st = true ->
    step st (with_worker st i Exited)
| step_read_ok st i p bytes :
    workers st !! i = Some (Reading p) ->
    ReadFile p = Ok bytes ->
    step st (with_worker st i (Calling {| Path := p; Content := bytes |}))
| step_read_err st i p e :
    (* if err != nil { continue } *)
    workers st !! i = Some (Reading p) ->
    ReadFile p = Err e ->
    step st (with_worker st i Receiving)
| step_call st i fc :
    (* callback(FileContent{...}) *)
    workers st !! i = Some (Calling fc) ->
    step st {| main := main st; chan := chan st; closed := closed st;
               workers := <[i := Receiving]> (workers st);
               calls := (calls st ++ [fc])%list |}.

(** The state after the workers are started: [workerCount] goroutines
    wait on the empty channel. *)
Definition start (s : FileScanner) (lstat : result Node) (workerCount : Z) : state :=
  let '(sent, err) := scan_walk s lstat in
  {| main := Walking sent err; chan := []; closed := false;
     workers := replicate (Z.to_nat workerCount) Receiving; calls := [] |}.

(** [ScanForAI] returns [err] after the callback was called with
    [cs], in that order, under some schedule of the goroutines. *)
Definition ScanForAI (s : FileScanner) (lstat : result Node) (workerCount : Z)
    (cs : list FileContent) (err : option error) : Prop :=
  exists st, rtc step (start s lstat workerCount) st
             /\ main st = Returned err /\ calls st = cs.

(** What a worker delivers for a path it receives. *)
Definition deliver (p : string) : list FileContent :=
  match ReadFile p with
  | Ok bytes => [{| Path := p; Content := bytes |}]
  | Err _ => []
  end.

Definition deliveries (ps : list string) : list FileContent := ps ≫= deliver.

End ScanForAI.

(** ** The files of a tree, for the statements *)

(** A file of the tree: the path under which the walk reaches it, its name
    in its directory, and the names of the directories above it, from the
    root down. *)
Record FileRef := {
  f_path : string;
  f_name : string;
  f_ancestors : list string
}.

(** All the files beneath [node], in the order of the directory listings,
    whatever the scanner ignores. *)
Fixpoint files_of (path name : string) (ancestors : list string) (node : Node)
    : list FileRef :=
  match node with
  | File => [{| f_path := path; f_name := name; f_ancestors := ancestors |}]
  | Dir entries _ =>
      flat_map (fun e => files_of (filepath.Join path (fst e)) (fst e)
                                  (ancestors ++ [name])%list (snd e))
               entries
  end.

Definition tree_files (root : string) (lstat : result Node) : list FileRef :=
  match lstat with
  | Ok node => files_of root (os.basename root) [] node
  | Err _ => []
  end.

(** The index of the last occurrence of [c] in [s]. *)
Fixpoint last_index (c : ascii) (s : string) : option nat :=
  match s with
  | EmptyString => None
  | String a rest =>
      match last_index c rest with
      | Some i => Some (Datatypes.S i)
      | None => if Ascii.eqb a c then Some O else None
      end
  end.

(** The extension of a base name as the specification words it: the
    substring from the last dot to the end, inclusive of the dot, and the
    empty string if there is no dot. *)
Definition spec_ext (name : string) : string :=
  match last_index filepath.DOT name with
  | Some i => str_drop i name
  | None => EmptyString
  end.

(** The last element of a path: what follows its last separator. *)
Definition last_element (path : string) : string :=
  match last_index Separator path with
  | Some i => str_drop (Datatypes.S i) path
  | None => path
  end.

(** The three conditions of the specification on a file: its extension is
    allowed, its base name matches no pattern, and no directory above it
    has an ignored name. *)
Definition ext_allowed (s : FileScanner) (f : FileRef) : bool :=
  map_index (AllowedExts s) (spec_ext (f_name f)).

Definition pattern_free (s : FileScanner) (f : FileRef) : bool :=
  negb (matches_any (Patterns s) (f_name f)).

Definition not_ignored (s : FileScanner) (f : FileRef) : bool :=
  forallb (fun d => negb (map_index (IgnoredNames s) d)) (f_ancestors f).

Definition accepted (s : FileScanner) (f : FileRef) : bool :=
  ext_allowed s f && pattern_free s f && not_ignored s f.

(** The names that [os.ReadDir] returns: not empty, not [.] or [..], and
    without a separator. *)
Definition valid_name (name : string) : bool :=
  negb (is_empty name) && negb (filepath.contains_sep name)
  && negb (String.eqb name ".") && negb (String.eqb name "..").

Fixpoint wf_node (node : Node) : bool :=
  match node with
  | File => true
  | Dir entries _ => forallb (fun e => valid_name (fst e) && wf_node (snd e)) entries
  end.

Definition ends_with_sep (path : string) : bool :=
  match String.get (str_len path - 1) path with
  | Some c => is_sep c
  | None => false
  end.

(** A tree as the operating system presents it: the names in the
    listings are valid, and a root that is not a directory was not named
    with a trailing separator ([os.Lstat] fails on such a name). *)
Definition wf_tree (root : string) (lstat : result Node) : bool :=
  match lstat with
  | Ok File => negb (is_empty root) && negb (ends_with_sep root)
  | Ok node => wf_node node
  | Err _ => true
  end.

(** The errors of [os.ReadDir] in the directories that the scanner does
    not ignore, in the order of the walk. *)
Fixpoint dir_errors (s : FileScanner) (name : string) (node : Node) : list PathError :=
  match node with
  | File => []
  | Dir entries rderr =>
      if map_index (IgnoredNames s) name then []
      else
        (match rderr with Some e => [e] | None => [] end
         ++ flat_map (fun e => dir_errors s (fst e) (snd e)) entries)%list
  end.

(** The traversal errors of a scan, in the order of the walk. *)
Definition walk_errors (s : FileScanner) (lstat : result Node) : list PathError :=
  match lstat with
  | Ok node => dir_errors s (os.basename (Root s)) node
  | Err e => [e]
  end.

(** The test on a trimmed line of the ignore-file. *)
Definition keeps_line (line : string) : bool :=
  negb (is_empty line) && negb (Strings.HasPrefix line "#").

(** ** Measure and invariant of the worker pool *)

Definition worker_weight (w : worker) : nat :=
  match w with
  | Reading _ => 3
  | Calling _ => 2
  | Receiving => 1
  | Exited => 0
  end.

Definition main_weight (m : main_state) : nat :=
  match m with
  | Walking pending _ => 2 + 4 * length pending
  | Waiting _ => 1
  | Returned _ => 0
  end.

(** Every action of a goroutine makes the weight of the state smaller. *)
Definition weight (st : state) : nat :=
  main_weight (main st) + 3 * length (chan st)
  + sum_list_with worker_weight (workers st).

Definition pending_of (m : main_state) : list string :=
  match m with Walking pending _ => pending | _ => [] end.

Definition err_of (m : main_state) : option error :=
  match m with Walking _ e | Waiting e | Returned e => e end.

Definition returned (st : state) : Prop := exists e, main st = Returned e.

Section Invariant.

Variable ReadFile : string -> result string.

(** What a worker that is past the receive still owes to the callback. *)
Definition inflight (w : worker) : list FileContent :=
  match w with
  | Reading p => deliver ReadFile p
  | Calling fc => [fc]
  | Receiving | Exited => []
  end.

(** The invariant of a scan that sends [sent], will return [err] and
    runs [n] workers. *)
Record invariant (sent : list string) (err : option error) (n : nat)
    (st : state) : Prop := {
  inv_err : err_of (main st) = err;
  inv_workers : length (workers st) = n;
  inv_closed :
    closed st = match main st with Walking _ _ => false | _ => true end;
  inv_exited : Exited ∈ workers st -> closed st = true /\ chan st = [];
  inv_returned : returned st -> Forall (fun w => w = Exited) (workers st);
  inv_calls :
    (calls st ++ (workers st ≫= inflight)
     ++ deliveries ReadFile (chan st ++ pending_of (main st)))%list
    ≡ₚ deliveries ReadFile sent
}.

End Invariant.

(** ** The walk, entry by entry *)

(** The loop of [walkDir] over the entries of a directory. *)
Fixpoint walk_children {S : Type} (fn : string -> WalkArg -> S -> S * option error)
    (path : string) (es : list (string * Node)) (st : S) : S * option error :=
  match es with
  | [] => (st, None)
  | (name1, node1) :: es' =>
      let '(st, err) := walkDir fn (filepath.Join path name1) name1 node1 st in
      match err with
      | Some e => if is_SkipDir e then (st, None) else (st, Some e)
      | None => walk_children fn path es' st
      end
  end.

(** A callback together with the log of the calls made to it. *)
Definition traced {S : Type} (fn : string -> WalkArg -> S -> S * option error)
    (path : string) (arg : WalkArg) (st : S * list (string * WalkArg))
    : (S * list (string * WalkArg)) * option error :=
  let '(st', err) := fn path arg (fst st) in
  ((st', (snd st ++ [(path, arg)])%list), err).

(** The tree without what lies beneath the directories with an ignored
    name. *)
Fixpoint prune (s : FileScanner) (name : string) (node : Node) : Node :=
  match node with
  | File => File
  | Dir entries rderr =>
      if map_index (IgnoredNames s) name then Dir [] None
      else Dir (map (fun e => (fst e, prune s (fst e) (snd e))) entries) rderr
  end.

Definition prune_tree (s : FileScanner) (lstat : result Node) : result Node :=
  match lstat with
  | Ok node => Ok (prune s (os.basename (Root s)) node)
  | Err e => Err e
  end.

(** The test of the walk callback on an entry that is not a directory. *)
Definition file_passes (s : FileScanner) (path name : string) : bool :=
  map_index (AllowedExts s) (filepath.Ext path)
  && negb (matches_any (Patterns s) name).

(** The paths that a walk without errors sends for the tree beneath
    [node]. *)
Fixpoint dispatchable (s : FileScanner) (path name : string) (node : Node)
    : list string :=
  match node with
  | File => if file_passes s path name then [path] else []
  | Dir entries _ =>
      if map_index (IgnoredNames s) name then []
      else flat_map (fun e => dispatchable s (filepath.Join path (fst e)) (fst e) (snd e))
                    entries
  end.

(** The three conditions on a file, with the extension as the code
    computes it from the path. *)
Definition accepted_path (s : FileScanner) (f : FileRef) : bool :=
  file_passes s (f_path f) (f_name f) && not_ignored s f.

(** What the walk of a subtree sends and returns, when the traversal
    errors beneath it are [errs] and a walk without errors sends [all]: it
    returns the first error, and it sends [all], or the first of them when
    there is an error. *)
Definition walk_result (errs : list PathError) (all : list string)
    (sent : list string) (r : list string * option error) : Prop :=
  exists new, r = ((sent ++ new)%list, OsError <$> head errs)
              /\ (exists rest, all = (new ++ rest)%list)
              /\ (errs = [] -> new = all).

(** The walk [rt] of a logged callback from the log [log] is the walk [r]
    of the callback, with a longer log. *)
Definition same_walk {S : Type} (r : S * option error)
    (log : list (string * WalkArg))
    (rt : (S * list (string * WalkArg)) * option error) : Prop :=
  exists log', rt = ((fst r, (log ++ log')%list), snd r).

(** ** Bytes of a string, for the statements on paths *)

(** No byte of [s] satisfies [p]. *)
Fixpoint free_of (p : ascii -> bool) (s : string) : bool :=
  match s with
  | EmptyString => true
  | String c rest => negb (p c) && free_of p rest
  end.

Definition is_dot (c : ascii) : bool := Ascii.eqb c filepath.DOT.

Definition is_dot_or_sep (c : ascii) : bool := is_dot c || is_sep c.

(** The output buffer of [filepath.Clean] on a rooted path starts with
    the separator, and the loop never removes it. *)
Definition clean_inv (rooted : bool) (out : string) (dotdot : nat) : Prop :=
  rooted = true -> filepath.starts_with_sep out = true /\ (1 <= dotdot)%nat.

(** ** The statements on the sink *)

(** The number of calls of the callback for the path [p], and the number
    of times the walk sends [p]. *)
Definition calls_for (p : string) (cs : list FileContent) : nat :=
  length (List.filter (fun fc => String.eqb (Path fc) p) cs).

Definition sends_of (p : string) (sent : list string) : nat :=
  length (List.filter (fun q => String.eqb q p) sent).

(** The callback was called for the file [f]. *)
Definition delivered (cs : list FileContent) (f : FileRef) : Prop :=
  exists fc, In fc cs /\ Path fc = f_path f.

Definition readable (ReadFile : string -> result string) (f : FileRef) : Prop :=
  exists bytes, ReadFile (f_path f) = Ok bytes.

(** In every run of the scan the callback is called for a readable file
    of the tree if and only if the file meets the three conditions. *)
Definition sink_iff_accepted (ReadFile : string -> result string)
    (s : FileScanner) (lstat : result Node) (workerCount : Z) : Prop :=
  forall cs err,
    ScanForAI ReadFile s lstat workerCount cs err ->
    forall f, In f (tree_files (Root s) lstat) ->
              readable ReadFile f ->
              (delivered cs f <-> accepted s f = true).

(** The patterns of an ignore-file as the specification words them: the
    lines that are neither blank nor start with [#], taken literally. *)
Definition spec_patterns (content : string) : list string :=
  List.filter keeps_line (bufio.split_lf content).

(** ** Examples *)

Definition example_error (op path : string) : PathError :=
  {| Op := op; ErrPath := path; Errno := "permission denied" |}.

(** No ignore-file can be opened. *)
Definition no_file (path : string) : result string :=
  Err {| Op := "open"; ErrPath := path; Errno := "no such file or directory" |}.

(** Every file can be read. *)
Definition read_all (path : string) : result string := Ok "package main".

(** The tree [{a.go, b.txt, sub/.git/c.go, sub/d.go}] of the
    specification. *)
Definition example_tree : Node :=
  Dir [("a.go", File); ("b.txt", File);
       ("sub", Dir [(".git", Dir [("c.go", File)] None); ("d.go", File)] None)]
      None.

(** A tree whose directory [a] cannot be listed, beside the file
    [b.go]. *)
Definition denied_tree : Node :=
  Dir [("a", Dir [] (Some (example_error "open" "a"))); ("b.go", File)] None.

Definition example_scanner : FileScanner :=
  fst (NewScanner no_file "." ".gitignore" [".go"]).

(** Every file can be read but [a.go]. *)
Definition read_but_first (path : string) : result string :=
  if String.eqb path "a.go" then Err (example_error "open" path)
  else Ok "package main".

(** A state of the scan of the example with two workers: the first worker
    is about to read [a.go], the second path waits in the channel. *)
Definition example_mid_state : state :=
  {| main := Walking [] None; chan := ["sub/d.go"]; closed := false;
     workers := [Reading "a.go"; Receiving]; calls := [] |}.

(** The state in which that scan has returned, when [a.go] cannot be
    read. *)
Definition example_end_state : state :=
  {| main := Returned None; chan := []; closed := true;
     workers := [Exited; Exited];
     calls := [{| Path := "sub/d.go"; Content := "package main" |}] |}.

(** ** The files that the walk reaches before its first traversal error *)

(** The files reached in a first part of the walk, then those of the
    rest when the first part is complete. *)
Definition and_then (first rest : list FileRef * bool) : list FileRef * bool :=
  if snd first then ((fst first ++ fst rest)%list, snd rest) else (fst first, false).

(** The files beneath [node] that come, in the order of the directory
    listings and depth first, before the first directory that is not
    beneath an ignored one and cannot be listed; and whether there is no
    such directory. *)
Fixpoint files_before_error (s : FileScanner) (path name : string)
    (ancestors : list string) (node : Node) : list FileRef * bool :=
  match node with
  | File => ([{| f_path := path; f_name := name; f_ancestors := ancestors |}], true)
  | Dir entries rderr =>
      if map_index (IgnoredNames s) name then ([], true)
      else
        match rderr with
        | Some _ => ([], false)
        | None =>
            fold_right
              (fun e rest =>
                 and_then (files_before_error s (filepath.Join path (fst e)) (fst e)
                             (ancestors ++ [name])%list (snd e))
                          rest)
              ([], true) entries
        end
  end.

(** The files of the tree that the walk of the scanner reaches before
    its first traversal error. *)
Definition reached_files (s : FileScanner) (lstat : result Node) : list FileRef :=
  match lstat with
  | Ok node => fst (files_before_error s (Root s) (os.basename (Root s)) [] node)
  | Err _ => []
  end.

(** In every run of the scan the callback is called for a readable file
    of the tree if and only if the file meets the three conditions and the
    walk reaches it before its first traversal error. *)
Definition sink_iff_accepted_and_reached (ReadFile : string -> result string)
    (s : FileScanner) (lstat : result Node) (workerCount : Z) : Prop :=
  forall cs err,
    ScanForAI ReadFile s lstat workerCount cs err ->
    forall f, In f (tree_files (Root s) lstat) ->
              readable ReadFile f ->
              (delivered cs f <-> accepted s f = true /\ In f (reached_files s lstat)).

(** A tree whose directory [locked] cannot be listed, between the files
    [a.go] and [b.go]. *)
Definition partial_tree : Node :=
  Dir [("a.go", File);
       ("locked", Dir [("x.go", File)] (Some (example_error "open" "locked")));
       ("b.go", File)]
      None.

(** * The rest of [main.go] *)

(** ** More on the worker pool *)

(** The workers that hold a path or its content. *)
Definition busy (w : worker) : bool :=
  match w with
  | Reading _ | Calling _ => true
  | Receiving | Exited => false
  end.

(** The scanner with one more pattern at the end of its patterns. *)
Definition with_pattern (s : FileScanner) (p : string) : FileScanner :=
  append_Pattern s p.

(** With one worker the calls, what the worker holds, the channel and the
    pending sends are, in this order, what the walk delivers. *)
Definition fifo_inv (ReadFile : string -> result string) (sent : list string)
    (st : state) : Prop :=
  exists w, workers st = [w]
            /\ (calls st ++ inflight ReadFile w
                ++ deliveries ReadFile (chan st ++ pending_of (main st)))%list
               = deliveries ReadFile sent.

(** Without a worker nothing leaves the channel. *)
Definition idle_inv (sent : list string) (st : state) : Prop :=
  workers st = [] /\ calls st = []
  /\ (chan st ++ pending_of (main st))%list = sent
  /\ (length (chan st) <= chan_cap)%nat.

(** [s] starts with a dot. *)
Definition starts_with_dot (s : string) : bool :=
  match s with String c _ => Ascii.eqb c filepath.DOT | EmptyString => false end.

(** ** [main]: the scan into the context *)

(** [fmt.Sprintf("\n--- FILE: %s ---\n%s\n", fc.Path, fc.Content)] *)
Definition file_block (fc : FileContent) : string :=
  String LF ("--- FILE: " ++ Path fc ++ " ---"
             ++ String LF (Content fc ++ String LF "")).

(** The blocks of the files [written], one after the other. *)
Definition blocks (written : list FileContent) : string :=
  fold_right (fun fc rest => file_block fc ++ rest) "" written.

(** The value of an [int64] after an addition that yields [z]. *)
Definition wrap64 (z : Z) : Z := (z + 2 ^ 63) mod 2 ^ 64 - 2 ^ 63.

(** A worker of the scan of [main], whose callback is [process]: at the
    head of its loop, about to read the file, in [process] before
    [atomic.AddInt64], at [mu.Lock()], holding the mutex before
    [builder.WriteString], holding it before [mu.Unlock()], or past
    [wg.Done()]. *)
Inductive pworker :=
| PReceiving
| PReading (path : string)
| PCounting (fc : FileContent)
| PLocking (fc : FileContent)
| PWriting (fc : FileContent)
| PUnlocking
| PExited.

(** The state of the scan of [main]: the walker and the channel as before,
    and the variables [fileCount], [mu] and [builder] that [process]
    shares between the workers. *)
Record pstate := {
  p_main : main_state;
  p_chan : list string;
  p_closed : bool;
  p_workers : list pworker;
  fileCount : Z;
  mu : bool;
  builder : string
}.

Definition with_pworker (st : pstate) (i : nat) (w : pworker) : pstate :=
  {| p_main := p_main st; p_chan := p_chan st; p_closed := p_closed st;
     p_workers := <[i := w]> (p_workers st);
     fileCount := fileCount st; mu := mu st; builder := builder st |}.

Definition returned_main (m : main_state) : Prop := exists e, m = Returned e.

Section MainScan.

Variable ReadFile : string -> result string.

(** One atomic action of one goroutine of the scan of [main]. *)
Inductive pstep : pstate -> pstate -> Prop :=
| pstep_send p pending err ch ws n m b :
    (length ch < chan_cap)%nat ->
    pstep {| p_main := Walking (p :: pending) err; p_chan := ch; p_closed := false;
             p_workers := ws; fileCount := n; mu := m; builder := b |}
          {| p_main := Walking pending err; p_chan := (ch ++ [p])%list;
             p_closed := false;
             p_workers := ws; fileCount := n; mu := m; builder := b |}
| pstep_close err ch cl ws n m b :
    pstep {| p_main := Walking [] err; p_chan := ch; p_closed := cl;
             p_workers := ws; fileCount := n; mu := m; builder := b |}
          {| p_main := Waiting err; p_chan := ch; p_closed := true;
             p_workers := ws; fileCount := n; mu := m; builder := b |}
| pstep_wait err ch cl ws n m b :
    Forall (fun w => w = PExited) ws ->
    pstep {| p_main := Waiting err; p_chan := ch; p_closed := cl;
             p_workers := ws; fileCount := n; mu := m; builder := b |}
          {| p_main := Returned err; p_chan := ch; p_closed := cl;
             p_workers := ws; fileCount := n; mu := m; builder := b |}
| pstep_recv st i p ch :
    p_workers st !! i = Some PReceiving ->
    p_chan st = p :: ch ->
    pstep st {| p_main := p_main st; p_chan := ch; p_closed := p_closed st;
                p_workers := <[i := PReading p]> (p_workers st);
                fileCount := fileCount st; mu := mu st; builder := builder st |}
| pstep_exit st i :
    p_workers st !! i = Some PReceiving ->
    p_chan st = [] ->
    p_closed st = true ->
    pstep st (with_pworker st i PExited)
| pstep_read_ok st i p bytes :
    p_workers st !! i = Some (PReading p) ->
    ReadFile p = Ok bytes ->
    pstep st (with_pworker st i (PCounting {| Path := p; Content := bytes |}))
| pstep_read_err st i p e :
    p_workers st !! i = Some (PReading p) ->
    ReadFile p = Err e ->
    pstep st (with_pworker st i PReceiving)
| pstep_count st i fc :
    (* atomic.AddInt64(&fileCount, 1) *)
    p_workers st !! i = Some (PCounting fc) ->
    pstep st {| p_main := p_main st; p_chan := p_chan st; p_closed := p_closed st;
                p_workers := <[i := PLocking fc]> (p_workers st);
                fileCount := wrap64 (fileCount st + 1);
                mu := mu st; builder := builder st |}
| pstep_lock st i fc :
    (* mu.Lock(), when the mutex is free *)
    p_workers st !! i = Some (PLocking fc) ->
    mu st = false ->
    pstep st {| p_main := p_main st; p_chan := p_chan st; p_closed := p_closed st;
                p_workers := <[i := PWriting fc]> (p_workers st);
                fileCount := fileCount st; mu := true; builder := builder st |}
| pstep_write st i fc :
    (* builder.WriteString(fmt.Sprintf(...)) *)
    p_workers st !! i = Some (PWriting fc) ->
    pstep st {| p_main := p_main st; p_chan := p_chan st; p_closed := p_closed st;
                p_workers := <[i := PUnlocking]> (p_workers st);
                fileCount := fileCount st; mu := mu st;
                builder := builder st ++ file_block fc |}
| pstep_unlock st i :
    (* mu.Unlock() *)
    p_workers st !! i = Some PUnlocking ->
    pstep st {| p_main := p_main st; p_chan := p_chan st; p_closed := p_closed st;
                p_workers := <[i := PReceiving]> (p_workers st);
                fileCount := fileCount st; mu := false; builder := builder st |}.

(** [main] after [flag.Parse]: the scanner for the directory [dir]. *)
Definition main_scanner (os_Open : string -> result string) (dir : string)
    : FileScanner :=
  fst (NewScanner os_Open dir ".gitignore" [".svelte"; ".ts"; ".go"; ".html"; ".sql"]).

(** The state when [main] calls [scanner.ScanForAI(runtime.NumCPU(),
    process)]: the counter is zero, the mutex free, the builder empty. *)
Definition pstart (s : FileScanner) (lstat : result Node) (workerCount : Z) : pstate :=
  let '(sent, err) := scan_walk s lstat in
  {| p_main := Walking sent err; p_chan := []; p_closed := false;
     p_workers := replicate (Z.to_nat workerCount) PReceiving;
     fileCount := 0; mu := false; builder := "" |}.

(** The scan of [main] ends with [count] in [fileCount] and with
    [repoContext] as [builder.String()], under some schedule; the error of
    [ScanForAI] is dropped. *)
Definition main_scan (os_Open : string -> result string) (dir : string)
    (lstat : result Node) (numCPU : Z) (count : Z) (repoContext : string) : Prop :=
  exists st, rtc pstep (pstart (main_scanner os_Open dir) lstat numCPU) st
             /\ returned_main (p_main st)
             /\ fileCount st = count /\ builder st = repoContext.

(** What a worker still owes to the builder. *)
Definition pinflight (w : pworker) : list FileContent :=
  match w with
  | PReading p => deliver ReadFile p
  | PCounting fc | PLocking fc | PWriting fc => [fc]
  | PReceiving | PUnlocking | PExited => []
  end.

End MainScan.

(** The workers that have counted their file and not yet written it. *)
Definition counted (w : pworker) : nat :=
  match w with PLocking _ | PWriting _ => 1 | _ => 0 end.

(** The workers that hold the mutex. *)
Definition holder (w : pworker) : nat :=
  match w with PWriting _ | PUnlocking => 1 | _ => 0 end.

(** The workers that can act whatever the others do. *)
Definition active (w : pworker) : bool :=
  match w with
  | PReading _ | PCounting _ | PWriting _ | PUnlocking => true
  | PReceiving | PLocking _ | PExited => false
  end.

Definition pworker_weight (w : pworker) : nat :=
  match w with
  | PReading _ => 6
  | PCounting _ => 5
  | PLocking _ => 4
  | PWriting _ => 3
  | PUnlocking => 2
  | PReceiving => 1
  | PExited => 0
  end.

Definition pmain_weight (m : main_state) : nat :=
  match m with
  | Walking pending _ => 2 + 7 * length pending
  | Waiting _ => 1
  | Returned _ => 0
  end.

Definition pweight (st : pstate) : nat :=
  pmain_weight (p_main st) + 6 * length (p_chan st)
  + sum_list_with pworker_weight (p_workers st).

(** The invariant of the scan of [main]. *)
Record pinv (ReadFile : string -> result string) (sent : list string)
    (err : option error) (n : nat) (st : pstate) : Prop := {
  pi_err : err_of (p_main st) = err;
  pi_workers : length (p_workers st) = n;
  pi_closed :
    p_closed st = match p_main st with Walking _ _ => false | _ => true end;
  pi_exited : PExited ∈ p_workers st -> p_closed st = true /\ p_chan st = [];
  pi_returned :
    returned_main (p_main st) -> Forall (fun w => w = PExited) (p_workers st);
  pi_mu : sum_list_with holder (p_workers st) = if mu st then 1%nat else 0%nat;
  pi_out :
    exists written,
      builder st = blocks written
      /\ (written ++ (p_workers st ≫= pinflight ReadFile)
          ++ deliveries ReadFile (p_chan st ++ pending_of (p_main st)))%list
         ≡ₚ deliveries ReadFile sent
      /\ fileCount st
         = wrap64 (Z.of_nat (length written + sum_list_with counted (p_workers st)))
}.

(** The extensions that [main] gives to [NewScanner]. *)
Definition main_extensions : list string :=
  [".svelte"; ".ts"; ".go"; ".html"; ".sql"].

(** The patterns of the scanner of [main]: the ignore-file is
    [.gitignore], opened as it is named, whatever the directory to
    analyze. *)
Definition main_patterns (os_Open : string -> result string) : list string :=
  match os_Open ".gitignore" with
  | Ok content =>
      List.filter keeps_line (map Strings.TrimSpace (bufio.ScanLines_tokens content))
  | Err _ => []
  end.

(** The files that [main] loads into the context. *)
Definition main_accepts (os_Open : string -> result string) (f : FileRef) : bool :=
  bool_decide (spec_ext (f_name f) ∈ main_extensions)
  && negb (matches_any (main_patterns os_Open) (f_name f))
  && forallb (fun d => negb (String.eqb d ".git" || String.eqb d "node_modules"))
             (f_ancestors f).

(** ** [main]: the interactive loop *)

(** What the loop of [main] does, in order: it prints the prompt, and for
    a question it prints a rule, calls [AskAboutRepo] and prints a rule. *)
Inductive session_event :=
| Prompt
| Rule
| Ask (question : string).

(** [userInput == "exit" || userInput == "quit"] *)
Definition is_exit (userInput : string) : bool :=
  String.eqb userInput "exit" || String.eqb userInput "quit".

(** The loop of [main] when [inputScanner.Scan()] yields the lines
    [texts] and then returns false.  The result of [AskAboutRepo] has no
    part in the control of the loop: its error is printed and the loop goes
    on. *)
Fixpoint session (texts : list string) : list session_event :=
  Prompt ::
  match texts with
  | [] => []
  | text :: rest =>
      let userInput := Strings.TrimSpace text in
      if is_exit userInput then []
      else if is_empty userInput then session rest
      else Rule :: Ask userInput :: Rule :: session rest
  end.

(** The questions that a session passes to [AskAboutRepo]. *)
Fixpoint questions (events : list session_event) : list string :=
  match events with
  | [] => []
  | Ask q :: rest => q :: questions rest
  | _ :: rest => questions rest
  end.

(** The session of [main] on the bytes [stdin] of the standard input. *)
Definition main_session (stdin : string) : list session_event :=
  session (bufio.ScanLines_tokens stdin).

(** The trimmed lines up to the first [exit] or [quit]. *)
Fixpoint before_exit (inputs : list string) : list string :=
  match inputs with
  | [] => []
  | input :: rest => if is_exit input then [] else input :: before_exit rest
  end.

(** ** Lines *)

Definition is_lf (c : ascii) : bool := Ascii.eqb c LF.

(** The text whose lines are [lines], each ended by a line feed. *)
Definition unlines (lines : list string) : string :=
  fold_right (fun line rest => line ++ String LF rest) "" lines.

(** A line as the line scanner can return it: without a line feed and
    shorter than the buffer. *)
Definition short_line (line : string) : bool :=
  free_of is_lf line && (Z.of_nat (str_len line) <? bufio.MaxScanTokenSize).

(** [n] times the byte [c]. *)
Fixpoint str_repeat (n : nat) (c : ascii) : string :=
  match n with
  | O => ""
  | Datatypes.S n' => String c (str_repeat n' c)
  end.

(** ** [AskAboutRepo] and [playSpinner] *)

Definition DEFAULT_MODEL : string := "qwen3.5:cloud".

(** The parts of the [api] package of the model server that
    [AskAboutRepo] uses. *)
Module api.

Record Message := { Role : string; Content : string }.

Record ChatRequest := {
  Model : string;
  Messages : list Message;
  Stream : bool
}.

End api.

Definition ESC : ascii := ascii_of_nat 27.

(** The frames of the spinner. *)
Definition frames : list string :=
  ["⠋"; "⠙"; "⠹"; "⠸"; "⠼"; "⠴"; "⠦"; "⠧"; "⠇"; "⠏"].

(** [fmt.Printf("\r\033[35m%s\033[0m AI is thinking...", frames[i])] *)
Definition spinner_line (frame : string) : string :=
  String CR (String ESC ("[35m" ++ frame ++ String ESC "[0m AI is thinking...")).

(** [fmt.Print("\r          \r")] *)
Definition clear_line : string := String CR ("          " ++ String CR "").

(** The request that [AskAboutRepo] sends. *)
Definition chat_request (repoContext userQuestion : string) : api.ChatRequest :=
  let systemMsg :=
    {| api.Role := "system";
       api.Content := "You are a Senior Software Engineer. Use the provided codebase to answer questions. Use Markdown for all formatting (code blocks, bold, headers)." |} in
  let userMsg :=
    {| api.Role := "user";
       api.Content := "CODEBASE:" ++ String LF (repoContext ++ String LF (String LF
                        ("QUESTION: " ++ userQuestion))) |} in
  {| api.Model := DEFAULT_MODEL;
     api.Messages := [systemMsg; userMsg];
     api.Stream := false |}.

(** The goroutine of [playSpinner]: at the [select] with the index [i], in
    the default case about to print the frame [i], after the receive from
    [done] about to clear the line, returned, or stopped by an index out of
    range. *)
Inductive spinner :=
| SpSelect (i : Z)
| SpTick (i : Z)
| SpStopping
| SpReturned
| SpPanic.

(** The goroutine of [AskAboutRepo], after it has started the spinner: in
    [ai.client.Chat], blocked in [done <- true], past the send, or
    returned. *)
Inductive asker :=
| Chatting
| Sending
| Checking
| AskReturned (err : option error).

(** The two goroutines and what they have written to the standard
    output, in order. *)
Record ask_state := {
  a_main : asker;
  a_spinner : spinner;
  a_out : list string
}.

Section AskAboutRepo.

(** [ai.client.Chat]: the contents of the responses that it passes to the
    callback, in order, and the error that it returns. *)
Variable Chat : api.ChatRequest -> list string * option error.

(** [ai.renderer.Render] *)
Variable Render : string -> string * option error.

Variables repoContext userQuestion : string.

(** [fullResponse.String()] when [Chat] has returned. *)
Definition fullResponse : string :=
  fold_right String.append "" (fst (Chat (chat_request repoContext userQuestion))).

Definition chat_error : option error :=
  snd (Chat (chat_request repoContext userQuestion)).

(** What [AskAboutRepo] prints after the spinner is stopped: nothing when
    [Chat] failed, else [fmt.Println(out)] for the rendering [out], whose
    error is dropped. *)
Definition answer : list string :=
  match chat_error with
  | Some _ => []
  | None => [fst (Render fullResponse) ++ String LF ""]
  end.

Inductive ask_step : ask_state -> ask_state -> Prop :=
| ask_chat_returns sp out :
    (* Chat returns; the goroutine reaches done <- true *)
    ask_step {| a_main := Chatting; a_spinner := sp; a_out := out |}
             {| a_main := Sending; a_spinner := sp; a_out := out |}
| ask_default i out :
    (* select: no sender is ready on done, the default case is taken *)
    ask_step {| a_main := Chatting; a_spinner := SpSelect i; a_out := out |}
             {| a_main := Chatting; a_spinner := SpTick i; a_out := out |}
| ask_tick m i out :
    (* print frames[i]; i = (i + 1) % len(frames); time.Sleep *)
    ask_step {| a_main := m; a_spinner := SpTick i; a_out := out |}
             (if (0 <=? i) && (i <? Z.of_nat (length frames)) then
                {| a_main := m;
                   a_spinner := SpSelect (Z.rem (i + 1) (Z.of_nat (length frames)));
                   a_out := (out ++ [spinner_line (nth (Z.to_nat i) frames "")])%list |}
              else {| a_main := m; a_spinner := SpPanic; a_out := out |})
| ask_handshake i out :
    (* the send on done meets the receive of the select *)
    ask_step {| a_main := Sending; a_spinner := SpSelect i; a_out := out |}
             {| a_main := Checking; a_spinner := SpStopping; a_out := out |}
| ask_clear m out :
    (* Clear the spinner line *)
    ask_step {| a_main := m; a_spinner := SpStopping; a_out := out |}
             {| a_main := m; a_spinner := SpReturned; a_out := (out ++ [clear_line])%list |}
| ask_finish sp out :
    (* if err != nil { return err }; render and print; return nil *)
    ask_step {| a_main := Checking; a_spinner := sp; a_out := out |}
             {| a_main := AskReturned chat_error; a_spinner := sp;
                a_out := (out ++ answer)%list |}.

(** [AskAboutRepo] after [go ai.playSpinner(ctx, done)]. *)
Definition ask_start : ask_state :=
  {| a_main := Chatting; a_spinner := SpSelect 0; a_out := [] |}.

End AskAboutRepo.

(** The first [k] lines of the spinner: the frames in their order, again
    and again. *)
Definition frame_lines (k : nat) : list string :=
  map (fun j => spinner_line (nth (j mod 10) frames "")) (seq 0 k).

(** The invariant of [AskAboutRepo] and its spinner: the output is made
    of the first lines of the spinner, then of the clearing of the line and
    of the answer, in the order in which the two goroutines print them. *)
Definition ask_inv (err : option error) (ans : list string) (st : ask_state) : Prop :=
  exists k,
    match a_main st, a_spinner st with
    | Chatting, SpSelect i | Chatting, SpTick i
    | Sending, SpSelect i | Sending, SpTick i =>
        a_out st = frame_lines k /\ i = Z.of_nat (k mod 10)
    | Checking, SpStopping => a_out st = frame_lines k
    | Checking, SpReturned => a_out st = (frame_lines k ++ [clear_line])%list
    | AskReturned e, SpStopping => e = err /\ a_out st = (frame_lines k ++ ans)%list
    | AskReturned e, SpReturned =>
        e = err
        /\ (a_out st = (frame_lines k ++ clear_line :: ans)%list
            \/ a_out st = (frame_lines k ++ ans ++ [clear_line])%list)
    | _, _ => False
    end.

Definition asker_weight (m : asker) : nat :=
  match m with
  | Chatting => 3
  | Sending => 2
  | Checking => 1
  | AskReturned _ => 0
  end.

Definition spinner_weight (sp : spinner) : nat :=
  match sp with
  | SpTick _ => 3
  | SpSelect _ => 2
  | SpStopping => 1
  | SpReturned | SpPanic => 0
  end.

Definition ask_weight (st : ask_state) : nat :=
  asker_weight (a_main st) + spinner_weight (a_spinner st).

(** A [Chat] that streams two pieces of an answer, and a [Render] that
    fails. *)
Definition example_chat (req : api.ChatRequest) : list string * option error :=
  (["Hel"; "lo"], None).

Definition failing_render (s : string) : string * option error :=
  ("", Some (OsError (example_error "render" s))).

Definition example_ask_state : ask_state :=
  {| a_main := AskReturned None;
     a_spinner := SpReturned;
     a_out := (frame_lines 12
               ++ answer example_chat failing_render "ctx" "q" ++ [clear_line])%list |}.

(** A state of the scan of [main] on the example with two workers: the
    first holds the mutex and is about to write, the second waits for
    it. *)
Definition example_locked_state : pstate :=
  {| p_main := Walking [] None; p_chan := []; p_closed := false;
     p_workers := [PWriting {| Path := "a.go"; Content := "package main" |};
                   PLocking {| Path := "sub/d.go"; Content := "package main" |}];
     fileCount := 2; mu := true; builder := "" |}.

(** * Properties *)

(** ** [filepath.Match] never reports a match together with an error *)



Lemma matches_any_app ps qs name :
  matches_any (ps ++ qs) name = matches_any ps name || matches_any qs name.
Proof.
  induction ps as [|p ps IH]; simpl; [reflexivity|].
  destruct (filepath.Match p name) as [[] err]; [reflexivity|exact IH].
Qed.

Lemma matches_any_true ps name :
  matches_any ps name = true <->
  exists p, In p ps /\ fst (filepath.Match p name) = true.
Proof.
  induction ps as [|p ps IH]; simpl.
  - split; [discriminate|]. intros (p & [] & _).
  - destruct (filepath.Match p name) as [m err] eqn:Hm.
    destruct m.
    + split; [|reflexivity]. intros _. exists p. rewrite Hm. auto.
    + rewrite IH. split.
      * intros (q & Hq & Hmq). exists q. auto.
      * intros (q & [Hq|Hq] & Hmq); [subst q; rewrite Hm in Hmq; discriminate|].
        exists q. auto.
Qed.

(** ** [NewScanner] *)

Lemma fold_set_AllowedExts_fields exts s :
  Root (fold_left set_AllowedExts exts s) = Root s
  /\ IgnoredNames (fold_left set_AllowedExts exts s) = IgnoredNames s
  /\ Patterns (fold_left set_AllowedExts exts s) = Patterns s.
Proof.
  revert s. induction exts as [|ext exts IH]; intros s; simpl; [auto|].
  destruct (IH (set_AllowedExts s ext)) as (-> & -> & ->). auto.
Qed.

Lemma fold_set_AllowedExts_index exts s ext :
  map_index (AllowedExts (fold_left set_AllowedExts exts s)) ext
  = bool_decide (ext ∈ exts) || map_index (AllowedExts s) ext.
Proof.
  revert s. induction exts as [|x exts IH]; intros s.
  - rewrite bool_decide_eq_false_2; [reflexivity|]. apply not_elem_of_nil.
  - cbn [fold_left]. rewrite IH. unfold map_index, set_AllowedExts.
    cbn [AllowedExts].
    destruct (decide (x = ext)) as [->|Hne].
    + rewrite lookup_insert_eq.
      rewrite (bool_decide_eq_true_2 (ext ∈ ext :: exts)); [|left].
      apply orb_true_r.
    + rewrite lookup_insert_ne by exact Hne.
      destruct (decide (ext ∈ exts)) as [Hin|Hnin].
      * rewrite !bool_decide_eq_true_2; [reflexivity|right; exact Hin|exact Hin].
      * rewrite !bool_decide_eq_false_2; [reflexivity| |exact Hnin].
        intros [Heq|Hin]%elem_of_cons; [congruence|contradiction].
Qed.

Lemma fold_scan_line_fields texts s :
  Root (fold_left scan_line texts s) = Root s
  /\ IgnoredNames (fold_left scan_line texts s) = IgnoredNames s
  /\ AllowedExts (fold_left scan_line texts s) = AllowedExts s
  /\ Patterns (fold_left scan_line texts s)
     = (Patterns s ++ List.filter keeps_line (map Strings.TrimSpace texts))%list.
Proof.
  revert s. induction texts as [|text texts IH]; intros s; simpl.
  - rewrite app_nil_r. auto.
  - destruct (IH (scan_line s text)) as (-> & -> & -> & ->).
    unfold scan_line, keeps_line.
    destruct (negb (is_empty (Strings.TrimSpace text))
              && negb (Strings.HasPrefix (Strings.TrimSpace text) "#")); simpl.
    + rewrite <- app_assoc. auto.
    + auto.
Qed.

(** ** The worker pool *)

Lemma workers_split (ws : list worker) i w :
  ws !! i = Some w ->
  exists l1 l2, ws = (l1 ++ w :: l2)%list
                /\ forall w', <[i := w']> ws = (l1 ++ w' :: l2)%list.
Proof.
  intros Hi. exists (take i ws), (drop (Datatypes.S i) ws). split.
  - symmetry. apply take_drop_middle. exact Hi.
  - intros w'. apply insert_take_drop. eapply lookup_lt_Some. exact Hi.
Qed.

Lemma weight_update (ws : list worker) i w w' :
  ws !! i = Some w ->
  (sum_list_with worker_weight (<[i := w']> ws) + worker_weight w
   = sum_list_with worker_weight ws + worker_weight w')%nat.
Proof.
  intros (l1 & l2 & -> & Hins)%workers_split. rewrite Hins.
  rewrite !sum_list_with_app. simpl. lia.
Qed.

Section Pool.

Variable ReadFile : string -> result string.
#[local] Abbreviation step := (step ReadFile).
#[local] Abbreviation inflight := (inflight ReadFile).
#[local] Abbreviation deliveries := (deliveries ReadFile).
#[local] Abbreviation invariant := (invariant ReadFile).

Lemma step_weight st st' : step st st' -> (weight st' < weight st)%nat.
Proof.
  unfold weight.
  destruct 1 as [p pending err ch ws cs Hcap|err ch cl ws cs|err ch cl ws cs Hall
                |st i p ch Hi Hch|st i Hi Hch Hcl|st i p bytes Hi Hrd
                |st i p e Hi Hrd|st i fc Hi]; simpl.
  - rewrite length_app. simpl. lia.
  - lia.
  - lia.
  - rewrite Hch. simpl. pose proof (weight_update _ _ _ (Reading p) Hi). simpl in *. lia.
  - pose proof (weight_update _ _ _ Exited Hi). simpl in *. lia.
  - pose proof (weight_update _ _ _ (Calling {| Path := p; Content := bytes |}) Hi).
    simpl in *. lia.
  - pose proof (weight_update _ _ _ Receiving Hi). simpl in *. lia.
  - pose proof (weight_update _ _ _ Receiving Hi). simpl in *. lia.
Qed.

(** No schedule runs forever. *)
Lemma step_sn st : sn step st.
Proof.
  induction st as [st IH] using (well_founded_induction (well_founded_ltof _ weight)).
  constructor. intros st' Hstep. apply IH. unfold ltof.
  apply step_weight. exact Hstep.
Qed.

Lemma inflight_update (ws : list worker) i w w' :
  ws !! i = Some w ->
  exists rest, ws ≫= inflight ≡ₚ (inflight w ++ rest)%list
               /\ <[i := w']> ws ≫= inflight ≡ₚ (inflight w' ++ rest)%list.
Proof.
  intros (l1 & l2 & -> & Hins)%workers_split. rewrite Hins.
  exists ((l1 ≫= inflight) ++ (l2 ≫= inflight))%list.
  rewrite !bind_app, !bind_cons. split.
  - rewrite !app_assoc. f_equiv. apply Permutation_app_comm.
  - rewrite !app_assoc. f_equiv. apply Permutation_app_comm.
Qed.

Lemma deliveries_app ps qs :
  deliveries (ps ++ qs) = (deliveries ps ++ deliveries qs)%list.
Proof. apply bind_app. Qed.

Lemma deliveries_cons p ps :
  deliveries (p :: ps) = (deliver ReadFile p ++ deliveries ps)%list.
Proof. reflexivity. Qed.

Lemma lookup_insert_elem (ws : list worker) i w w' v :
  ws !! i = Some w -> v ∈ <[i := w']> ws -> v = w' \/ v ∈ ws.
Proof.
  intros (l1 & l2 & -> & Hins)%workers_split. rewrite Hins.
  rewrite !elem_of_app, !elem_of_cons. tauto.
Qed.

Lemma not_all_exited (ws : list worker) i w :
  ws !! i = Some w -> w <> Exited ->
  Forall (fun v => v = Exited) ws -> False.
Proof.
  intros Hi Hw Hall. apply Hw.
  eapply (proj1 (Forall_lookup _ _) Hall). exact Hi.
Qed.

Section Invariants.

Variables (sent : list string) (err : option error) (n : nat).

Lemma invariant_step st st' :
  invariant sent err n st -> step st st' -> invariant sent err n st'.
Proof.
  intros [Herr Hn Hcl Hex Hret Hcalls] Hstep.
  destruct Hstep as [p pending e ch ws cs Hcap|e ch cl ws cs|e ch cl ws cs Hall
                    |st i p ch Hi Hch|st i Hi Hch Hclosed|st i p bytes Hi Hrd
                    |st i p e Hi Hrd|st i fc Hi]; simpl in *.
  - constructor; simpl; auto.
    + intros Hin. destruct (Hex Hin); discriminate.
    + intros [e' He']. discriminate.
    + rewrite <- Hcalls. rewrite <- app_assoc. reflexivity.
  - constructor; simpl; auto.
    + intros Hin. destruct (Hex Hin) as [_ ->]. auto.
    + intros [e' He']. discriminate.
  - constructor; simpl; auto.
  - pose proof (lookup_lt_Some _ _ _ Hi) as Hlt.
    destruct (inflight_update _ _ _ (Reading p) Hi) as (rest & Hold & Hnew).
    constructor; simpl; auto.
    + rewrite length_insert. exact Hn.
    + intros Hin. destruct (lookup_insert_elem _ _ _ _ _ Hi Hin) as [|Hin']; [discriminate|].
      destruct (Hex Hin') as [_ Hnil]. rewrite Hnil in Hch. discriminate.
    + intros Hr. specialize (Hret Hr).
      exfalso. eapply not_all_exited; eauto; discriminate.
    + rewrite <- Hcalls, Hch, Hnew, Hold. simpl.
      apply Permutation_app_head.
      rewrite (app_assoc rest). apply Permutation_app_tail.
      apply Permutation_app_comm.
  - pose proof (lookup_lt_Some _ _ _ Hi) as Hlt.
    destruct (inflight_update _ _ _ Exited Hi) as (rest & Hold & Hnew).
    constructor; simpl; auto.
    + rewrite length_insert. exact Hn.
    + intros Hr. specialize (Hret Hr).
      exfalso. eapply not_all_exited; eauto; discriminate.
    + rewrite <- Hcalls, Hnew, Hold. reflexivity.
  - pose proof (lookup_lt_Some _ _ _ Hi) as Hlt.
    destruct (inflight_update _ _ _ (Calling {| Path := p; Content := bytes |}) Hi)
      as (rest & Hold & Hnew).
    constructor; simpl; auto.
    + rewrite length_insert. exact Hn.
    + intros Hin. destruct (lookup_insert_elem _ _ _ _ _ Hi Hin) as [|Hin']; [discriminate|].
      auto.
    + intros Hr. specialize (Hret Hr).
      exfalso. eapply not_all_exited; eauto; discriminate.
    + rewrite <- Hcalls, Hnew, Hold. simpl. unfold deliver. rewrite Hrd. reflexivity.
  - pose proof (lookup_lt_Some _ _ _ Hi) as Hlt.
    destruct (inflight_update _ _ _ Receiving Hi) as (rest & Hold & Hnew).
    constructor; simpl; auto.
    + rewrite length_insert. exact Hn.
    + intros Hin. destruct (lookup_insert_elem _ _ _ _ _ Hi Hin) as [|Hin']; [discriminate|].
      auto.
    + intros Hr. specialize (Hret Hr).
      exfalso. eapply not_all_exited; eauto; discriminate.
    + rewrite <- Hcalls, Hnew, Hold. simpl. unfold deliver. rewrite Hrd. reflexivity.
  - pose proof (lookup_lt_Some _ _ _ Hi) as Hlt.
    destruct (inflight_update _ _ _ Receiving Hi) as (rest & Hold & Hnew).
    constructor; simpl; auto.
    + rewrite length_insert. exact Hn.
    + intros Hin. destruct (lookup_insert_elem _ _ _ _ _ Hi Hin) as [|Hin']; [discriminate|].
      auto.
    + intros Hr. specialize (Hret Hr).
      exfalso. eapply not_all_exited; eauto; discriminate.
    + rewrite <- Hcalls, Hnew, Hold. simpl. rewrite <- !app_assoc. reflexivity.
Qed.

Lemma invariant_rtc st st' :
  invariant sent err n st -> rtc step st st' -> invariant sent err n st'.
Proof.
  intros Hinv Hrtc. induction Hrtc as [|st st1 st2 Hstep _ IH]; [exact Hinv|].
  apply IH. eapply invariant_step; eauto.
Qed.

(** With at least one worker a state that has not returned can move. *)
Lemma progress st :
  invariant sent err n st -> (1 <= n)%nat -> ~ returned st ->
  exists st', step st st'.
Proof.
  intros [Herr Hn Hcl Hex Hret Hcalls] Hpos Hnret.
  destruct st as [m ch cl ws cs]. simpl in *.
  destruct ws as [|w ws]; [simpl in Hn; lia|].
  assert (Hw : (w :: ws) !! 0%nat = Some w) by reflexivity.
  assert (Hbusy : (exists p, w = Reading p) \/ (exists fc, w = Calling fc) ->
                  exists st', step {| main := m; chan := ch; closed := cl;
                                      workers := w :: ws; calls := cs |} st').
  { intros [[p ->]|[fc ->]].
    - destruct (ReadFile p) as [bytes|e] eqn:Hrd.
      + eexists. eapply (step_read_ok _ _ 0%nat); eauto.
      + eexists. eapply (step_read_err _ _ 0%nat); eauto.
    - eexists. eapply (step_call _ _ 0%nat); eauto. }
  destruct m as [pending e|e|e].
  - destruct pending as [|p pending].
    + eexists. apply step_close.
    + subst cl.
      destruct (decide (length ch < chan_cap)%nat) as [Hroom|Hfull].
      * eexists. apply step_send. exact Hroom.
      * destruct w as [|p'|fc|].
        -- destruct ch as [|q ch]; [unfold chan_cap in Hfull; simpl in Hfull; lia|].
           eexists. eapply (step_recv _ _ 0%nat); eauto.
        -- apply Hbusy. eauto.
        -- apply Hbusy. eauto.
        -- destruct Hex as [Hex _]; [left|discriminate].
  - destruct (decide (Forall (fun v => v = Exited) (w :: ws))) as [Hall|Hsome].
    + eexists. apply step_wait. exact Hall.
    + apply not_Forall_Exists in Hsome; [|intros v; apply _].
      apply Exists_exists in Hsome as (v & Hin & Hv).
      apply list_elem_of_lookup in Hin as [i Hi].
      destruct v as [|p'|fc|]; [| | |congruence].
      * destruct ch as [|q ch].
        -- eexists. eapply (step_exit _ _ i); eauto.
        -- eexists. eapply (step_recv _ _ i); eauto.
      * destruct (ReadFile p') as [bytes|e'] eqn:Hrd.
        -- eexists. eapply (step_read_ok _ _ i); eauto.
        -- eexists. eapply (step_read_err _ _ i); eauto.
      * eexists. eapply (step_call _ _ i); eauto.
  - exfalso. apply Hnret. eexists. reflexivity.
Qed.

(** With at least one worker the scan can always be run to its return. *)
Lemma run_to_return st :
  invariant sent err n st -> (1 <= n)%nat ->
  exists st', rtc step st st' /\ returned st'.
Proof.
  intros Hinv Hpos. induction (step_sn st) as [st _ IH].
  destruct (main st) as [pending e|e|e] eqn:Hmain.
  - destruct (progress st Hinv Hpos) as [st1 Hstep].
    { intros [e' He']. congruence. }
    destruct (IH st1 Hstep) as (st' & Hrtc & Hret).
    { eapply invariant_step; eauto. }
    exists st'. split; [|exact Hret]. eapply rtc_l; eauto.
  - destruct (progress st Hinv Hpos) as [st1 Hstep].
    { intros [e' He']. congruence. }
    destruct (IH st1 Hstep) as (st' & Hrtc & Hret).
    { eapply invariant_step; eauto. }
    exists st'. split; [|exact Hret]. eapply rtc_l; eauto.
  - exists st. split; [apply rtc_refl|]. exists e. exact Hmain.
Qed.

(** When the scan has returned, the callback has been called once for
    every sent path that could be read, and for nothing else. *)
Lemma returned_calls st :
  invariant sent err n st -> (1 <= n)%nat -> returned st ->
  main st = Returned err /\ calls st ≡ₚ deliveries sent.
Proof.
  intros [Herr Hn Hcl Hex Hret Hcalls] Hpos Hr.
  pose proof (Hret Hr) as Hall.
  destruct Hr as [e He]. rewrite He in *. simpl in *. subst e. split; [reflexivity|].
  destruct (workers st) as [|w ws] eqn:Hws; [simpl in Hn; lia|].
  assert (Hw : w = Exited) by (inversion Hall; assumption).
  destruct Hex as [_ Hch]; [subst w; left|].
  assert (Hnone : (w :: ws) ≫= inflight = []).
  { clear -Hall. induction Hall as [|v vs Hv _ IH]; [reflexivity|].
    rewrite bind_cons, IH. subst v. reflexivity. }
  rewrite Hch, Hnone in Hcalls. simpl in Hcalls.
  rewrite app_nil_r in Hcalls. exact Hcalls.
Qed.

End Invariants.

Lemma replicate_receiving_inflight k :
  replicate k Receiving ≫= inflight = [].
Proof. induction k as [|k IH]; [reflexivity|]. simpl. exact IH. Qed.

Lemma invariant_start s lstat workerCount :
  invariant (fst (scan_walk s lstat)) (snd (scan_walk s lstat))
            (Z.to_nat workerCount) (start s lstat workerCount).
Proof.
  unfold start. destruct (scan_walk s lstat) as [sent err]. simpl.
  constructor; simpl; auto.
  - apply length_replicate.
  - intros [Hin _]%elem_of_replicate. discriminate.
  - intros [e He]. discriminate.
  - rewrite replicate_receiving_inflight. reflexivity.
Qed.

(** Every run of [ScanForAI] with at least one worker returns the error
    of the walk after calling the callback for the readable sent paths. *)
Lemma ScanForAI_calls s lstat workerCount cs err :
  1 <= workerCount ->
  ScanForAI ReadFile s lstat workerCount cs err ->
  err = snd (scan_walk s lstat)
  /\ cs ≡ₚ deliveries (fst (scan_walk s lstat)).
Proof.
  intros Hpos (st & Hrtc & Hmain & Hcs).
  pose proof (invariant_rtc _ _ _ _ _ (invariant_start s lstat workerCount) Hrtc) as Hinv.
  destruct (returned_calls _ _ _ st Hinv) as [Hm Hperm].
  - lia.
  - exists err. exact Hmain.
  - subst cs. split; [congruence|exact Hperm].
Qed.

(** With at least one worker, [ScanForAI] returns under some schedule,
    no schedule runs forever and none is stuck before the return. *)
Lemma ScanForAI_returns s lstat workerCount :
  1 <= workerCount ->
  exists cs, ScanForAI ReadFile s lstat workerCount cs (snd (scan_walk s lstat)).
Proof.
  intros Hpos.
  destruct (run_to_return _ _ _ _ (invariant_start s lstat workerCount))
    as (st & Hrtc & Hret); [lia|].
  pose proof (invariant_rtc _ _ _ _ _ (invariant_start s lstat workerCount) Hrtc) as Hinv.
  destruct (returned_calls _ _ _ st Hinv) as [Hm _]; [lia|exact Hret|].
  exists (calls st), st. auto.
Qed.

Lemma ScanForAI_no_deadlock s lstat workerCount st :
  1 <= workerCount ->
  rtc step (start s lstat workerCount) st ->
  nf step st -> returned st.
Proof.
  intros Hpos Hrtc Hnf.
  pose proof (invariant_rtc _ _ _ _ _ (invariant_start s lstat workerCount) Hrtc) as Hinv.
  destruct (main st) as [pending e|e|e] eqn:Hmain.
  - exfalso. apply Hnf. eapply progress; eauto; [lia|]. intros [e' He']. congruence.
  - exfalso. apply Hnf. eapply progress; eauto; [lia|]. intros [e' He']. congruence.
  - exists e. exact Hmain.
Qed.

End Pool.

(** ** The walk *)

Lemma Node_induction (P : Node -> Prop) :
  P File ->
  (forall entries rderr, Forall (fun e => P (snd e)) entries -> P (Dir entries rderr)) ->
  forall node, P node.
Proof.
  intros HFile HDir. fix IH 1. intros [|entries rderr]; [exact HFile|].
  apply HDir. induction entries as [|[name node] es IHes]; constructor.
  - apply IH.
  - exact IHes.
Qed.

Section Walk.

Context {S : Type}.
Variable fn : string -> WalkArg -> S -> S * option error.

Lemma walkDir_File path name st :
  walkDir fn path name File st
  = (fst (fn path (Visit {| Name := name; IsDir := false |}) st),
     skipped_dir (snd (fn path (Visit {| Name := name; IsDir := false |}) st))
                 {| Name := name; IsDir := false |}).
Proof.
  simpl. destruct (fn path _ st) as [st' [e|]]; reflexivity.
Qed.

Lemma walkDir_Dir path name entries rderr st :
  walkDir fn path name (Dir entries rderr) st
  = let d := {| Name := name; IsDir := true |} in
    let '(st1, err) := fn path (Visit d) st in
    match err with
    | Some _ => (st1, skipped_dir err d)
    | None =>
        match rderr with
        | Some e =>
            let '(st2, err2) := fn path (Failed (Some d) (OsError e)) st1 in
            match err2 with
            | Some _ => (st2, skipped_dir err2 d)
            | None => walk_children fn path entries st2
            end
        | None => walk_children fn path entries st1
        end
    end.
Proof.
  assert (Hloop : forall es st0,
    (fix children (es : list (string * Node)) (st : S) : S * option error :=
       match es with
       | [] => (st, None)
       | (name1, node1) :: es' =>
           let '(st, err) := walkDir fn (filepath.Join path name1) name1 node1 st in
           match err with
           | Some e => if is_SkipDir e then (st, None) else (st, Some e)
           | None => children es' st
           end
       end) es st0 = walk_children fn path es st0).
  { induction es as [|[name1 node1] es IH]; intros st0; [reflexivity|].
    cbn [walk_children].
    destruct (walkDir fn (filepath.Join path name1) name1 node1 st0) as [st' [e|]];
      [reflexivity|apply IH]. }
  cbn [walkDir node_is_dir]. cbv zeta.
  destruct (fn path _ st) as [st1 [e|]]; [reflexivity|].
  destruct rderr as [e|].
  - destruct (fn path _ st1) as [st2 [e2|]]; [reflexivity|apply Hloop].
  - apply Hloop.
Qed.

End Walk.

Section ScannerWalk.

Variable s : FileScanner.

Lemma walk_children_walkFn es :
  Forall (fun e => forall path name sent,
            walk_result (dir_errors s name (snd e)) (dispatchable s path name (snd e))
                        sent (walkDir (walkFn s) path name (snd e) sent)) es ->
  forall path sent,
    walk_result (flat_map (fun e => dir_errors s (fst e) (snd e)) es)
                (flat_map (fun e => dispatchable s (filepath.Join path (fst e)) (fst e) (snd e)) es)
                sent (walk_children (walkFn s) path es sent).
Proof.
  induction 1 as [|[name1 node1] es Hnode _ IH]; intros path sent.
  - exists []. simpl. rewrite app_nil_r. split; [reflexivity|]. split; [exists []|]; reflexivity.
  - cbn [walk_children flat_map fst snd].
    pose proof (Hnode (filepath.Join path name1) name1 sent) as Hn1. cbn [snd] in Hn1.
    destruct Hn1 as (new1 & -> & [rest1 Hpre1] & Hall1).
    destruct (dir_errors s name1 node1) as [|e errs1] eqn:Herrs.
    + simpl. specialize (Hall1 eq_refl). subst new1.
      destruct (IH path (sent ++ dispatchable s (filepath.Join path name1) name1 node1)%list)
        as (new2 & -> & [rest2 Hpre2] & Hall2).
      exists (dispatchable s (filepath.Join path name1) name1 node1 ++ new2)%list.
      rewrite app_assoc. split; [reflexivity|]. split.
      * exists rest2. rewrite Hpre2 at 1. rewrite app_assoc. reflexivity.
      * intros Hnil. rewrite (Hall2 Hnil). reflexivity.
    + simpl. exists new1. split; [reflexivity|]. split.
      * exists (rest1 ++ flat_map (fun e => dispatchable s (filepath.Join path (fst e)) (fst e) (snd e)) es)%list.
        rewrite Hpre1. rewrite app_assoc. reflexivity.
      * discriminate.
Qed.

Lemma walkDir_walkFn node :
  forall path name sent,
    walk_result (dir_errors s name node) (dispatchable s path name node)
                sent (walkDir (walkFn s) path name node sent).
Proof.
  induction node as [|entries rderr IH] using Node_induction; intros path name sent.
  - rewrite walkDir_File. cbn [walkFn IsDir Name dir_errors dispatchable].
    unfold file_passes.
    destruct (map_index (AllowedExts s) (filepath.Ext path)); simpl.
    + destruct (matches_any (Patterns s) name); simpl.
      * exists []. rewrite app_nil_r. split; [reflexivity|]. split; [exists []|]; reflexivity.
      * exists [path]. split; [reflexivity|]. split; [exists []|]; reflexivity.
    + exists []. rewrite app_nil_r. split; [reflexivity|]. split; [exists []|]; reflexivity.
  - rewrite walkDir_Dir. cbn [walkFn IsDir Name dir_errors dispatchable].
    destruct (map_index (IgnoredNames s) name); simpl.
    + exists []. rewrite app_nil_r. split; [reflexivity|]. split; [exists []|]; reflexivity.
    + destruct rderr as [e|]; simpl.
      * exists []. rewrite app_nil_r. split; [reflexivity|]. split; [eexists; reflexivity|discriminate].
      * apply walk_children_walkFn. exact IH.
Qed.

Lemma is_SkipDir_OsError (errs : list PathError) e :
  OsError <$> head errs = Some e -> is_SkipDir e || is_SkipAll e = false.
Proof. destruct errs; simpl; [discriminate|]. intros [= <-]. reflexivity. Qed.

(** The walk of the scan: it returns the first traversal error, and
    without one it sends exactly the paths of the tree that pass the
    filters; with one, the first of them. *)
Lemma scan_walk_result lstat :
  walk_result (walk_errors s lstat)
              (match lstat with
               | Ok node => dispatchable s (Root s) (os.basename (Root s)) node
               | Err _ => []
               end)
              [] (scan_walk s lstat).
Proof.
  unfold scan_walk, WalkDir. destruct lstat as [node|e]; simpl.
  - destruct (walkDir_walkFn node (Root s) (os.basename (Root s)) [])
      as (new & Hw & Hpre & Hall).
    rewrite Hw. exists new.
    destruct (OsError <$> head (dir_errors s (os.basename (Root s)) node)) as [e|] eqn:He.
    + rewrite (is_SkipDir_OsError _ _ He). auto.
    + auto.
  - exists []. split; [reflexivity|]. split; [exists []; reflexivity|discriminate].
Qed.

End ScannerWalk.

(** ** The files of the tree and the paths the walk sends *)

Lemma filter_flat_map {A B} (p : B -> bool) (f : A -> list B) l :
  List.filter p (flat_map f l) = flat_map (fun x => List.filter p (f x)) l.
Proof.
  induction l as [|x l IH]; simpl; [reflexivity|].
  rewrite List.filter_app, IH. reflexivity.
Qed.

Lemma map_flat_map {A B C} (g : B -> C) (f : A -> list B) l :
  map g (flat_map f l) = flat_map (fun x => map g (f x)) l.
Proof.
  induction l as [|x l IH]; simpl; [reflexivity|].
  rewrite map_app, IH. reflexivity.
Qed.

Lemma flat_map_Forall_eq {A B} (f g : A -> list B) l :
  Forall (fun x => f x = g x) l -> flat_map f l = flat_map g l.
Proof.
  induction 1 as [|x l Hx _ IH]; simpl; [reflexivity|].
  rewrite Hx, IH. reflexivity.
Qed.

Lemma flat_map_nil {A B} (f : A -> list B) l :
  Forall (fun x => f x = []) l -> flat_map f l = [].
Proof.
  induction 1 as [|x l Hx _ IH]; simpl; [reflexivity|].
  rewrite Hx, IH. reflexivity.
Qed.

Section Files.

Variable s : FileScanner.

#[local] Abbreviation clear_of_ignored :=
  (forallb (fun d => negb (map_index (IgnoredNames s) d))).

Lemma files_beneath_ignored node :
  forall path name ancestors,
    clear_of_ignored ancestors = false ->
    List.filter (accepted_path s) (files_of path name ancestors node) = [].
Proof.
  induction node as [|entries rderr IH] using Node_induction;
    intros path name ancestors Hign.
  - simpl. unfold accepted_path, not_ignored. simpl. rewrite Hign.
    rewrite andb_false_r. reflexivity.
  - cbn [files_of]. rewrite filter_flat_map. apply flat_map_nil.
    eapply Forall_impl; [exact IH|]. intros [name1 node1] Hnode. simpl in *.
    apply Hnode. rewrite forallb_app, Hign. reflexivity.
Qed.

(** Pruning at the ignored directories sends the same paths as keeping
    the files without an ignored directory above them. *)
Lemma dispatchable_files node :
  forall path name ancestors,
    clear_of_ignored ancestors = true ->
    dispatchable s path name node
    = map f_path (List.filter (accepted_path s) (files_of path name ancestors node)).
Proof.
  induction node as [|entries rderr IH] using Node_induction;
    intros path name ancestors Hclear.
  - simpl. unfold accepted_path, not_ignored. simpl. rewrite Hclear, andb_true_r.
    destruct (file_passes s path name); reflexivity.
  - cbn [files_of dispatchable]. rewrite filter_flat_map, map_flat_map.
    destruct (map_index (IgnoredNames s) name) eqn:Hname.
    + symmetry. apply flat_map_nil.
      rewrite Forall_forall. intros [name1 node1] _. simpl.
      rewrite files_beneath_ignored; [reflexivity|].
      rewrite forallb_app. simpl. rewrite Hname. simpl. apply andb_false_r.
    + apply flat_map_Forall_eq.
      eapply Forall_impl; [exact IH|]. intros [name1 node1] Hnode. simpl in *.
      apply Hnode. rewrite forallb_app, Hclear. simpl. rewrite Hname. reflexivity.
Qed.

End Files.

(** ** The log of the callback *)

Section Traced.

Context {S : Type}.
Variable fn : string -> WalkArg -> S -> S * option error.

Lemma walk_children_traced es :
  Forall (fun e => forall path name st log,
            same_walk (walkDir fn path name (snd e) st) log
                      (walkDir (traced fn) path name (snd e) (st, log))) es ->
  forall path st log,
    same_walk (walk_children fn path es st) log
              (walk_children (traced fn) path es (st, log)).
Proof.
  induction 1 as [|[name1 node1] es Hnode _ IH]; intros path st log.
  - exists []. simpl. rewrite app_nil_r. reflexivity.
  - cbn [walk_children].
    pose proof (Hnode (filepath.Join path name1) name1 st log) as Hn1. cbn [snd] in Hn1.
    destruct Hn1 as [log1 ->].
    destruct (walkDir fn (filepath.Join path name1) name1 node1 st) as [st1 [e|]]; simpl.
    + exists log1. destruct (is_SkipDir e); reflexivity.
    + destruct (IH path st1 (log ++ log1)%list) as [log2 ->].
      exists (log1 ++ log2)%list. rewrite app_assoc. reflexivity.
Qed.

Lemma walkDir_traced node :
  forall path name st log,
    same_walk (walkDir fn path name node st) log
              (walkDir (traced fn) path name node (st, log)).
Proof.
  induction node as [|entries rderr IH] using Node_induction; intros path name st log.
  - rewrite !walkDir_File. unfold traced. simpl.
    destruct (fn path _ st) as [st1 err]. simpl. eexists. reflexivity.
  - rewrite !walkDir_Dir. unfold traced at 1. simpl.
    destruct (fn path _ st) as [st1 [e|]]; simpl; [eexists; reflexivity|].
    destruct rderr as [e|].
    + unfold traced at 1. simpl.
      destruct (fn path _ st1) as [st2 [e2|]]; simpl.
      * eexists. rewrite <- app_assoc. reflexivity.
      * destruct (walk_children_traced entries IH path st2
                    ((log ++ [(path, Visit {| Name := name; IsDir := true |})])
                     ++ [(path, Failed (Some {| Name := name; IsDir := true |}) (OsError e))])%list)
          as [log2 ->].
        eexists. rewrite <- !app_assoc. reflexivity.
    + destruct (walk_children_traced entries IH path st1
                  (log ++ [(path, Visit {| Name := name; IsDir := true |})])%list)
        as [log2 ->].
      eexists. rewrite <- !app_assoc. reflexivity.
Qed.

Lemma WalkDir_traced root lstat st log :
  same_walk (WalkDir fn root lstat st) log (WalkDir (traced fn) root lstat (st, log)).
Proof.
  unfold WalkDir. destruct lstat as [node|e].
  - destruct (walkDir_traced node root (os.basename root) st log) as [log1 ->].
    destruct (walkDir fn root (os.basename root) node st) as [st1 [e|]]; simpl.
    + exists log1. destruct (is_SkipDir e || is_SkipAll e); reflexivity.
    + exists log1. reflexivity.
  - unfold traced. simpl. destruct (fn root _ st) as [st1 [e1|]]; simpl.
    + eexists. destruct (is_SkipDir e1 || is_SkipAll e1); reflexivity.
    + eexists. reflexivity.
Qed.

End Traced.

Section Pruning.

Variable s : FileScanner.

(** The walk of an ignored directory is the one call on the directory. *)
Lemma walkDir_ignored path name entries rderr sent log :
  map_index (IgnoredNames s) name = true ->
  walkDir (traced (walkFn s)) path name (Dir entries rderr) (sent, log)
  = ((sent, (log ++ [(path, Visit {| Name := name; IsDir := true |})])%list), None).
Proof.
  intros Hign. rewrite walkDir_Dir. unfold traced. simpl. rewrite Hign. reflexivity.
Qed.

Lemma walk_children_prune es :
  Forall (fun e => forall path name st,
            walkDir (traced (walkFn s)) path name (snd e) st
            = walkDir (traced (walkFn s)) path name (prune s name (snd e)) st) es ->
  forall path st,
    walk_children (traced (walkFn s)) path es st
    = walk_children (traced (walkFn s)) path
        (map (fun e => (fst e, prune s (fst e) (snd e))) es) st.
Proof.
  induction 1 as [|[name1 node1] es Hnode _ IH]; intros path st; [reflexivity|].
  cbn [walk_children map fst snd].
  pose proof (Hnode (filepath.Join path name1) name1 st) as Hn1. cbn [snd] in Hn1.
  rewrite <- Hn1.
  destruct (walkDir (traced (walkFn s)) (filepath.Join path name1) name1 node1 st)
    as [st1 [e|]]; [reflexivity|apply IH].
Qed.

Lemma walkDir_prune node :
  forall path name st,
    walkDir (traced (walkFn s)) path name node st
    = walkDir (traced (walkFn s)) path name (prune s name node) st.
Proof.
  induction node as [|entries rderr IH] using Node_induction; intros path name st;
    [reflexivity|].
  cbn [prune]. destruct (map_index (IgnoredNames s) name) eqn:Hign.
  - destruct st as [sent log]. rewrite !walkDir_ignored by exact Hign. reflexivity.
  - rewrite !walkDir_Dir. cbv zeta.
    destruct (traced (walkFn s) path _ st) as [st1 [e|]]; [reflexivity|].
    destruct rderr as [e|].
    + destruct (traced (walkFn s) path _ st1) as [st2 [e2|]]; [reflexivity|].
      apply walk_children_prune. exact IH.
    + apply walk_children_prune. exact IH.
Qed.

Lemma WalkDir_prune lstat st :
  WalkDir (traced (walkFn s)) (Root s) lstat st
  = WalkDir (traced (walkFn s)) (Root s) (prune_tree s lstat) st.
Proof.
  unfold WalkDir. destruct lstat as [node|e]; [|reflexivity].
  simpl. rewrite <- walkDir_prune. reflexivity.
Qed.

Lemma scan_walk_prune lstat :
  scan_walk s lstat = scan_walk s (prune_tree s lstat).
Proof.
  unfold scan_walk.
  destruct (WalkDir_traced (walkFn s) (Root s) lstat [] []) as [log1 H1].
  destruct (WalkDir_traced (walkFn s) (Root s) (prune_tree s lstat) [] []) as [log2 H2].
  rewrite <- WalkDir_prune, H1 in H2.
  destruct (WalkDir (walkFn s) (Root s) lstat []) as [a b].
  destruct (WalkDir (walkFn s) (Root s) (prune_tree s lstat) []) as [a' b'].
  simpl in H2. congruence.
Qed.

End Pruning.

(** ** Strings *)

Lemma str_len_app a b : str_len (a ++ b) = (str_len a + str_len b)%nat.
Proof.
  induction a as [|c a IH]; [reflexivity|].
  unfold str_len in *. simpl. rewrite IH. reflexivity.
Qed.

Lemma str_app_assoc (a b c : string) : (a ++ b) ++ c = a ++ (b ++ c).
Proof. induction a as [|x a IH]; simpl; [reflexivity|]. rewrite IH. reflexivity. Qed.

Lemma str_app_nil_r (a : string) : a ++ "" = a.
Proof. induction a as [|x a IH]; simpl; [reflexivity|]. rewrite IH. reflexivity. Qed.

Lemma str_app_snoc a c b : a ++ String c b = (a ++ String c "") ++ b.
Proof. rewrite str_app_assoc. reflexivity. Qed.

Lemma str_at_app a c b : str_at (str_len a) (a ++ String c b) = c.
Proof. induction a as [|x a IH]; [reflexivity|]. exact IH. Qed.

Lemma str_drop_app a b : str_drop (str_len a) (a ++ b) = b.
Proof. induction a as [|x a IH]; [reflexivity|]. exact IH. Qed.

Lemma str_take_app a b : str_take (str_len a) (a ++ b) = a.
Proof.
  induction a as [|x a IH]; [destruct b; reflexivity|].
  simpl. f_equal. exact IH.
Qed.

Lemma str_take_all a : str_take (str_len a) a = a.
Proof. rewrite <- (str_app_nil_r a) at 2. apply str_take_app. Qed.

Lemma str_drop_app_lt i a b :
  (i <= str_len a)%nat -> str_drop i (a ++ b) = str_drop i a ++ b.
Proof.
  revert a. induction i as [|i IH]; intros a Hi; [reflexivity|].
  destruct a as [|x a]; [unfold str_len in Hi; simpl in Hi; lia|].
  simpl. apply IH. unfold str_len in *. simpl in Hi. lia.
Qed.

Lemma str_snoc_cases s : s = "" \/ exists a c, s = a ++ String c "".
Proof.
  induction s as [|x s IH]; [left; reflexivity|]. right.
  destruct IH as [->|(a & c & ->)].
  - exists "", x. reflexivity.
  - exists (String x a), c. reflexivity.
Qed.

Lemma free_of_app p a b : free_of p (a ++ b) = free_of p a && free_of p b.
Proof.
  induction a as [|x a IH]; simpl; [reflexivity|].
  rewrite IH. apply andb_assoc.
Qed.

Lemma last_index_free c s :
  free_of (fun a => Ascii.eqb a c) s = true -> last_index c s = None.
Proof.
  induction s as [|x s IH]; simpl; [reflexivity|].
  intros [Hx Hs]%andb_prop. rewrite (IH Hs).
  destruct (Ascii.eqb x c); [discriminate|reflexivity].
Qed.

Lemma last_index_app c a b :
  last_index c (a ++ b)
  = match last_index c b with
    | Some i => Some (str_len a + i)%nat
    | None => last_index c a
    end.
Proof.
  induction a as [|x a IH]; simpl.
  - destruct (last_index c b); reflexivity.
  - rewrite IH. destruct (last_index c b); [reflexivity|].
    destruct (last_index c a); reflexivity.
Qed.

Lemma last_index_lt c s i : last_index c s = Some i -> (i < str_len s)%nat.
Proof.
  revert i. induction s as [|x s IH]; simpl; intros i; [discriminate|].
  unfold str_len in *. simpl.
  destruct (last_index c s) as [j|].
  - intros [= <-]. specialize (IH j eq_refl). lia.
  - destruct (Ascii.eqb x c); [intros [= <-]; lia|discriminate].
Qed.

Lemma last_index_here c a b :
  free_of (fun x => Ascii.eqb x c) b = true ->
  last_index c (a ++ String c b) = Some (str_len a).
Proof.
  intros Hb. rewrite last_index_app. simpl.
  rewrite (last_index_free _ _ Hb), Ascii.eqb_refl. f_equal. lia.
Qed.

Lemma free_of_weaken (p q : ascii -> bool) s :
  (forall c, q c = true -> p c = true) -> free_of p s = true -> free_of q s = true.
Proof.
  intros Hpq. induction s as [|x s IH]; simpl; [reflexivity|].
  intros [Hx Hs]%andb_prop. rewrite (IH Hs), andb_true_r.
  destruct (q x) eqn:Hq; [|reflexivity]. rewrite (Hpq _ Hq) in Hx. discriminate.
Qed.

(** A string is free of the bytes that satisfy [p], or it has a last
    one. *)
Lemma last_byte_with (p : ascii -> bool) s :
  free_of p s = true
  \/ exists a c b, s = a ++ String c b /\ p c = true /\ free_of p b = true.
Proof.
  induction s as [|x s IH]; [left; reflexivity|].
  destruct IH as [Hfree|(a & c & b & -> & Hc & Hb)].
  - destruct (p x) eqn:Hx.
    + right. exists "", x, s. auto.
    + left. simpl. rewrite Hx, Hfree. reflexivity.
  - right. exists (String x a), c, b. auto.
Qed.

Lemma last_dot_or_sep s :
  free_of is_dot_or_sep s = true
  \/ exists a c b, s = a ++ String c b /\ is_dot_or_sep c = true
                   /\ free_of is_dot_or_sep b = true.
Proof. apply last_byte_with. Qed.

(** ** [filepath.Ext] *)

Lemma Ext_from_step a c b :
  filepath.Ext_from (a ++ String c b) (Datatypes.S (str_len a))
  = if is_sep c then ""
    else if is_dot c then String c b
    else filepath.Ext_from (a ++ String c b) (str_len a).
Proof.
  cbn [filepath.Ext_from]. rewrite str_at_app, str_drop_app. reflexivity.
Qed.

Lemma Ext_from_free b :
  free_of is_dot_or_sep b = true ->
  forall a, filepath.Ext_from (a ++ b) (str_len a + str_len b)
            = filepath.Ext_from (a ++ b) (str_len a).
Proof.
  induction b as [|c b IH]; intros Hfree a.
  - rewrite Nat.add_0_r. reflexivity.
  - simpl in Hfree. apply andb_prop in Hfree as [Hc Hb].
    unfold is_dot_or_sep in Hc. apply negb_true_iff, orb_false_elim in Hc as [Hdot Hsep].
    rewrite str_app_snoc.
    replace (str_len a + str_len (String c b))%nat
      with (str_len (a ++ String c "") + str_len b)%nat
      by (rewrite str_len_app; unfold str_len; simpl; lia).
    rewrite (IH Hb). rewrite <- str_app_snoc.
    replace (str_len (a ++ String c "")) with (Datatypes.S (str_len a))
      by (rewrite str_len_app; unfold str_len; simpl; lia).
    rewrite Ext_from_step, Hsep, Hdot. reflexivity.
Qed.

Lemma Ext_last a c b :
  free_of is_dot_or_sep b = true ->
  filepath.Ext (a ++ String c b)
  = if is_sep c then ""
    else if is_dot c then String c b
    else filepath.Ext_from (a ++ String c b) (str_len a).
Proof.
  intros Hb. unfold filepath.Ext.
  rewrite str_app_snoc, str_len_app, (Ext_from_free b Hb), <- str_app_snoc.
  replace (str_len (a ++ String c "")) with (Datatypes.S (str_len a))
    by (rewrite str_len_app; unfold str_len; simpl; lia).
  apply Ext_from_step.
Qed.

Lemma free_of_dot b :
  free_of is_dot_or_sep b = true ->
  free_of (fun x => Ascii.eqb x filepath.DOT) b = true.
Proof.
  apply free_of_weaken. intros c Hc. unfold is_dot_or_sep, is_dot. rewrite Hc. reflexivity.
Qed.

Lemma free_of_sep b :
  free_of is_dot_or_sep b = true ->
  free_of (fun x => Ascii.eqb x Separator) b = true.
Proof.
  apply free_of_weaken. intros c Hc. unfold is_dot_or_sep, is_sep. rewrite Hc.
  apply orb_true_r.
Qed.

Lemma dot_not_sep c : is_dot c = true -> is_sep c = false.
Proof.
  unfold is_dot, is_sep. intros ->%Ascii.eqb_eq. reflexivity.
Qed.

(** [filepath.Ext] computes the extension that the specification
    describes, on the last element of the path. *)
Lemma Ext_spec path : filepath.Ext path = spec_ext (last_element path).
Proof.
  destruct (last_dot_or_sep path) as [Hfree|(a & c & b & -> & Hc & Hb)].
  - unfold last_element, spec_ext.
    rewrite (last_index_free _ _ (free_of_sep _ Hfree)).
    rewrite (last_index_free _ _ (free_of_dot _ Hfree)).
    unfold filepath.Ext.
    change path with ("" ++ path) at 1.
    change (str_len path) with (str_len "" + str_len path)%nat.
    rewrite (Ext_from_free path Hfree ""). reflexivity.
  - rewrite (Ext_last a c b Hb).
    unfold is_dot_or_sep in Hc. destruct (is_sep c) eqn:Hsep.
    + (* the last of them is a separator *)
      apply Ascii.eqb_eq in Hsep as ->.
      unfold last_element. rewrite (last_index_here _ a b (free_of_sep _ Hb)).
      rewrite str_app_snoc.
      replace (Datatypes.S (str_len a)) with (str_len (a ++ String Separator ""))
        by (rewrite str_len_app; unfold str_len; simpl; lia).
      rewrite str_drop_app. unfold spec_ext.
      rewrite (last_index_free _ _ (free_of_dot _ Hb)). reflexivity.
    + (* the last of them is a dot *)
      rewrite orb_false_r in Hc. rewrite Hc.
      apply Ascii.eqb_eq in Hc as ->.
      assert (Hsepb : free_of (fun x => Ascii.eqb x Separator) (String filepath.DOT b) = true).
      { simpl. rewrite (free_of_sep _ Hb). reflexivity. }
      unfold last_element. rewrite last_index_app, (last_index_free _ _ Hsepb).
      destruct (last_index Separator a) as [i|] eqn:Hi.
      * rewrite str_drop_app_lt by (apply last_index_lt in Hi; lia).
        unfold spec_ext. rewrite (last_index_here _ _ b (free_of_dot _ Hb)).
        symmetry. apply str_drop_app.
      * unfold spec_ext. rewrite (last_index_here _ _ b (free_of_dot _ Hb)).
        symmetry. apply str_drop_app.
Qed.

(** ** [filepath.Clean] and [filepath.Join] *)

Lemma backtrack_ge out dotdot w :
  (dotdot <= w)%nat -> (dotdot <= filepath.backtrack out w dotdot)%nat.
Proof.
  induction w as [|w IH]; intros Hle; simpl; [lia|].
  destruct ((dotdot <? Datatypes.S w)%nat && negb (is_sep (str_at (Datatypes.S w) out))) eqn:Hc;
    [|lia].
  apply IH. apply andb_prop in Hc as [Hlt _]. apply Nat.ltb_lt in Hlt. lia.
Qed.

Lemma starts_with_sep_app out x :
  filepath.starts_with_sep out = true -> filepath.starts_with_sep (out ++ x) = true.
Proof. destruct out; [discriminate|]. simpl. auto. Qed.

Lemma starts_with_sep_take out w :
  (1 <= w)%nat -> filepath.starts_with_sep out = true ->
  filepath.starts_with_sep (str_take w out) = true.
Proof. destruct out, w; simpl; auto; lia. Qed.

Lemma clean_inv_app rooted out dotdot x :
  clean_inv rooted out dotdot -> clean_inv rooted (out ++ x) dotdot.
Proof. intros Hinv Hr. destruct (Hinv Hr). auto using starts_with_sep_app. Qed.

Lemma clean_inv_backtrack rooted out dotdot :
  clean_inv rooted out dotdot ->
  (dotdot <? str_len out)%nat = true ->
  clean_inv rooted (str_take (filepath.backtrack out (str_len out - 1) dotdot) out) dotdot.
Proof.
  intros Hinv Hlt Hr. destruct (Hinv Hr) as [Hsep Hdd]. split; [|exact Hdd].
  apply starts_with_sep_take; [|exact Hsep].
  apply Nat.ltb_lt in Hlt.
  pose proof (backtrack_ge out dotdot (str_len out - 1)). lia.
Qed.

Lemma clean_inv_unrooted out dotdot : clean_inv false out dotdot.
Proof. intros Hr. discriminate. Qed.

(** The bytes of an element are copied to the output. *)
Lemma Clean_loop_copy rooted dotdot m :
  free_of is_sep m = true ->
  forall out, filepath.Clean_loop rooted true out dotdot m = out ++ m.
Proof.
  induction m as [|c m IH]; intros Hfree out; simpl.
  - symmetry. apply str_app_nil_r.
  - simpl in Hfree. apply andb_prop in Hfree as [Hc Hm].
    apply negb_true_iff in Hc. rewrite Hc, (IH Hm), str_app_assoc. reflexivity.
Qed.

Lemma valid_name_free name :
  valid_name name = true -> free_of is_sep name = true.
Proof.
  unfold valid_name. intros [[[_ Hsep]%andb_prop _]%andb_prop _]%andb_prop.
  apply negb_true_iff in Hsep. clear -Hsep.
  induction name as [|c m IH]; simpl in *; [reflexivity|].
  apply orb_false_elim in Hsep as [-> Hm]. simpl. auto.
Qed.

(** A name of a directory listing is one real element of a path. *)
Lemma Clean_loop_name rooted out dotdot name :
  valid_name name = true ->
  filepath.Clean_loop rooted false out dotdot name
  = (if (rooted && negb (str_len out =? 1)%nat)
        || (negb rooted && negb (str_len out =? 0)%nat)
     then out ++ String Separator "" else out) ++ name.
Proof.
  intros Hvalid. pose proof (valid_name_free _ Hvalid) as Hfree.
  unfold valid_name in Hvalid.
  apply andb_prop in Hvalid as [[[Hne _]%andb_prop Hdot]%andb_prop Hdotdot].
  destruct name as [|c m]; [discriminate|]. clear Hne.
  simpl in Hfree. apply andb_prop in Hfree as [Hc Hm]. apply negb_true_iff in Hc.
  assert (Hreal :
    filepath.Clean_loop rooted true
      ((if (rooted && negb (str_len out =? 1)%nat)
           || (negb rooted && negb (str_len out =? 0)%nat)
        then out ++ String Separator "" else out) ++ String c "") dotdot m
    = (if (rooted && negb (str_len out =? 1)%nat)
          || (negb rooted && negb (str_len out =? 0)%nat)
       then out ++ String Separator "" else out) ++ String c m).
  { rewrite (Clean_loop_copy _ _ _ Hm), str_app_assoc. reflexivity. }
  cbn [filepath.Clean_loop]. rewrite Hc.
  destruct (Ascii.eqb c filepath.DOT) eqn:Hcd.
  - apply Ascii.eqb_eq in Hcd as ->.
    destruct m as [|c' m'].
    + discriminate.
    + simpl in Hm. apply andb_prop in Hm as [Hc' Hm']. apply negb_true_iff in Hc'.
      cbn [filepath.at_elem_end]. rewrite Hc'. cbn [andb].
      destruct (Ascii.eqb c' filepath.DOT) eqn:Hcd'.
      * apply Ascii.eqb_eq in Hcd' as ->.
        destruct m' as [|c'' m''].
        -- discriminate.
        -- simpl in Hm'. apply andb_prop in Hm' as [Hc'' Hm''].
           apply negb_true_iff in Hc''.
           cbn [filepath.at_elem_end]. rewrite Hc''. cbn [andb].
           exact Hreal.
      * cbn [andb]. exact Hreal.
  - cbn [andb]. destruct m as [|c' m']; exact Hreal.
Qed.

Lemma Clean_loop_cons rooted copying out dotdot c p' :
  filepath.Clean_loop rooted copying out dotdot (String c p')
  = if copying then
      if is_sep c then filepath.Clean_loop rooted false out dotdot p'
      else filepath.Clean_loop rooted true (out ++ String c "") dotdot p'
    else if is_sep c then filepath.Clean_loop rooted false out dotdot p'
    else if Ascii.eqb c filepath.DOT && filepath.at_elem_end p' then
      filepath.Clean_loop rooted false out dotdot p'
    else
      let real_element :=
        filepath.Clean_loop rooted true
          ((if (rooted && negb (str_len out =? 1)%nat)
               || (negb rooted && negb (str_len out =? 0)%nat)
            then out ++ String Separator "" else out) ++ String c "") dotdot p' in
      match p' with
      | String c' p'' =>
          if Ascii.eqb c filepath.DOT && Ascii.eqb c' filepath.DOT
             && filepath.at_elem_end p''
          then
            if (dotdot <? str_len out)%nat then
              filepath.Clean_loop rooted false
                (str_take (filepath.backtrack out (str_len out - 1) dotdot) out)
                dotdot p''
            else if negb rooted then
              filepath.Clean_loop rooted false
                ((if (0 <? str_len out)%nat
                  then out ++ String Separator "" else out) ++ "..")
                (str_len ((if (0 <? str_len out)%nat
                           then out ++ String Separator "" else out) ++ ".."))
                p''
            else filepath.Clean_loop rooted false out dotdot p''
          else real_element
      | EmptyString => real_element
      end.
Proof. reflexivity. Qed.

Lemma at_elem_end_app a b :
  filepath.at_elem_end (a ++ String Separator b)
  = match a with EmptyString => true | String c _ => is_sep c end.
Proof. destruct a; reflexivity. Qed.

(** What the loop of [filepath.Clean] does with the elements before a
    separator does not depend on what follows the separator. *)
Lemma Clean_loop_prefix n :
  forall a, (str_len a <= n)%nat ->
  forall rooted copying out dotdot,
    clean_inv rooted out dotdot ->
    exists out' dotdot',
      clean_inv rooted out' dotdot'
      /\ forall b, filepath.Clean_loop rooted copying out dotdot (a ++ String Separator b)
                   = filepath.Clean_loop rooted false out' dotdot' b.
Proof.
  induction n as [n IH] using lt_wf_ind.
  intros a Hlen rooted copying out dotdot Hinv.
  assert (Hnil : forall cp out0 dd0, clean_inv rooted out0 dd0 ->
            exists out' dotdot',
              clean_inv rooted out' dotdot'
              /\ forall b, filepath.Clean_loop rooted cp out0 dd0 (String Separator b)
                           = filepath.Clean_loop rooted false out' dotdot' b).
  { intros cp out0 dd0 Hinv0. exists out0, dd0. split; [exact Hinv0|].
    intros b. destruct cp; reflexivity. }
  destruct a as [|c a']; [apply Hnil; exact Hinv|].
  unfold str_len in Hlen. simpl in Hlen.
  destruct n as [|n]; [lia|].
  assert (IH' : forall a0, (str_len a0 <= n)%nat ->
            forall cp out0 dd0, clean_inv rooted out0 dd0 ->
            exists out' dotdot',
              clean_inv rooted out' dotdot'
              /\ forall b, filepath.Clean_loop rooted cp out0 dd0 (a0 ++ String Separator b)
                           = filepath.Clean_loop rooted false out' dotdot' b).
  { intros a0 Hlen0 cp out0 dd0 Hinv0. apply (IH n); [lia|exact Hlen0|exact Hinv0]. }
  clear IH.
  assert (Ha' : (str_len a' <= n)%nat) by (unfold str_len; lia).
  set (sepout := if (rooted && negb (str_len out =? 1)%nat)
                    || (negb rooted && negb (str_len out =? 0)%nat)
                 then out ++ String Separator "" else out).
  assert (Hsepout : clean_inv rooted (sepout ++ String c "") dotdot).
  { apply clean_inv_app. unfold sepout.
    destruct ((rooted && negb (str_len out =? 1)%nat)
              || (negb rooted && negb (str_len out =? 0)%nat));
      [apply clean_inv_app|]; exact Hinv. }
  destruct copying.
  - (* inside an element *)
    destruct (is_sep c) eqn:Hc.
    + destruct (IH' a' Ha' false out dotdot Hinv) as (out' & dd' & Hinv' & Heq).
      exists out', dd'. split; [exact Hinv'|]. intros b.
      rewrite <- Heq. simpl. rewrite Hc. reflexivity.
    + destruct (IH' a' Ha' true (out ++ String c "") dotdot (clean_inv_app _ _ _ _ Hinv))
        as (out' & dd' & Hinv' & Heq).
      exists out', dd'. split; [exact Hinv'|]. intros b.
      rewrite <- Heq. simpl. rewrite Hc. reflexivity.
  - destruct (is_sep c) eqn:Hc.
    + (* empty path element *)
      destruct (IH' a' Ha' false out dotdot Hinv) as (out' & dd' & Hinv' & Heq).
      exists out', dd'. split; [exact Hinv'|]. intros b.
      rewrite <- Heq. simpl. rewrite Hc. reflexivity.
    + destruct (IH' a' Ha' true (sepout ++ String c "") dotdot Hsepout)
        as (outr & ddr & Hinvr & Heqr).
      destruct (Ascii.eqb c filepath.DOT) eqn:Hcd.
      * destruct a' as [|c' a''].
        -- (* . element at the end of the prefix *)
           destruct (Hnil false out dotdot Hinv) as (out' & dd' & Hinv' & Heq).
           exists out', dd'. split; [exact Hinv'|]. intros b.
           rewrite <- Heq. simpl. rewrite Hc, Hcd. reflexivity.
        -- destruct (is_sep c') eqn:Hc'.
           ++ (* . element *)
              destruct (IH' (String c' a'') Ha' false out dotdot Hinv)
                as (out' & dd' & Hinv' & Heq).
              exists out', dd'. split; [exact Hinv'|]. intros b.
              rewrite <- Heq.
              change (String c (String c' a'') ++ String Separator b)
                with (String c (String c' a'' ++ String Separator b)).
              rewrite Clean_loop_cons, Hc, Hcd, at_elem_end_app, Hc'. reflexivity.
           ++ assert (Ha'' : (str_len a'' <= n)%nat)
                by (unfold str_len in *; simpl in Ha'; lia).
              destruct (Ascii.eqb c' filepath.DOT
                        && match a'' with EmptyString => true | String x _ => is_sep x end)
                eqn:Hdd.
              ** (* .. element *)
                 assert (Hstate : exists out1 dd1,
                   clean_inv rooted out1 dd1
                   /\ forall p, filepath.Clean_loop rooted false out dotdot
                                  (String c (String c' p))
                                = if filepath.at_elem_end p
                                  then filepath.Clean_loop rooted false out1 dd1 p
                                  else filepath.Clean_loop rooted true
                                         (sepout ++ String c "") dotdot (String c' p)).
                 { apply andb_prop in Hdd as [Hcd' _].
                   destruct (dotdot <? str_len out)%nat eqn:Hlt.
                   - eexists _, _. split; [apply (clean_inv_backtrack _ _ _ Hinv Hlt)|].
                     intros p. rewrite Clean_loop_cons, Hc, Hcd, Hcd', Hlt.
                     cbn [filepath.at_elem_end andb]. rewrite Hc'. cbv zeta.
                     destruct (filepath.at_elem_end p); reflexivity.
                   - destruct rooted.
                     + exists out, dotdot. split; [exact Hinv|].
                       intros p. rewrite Clean_loop_cons, Hc, Hcd, Hcd', Hlt.
                       cbn [filepath.at_elem_end andb negb]. rewrite Hc'. cbv zeta.
                       destruct (filepath.at_elem_end p); reflexivity.
                     + eexists _, _. split; [apply clean_inv_unrooted|].
                       intros p. rewrite Clean_loop_cons, Hc, Hcd, Hcd', Hlt.
                       cbn [filepath.at_elem_end andb negb]. rewrite Hc'. cbv zeta.
                       destruct (filepath.at_elem_end p); reflexivity. }
                 destruct Hstate as (out1 & dd1 & Hinv1 & Hstep).
                 destruct (IH' a'' Ha'' false out1 dd1 Hinv1) as (out' & dd' & Hinv' & Heq).
                 exists out', dd'. split; [exact Hinv'|]. intros b.
                 rewrite <- Heq.
                 change (String c (String c' a'') ++ String Separator b)
                   with (String c (String c' (a'' ++ String Separator b))).
                 rewrite Hstep, at_elem_end_app.
                 apply andb_prop in Hdd as [_ ->]. reflexivity.
              ** (* a real element that starts with a dot *)
                 exists outr, ddr. split; [exact Hinvr|]. intros b.
                 rewrite <- Heqr.
                 change (String c (String c' a'') ++ String Separator b)
                   with (String c (String c' (a'' ++ String Separator b))).
                 rewrite Clean_loop_cons, Hc, Hcd.
                 cbn [filepath.at_elem_end]. rewrite Hc'. cbn [andb]. cbv zeta.
                 rewrite at_elem_end_app.
                 destruct (Ascii.eqb c' filepath.DOT); [|reflexivity].
                 simpl in Hdd. rewrite Hdd. reflexivity.
      * (* a real element *)
        exists outr, ddr. split; [exact Hinvr|]. intros b.
        rewrite <- Heqr.
        destruct a' as [|c' a'']; simpl; rewrite Hc, Hcd; reflexivity.
Qed.

Lemma valid_name_not_empty name : valid_name name = true -> is_empty name = false.
Proof.
  unfold valid_name. intros [[[Hne _]%andb_prop _]%andb_prop _]%andb_prop.
  apply negb_true_iff. exact Hne.
Qed.

Lemma is_empty_app_r a b : is_empty b = false -> is_empty (a ++ b) = false.
Proof. destruct a, b; simpl; auto. Qed.

Lemma clean_inv_one out dotdot :
  clean_inv true out dotdot -> (str_len out =? 1)%nat = true ->
  out = String Separator "".
Proof.
  intros Hinv Hlen. destruct (Hinv eq_refl) as [Hsep _].
  destruct out as [|c [|c' out]]; try discriminate.
  simpl in Hsep. apply Ascii.eqb_eq in Hsep as ->. reflexivity.
Qed.

Lemma Clean_cons c rest :
  filepath.Clean (String c rest)
  = if is_empty (if is_sep c
                 then filepath.Clean_loop true false (String Separator "") 1 rest
                 else filepath.Clean_loop false false "" 0 (String c rest))
    then "."
    else if is_sep c
         then filepath.Clean_loop true false (String Separator "") 1 rest
         else filepath.Clean_loop false false "" 0 (String c rest).
Proof. reflexivity. Qed.

(** [filepath.Join] puts a valid name last, after a separator if anything
    precedes it. *)
Lemma Join_valid_name dir name :
  valid_name name = true ->
  exists pre, filepath.Join dir name = pre ++ name
              /\ (pre = "" \/ exists pre', pre = pre' ++ String Separator "").
Proof.
  intros Hvalid. pose proof (valid_name_not_empty _ Hvalid) as Hne.
  assert (Hshape : forall rooted out dotdot,
            clean_inv rooted out dotdot ->
            exists pre, filepath.Clean_loop rooted false out dotdot name = pre ++ name
                        /\ (pre = "" \/ exists pre', pre = pre' ++ String Separator "")).
  { intros rooted out dotdot Hinv. rewrite (Clean_loop_name _ _ _ _ Hvalid).
    eexists. split; [reflexivity|].
    destruct rooted; simpl.
    - destruct (str_len out =? 1)%nat eqn:Hone; simpl.
      + right. exists "". rewrite (clean_inv_one _ _ Hinv Hone). reflexivity.
      + right. exists out. reflexivity.
    - destruct (str_len out =? 0)%nat eqn:Hzero; simpl.
      + left. destruct out; [reflexivity|discriminate].
      + right. exists out. reflexivity. }
  unfold filepath.Join. destruct dir as [|c dir]; cbn [is_empty negb].
  - rewrite Hne. cbn [negb].
    destruct name as [|c name]; [discriminate|]. rewrite Clean_cons.
    assert (Hc : is_sep c = false).
    { pose proof (valid_name_free _ Hvalid) as Hfree. simpl in Hfree.
      apply andb_prop in Hfree as [Hc _]. apply negb_true_iff. exact Hc. }
    rewrite Hc.
    destruct (Hshape false "" 0%nat (clean_inv_unrooted _ _)) as (pre & -> & Hpre).
    rewrite is_empty_app_r by reflexivity. eauto.
  - change (String c dir ++ String Separator name)
      with (String c (dir ++ String Separator name)).
    rewrite Clean_cons. destruct (is_sep c) eqn:Hc.
    + destruct (Clean_loop_prefix (str_len dir) dir (le_n _) true false
                  (String Separator "") 1%nat) as (out' & dd' & Hinv' & Heq).
      { intros _. split; [reflexivity|lia]. }
      rewrite Heq.
      destruct (Hshape true out' dd' Hinv') as (pre & -> & Hpre).
      rewrite is_empty_app_r by exact Hne. eauto.
    + destruct (Clean_loop_prefix (Datatypes.S (str_len dir)) (String c dir) (le_n _)
                  false false "" 0%nat (clean_inv_unrooted _ _))
        as (out' & dd' & Hinv' & Heq).
      change (String c (dir ++ String Separator name))
        with (String c dir ++ String Separator name).
      rewrite Heq.
      destruct (Hshape false out' dd' Hinv') as (pre & -> & Hpre).
      rewrite is_empty_app_r by exact Hne. eauto.
Qed.

Lemma last_element_name pre name :
  free_of is_sep name = true ->
  pre = "" \/ (exists pre', pre = pre' ++ String Separator "") ->
  last_element (pre ++ name) = name.
Proof.
  intros Hfree Hpre. unfold last_element.
  rewrite last_index_app, (last_index_free _ _ Hfree).
  destruct Hpre as [->|[pre' ->]]; [reflexivity|].
  rewrite (last_index_here _ pre' "" eq_refl).
  replace (Datatypes.S (str_len pre')) with (str_len (pre' ++ String Separator ""))
    by (rewrite str_len_app; unfold str_len; simpl; lia).
  apply str_drop_app.
Qed.

(** The path that the walk builds for an entry ends with its name. *)
Lemma last_element_Join dir name :
  valid_name name = true -> last_element (filepath.Join dir name) = name.
Proof.
  intros Hvalid. destruct (Join_valid_name dir name Hvalid) as (pre & -> & Hpre).
  apply last_element_name; [apply valid_name_free; exact Hvalid|exact Hpre].
Qed.

(** ** [os.basename] *)

Lemma strip_no_trailing_sep a c :
  is_sep c = false ->
  os.strip (a ++ String c "") (Datatypes.S (str_len a)) = Datatypes.S (str_len a).
Proof.
  intros Hc. destruct a as [|x a]; [reflexivity|].
  change (str_len (String x a)) with (Datatypes.S (str_len a)).
  cbn [os.strip].
  change (Datatypes.S (str_len a)) with (str_len (String x a)).
  rewrite str_at_app, Hc. reflexivity.
Qed.

Lemma after_slash_step a c b :
  os.after_slash (a ++ String c b) (Datatypes.S (str_len a))
  = if is_sep c then str_drop (Datatypes.S (str_len a)) (a ++ String c b)
    else os.after_slash (a ++ String c b) (str_len a).
Proof. cbn [os.after_slash]. rewrite str_at_app. reflexivity. Qed.

Lemma after_slash_free m :
  free_of is_sep m = true ->
  forall a b, os.after_slash (a ++ m ++ b) (str_len a + str_len m)
              = os.after_slash (a ++ m ++ b) (str_len a).
Proof.
  induction m as [|c m IH]; intros Hfree a b.
  - rewrite Nat.add_0_r. reflexivity.
  - simpl in Hfree. apply andb_prop in Hfree as [Hc Hm]. apply negb_true_iff in Hc.
    change (String c m ++ b) with (String c (m ++ b)).
    rewrite str_app_snoc.
    replace (str_len a + str_len (String c m))%nat
      with (str_len (a ++ String c "") + str_len m)%nat
      by (rewrite str_len_app; unfold str_len; simpl; lia).
    rewrite (IH Hm). rewrite <- str_app_snoc.
    replace (str_len (a ++ String c "")) with (Datatypes.S (str_len a))
      by (rewrite str_len_app; unfold str_len; simpl; lia).
    rewrite after_slash_step, Hc. reflexivity.
Qed.

Lemma after_slash_zero name : os.after_slash name 0 = name.
Proof. reflexivity. Qed.

(** [os.basename] of a name without a trailing separator is its last
    element. *)
Lemma basename_last_element root :
  is_empty root = false -> ends_with_sep root = false ->
  os.basename root = last_element root.
Proof.
  intros Hne Hend.
  destruct (str_snoc_cases root) as [->|(a & c & ->)]; [discriminate|].
  assert (Hc : is_sep c = false).
  { unfold ends_with_sep in Hend. rewrite str_len_app in Hend.
    unfold str_len at 2 in Hend. simpl in Hend.
    replace (str_len a + 1 - 1)%nat with (str_len a) in Hend by lia.
    assert (Hget : String.get (str_len a) (a ++ String c "") = Some c).
    { clear. induction a as [|x a IH]; [reflexivity|exact IH]. }
    rewrite Hget in Hend. exact Hend. }
  assert (Hlen : str_len (a ++ String c "") = Datatypes.S (str_len a)).
  { rewrite str_len_app. unfold str_len. simpl. lia. }
  unfold os.basename. rewrite Hlen, (strip_no_trailing_sep a c Hc).
  rewrite <- Hlen, str_take_all, Hlen.
  replace (Datatypes.S (str_len a) - 1)%nat with (str_len a) by lia.
  unfold last_element. rewrite last_index_app. simpl.
  change (c =? Separator)%char with (is_sep c). rewrite Hc.
  destruct (last_byte_with is_sep a) as [Hfree|(a1 & x & a2 & -> & Hx & Ha2)].
  - rewrite (last_index_free _ _ Hfree).
    pose proof (after_slash_free a Hfree "" (String c "")) as H. simpl in H.
    rewrite H. reflexivity.
  - apply Ascii.eqb_eq in Hx as ->.
    rewrite (last_index_here _ a1 a2 Ha2).
    rewrite str_app_assoc.
    change (String Separator a2 ++ String c "") with (String Separator (a2 ++ String c "")).
    rewrite (str_app_snoc a1 Separator).
    replace (str_len (a1 ++ String Separator a2))
      with (str_len (a1 ++ String Separator "") + str_len a2)%nat
      by (rewrite !str_len_app; unfold str_len; simpl; lia).
    rewrite (after_slash_free a2 Ha2).
    rewrite <- str_app_snoc.
    replace (str_len (a1 ++ String Separator "")) with (Datatypes.S (str_len a1))
      by (rewrite str_len_app; unfold str_len; simpl; lia).
    rewrite after_slash_step. reflexivity.
Qed.

(** ** The files of a well-formed tree *)

Lemma files_of_last_element node :
  wf_node node = true ->
  forall path name ancestors,
    (node = File -> last_element path = name) ->
    Forall (fun f => last_element (f_path f) = f_name f)
           (files_of path name ancestors node).
Proof.
  induction node as [|entries rderr IH] using Node_induction;
    intros Hwf path name ancestors Hroot.
  - constructor; [|constructor]. simpl. auto.
  - cbn [files_of]. cbn [wf_node] in Hwf. rewrite forallb_forall in Hwf.
    rewrite List.Forall_forall in IH. rewrite List.Forall_forall.
    intros f (e & He & Hf)%in_flat_map.
    specialize (Hwf e He). apply andb_prop in Hwf as [Hname Hnode].
    specialize (IH e He Hnode (filepath.Join path (fst e)) (fst e)
                   (ancestors ++ [name])%list (fun _ => last_element_Join _ _ Hname)).
    rewrite List.Forall_forall in IH. apply IH. exact Hf.
Qed.

Lemma tree_files_last_element root lstat :
  wf_tree root lstat = true ->
  Forall (fun f => last_element (f_path f) = f_name f) (tree_files root lstat).
Proof.
  destruct lstat as [node|e]; [|constructor].
  intros Hwf. unfold tree_files. apply files_of_last_element.
  - destruct node; [reflexivity|exact Hwf].
  - intros ->. simpl in Hwf. apply andb_prop in Hwf as [Hne Hend].
    symmetry. apply basename_last_element; apply negb_true_iff; assumption.
Qed.

Lemma accepted_path_accepted s f :
  last_element (f_path f) = f_name f -> accepted_path s f = accepted s f.
Proof.
  intros Hname. unfold accepted_path, accepted, file_passes, ext_allowed, pattern_free.
  rewrite Ext_spec, Hname. reflexivity.
Qed.

Lemma filter_Forall_eq {A} (p q : A -> bool) l :
  Forall (fun x => p x = q x) l -> List.filter p l = List.filter q l.
Proof.
  induction 1 as [|x l Hx _ IH]; simpl; [reflexivity|]. rewrite Hx, IH. reflexivity.
Qed.

(** The paths that a walk without errors sends are the paths of the
    accepted files of the tree, in the order of the listings. *)
Lemma dispatchable_accepted s lstat :
  wf_tree (Root s) lstat = true ->
  match lstat with
  | Ok node => dispatchable s (Root s) (os.basename (Root s)) node
  | Err _ => []
  end = map f_path (List.filter (accepted s) (tree_files (Root s) lstat)).
Proof.
  intros Hwf. pose proof (tree_files_last_element _ _ Hwf) as Hnames.
  rewrite <- (filter_Forall_eq (accepted_path s)).
  - destruct lstat as [node|e]; [|reflexivity].
    apply (dispatchable_files s node (Root s) (os.basename (Root s)) []). reflexivity.
  - eapply Forall_impl; [exact Hnames|]. intros f Hf. apply accepted_path_accepted. exact Hf.
Qed.

Lemma scan_walk_sent s lstat :
  wf_tree (Root s) lstat = true ->
  walk_errors s lstat = [] ->
  scan_walk s lstat
  = (map f_path (List.filter (accepted s) (tree_files (Root s) lstat)), None).
Proof.
  intros Hwf Herrs.
  destruct (scan_walk_result s lstat) as (new & Hw & _ & Hall).
  rewrite Hw, Herrs, (Hall Herrs), (dispatchable_accepted s lstat Hwf). reflexivity.
Qed.

(** ** The files reached before the first traversal error *)

Section Reached.

Variable s : FileScanner.

#[local] Abbreviation clear_of_ignored :=
  (forallb (fun d => negb (map_index (IgnoredNames s) d))).

#[local] Abbreviation children_before_error path ancestors :=
  (fold_right
     (fun e rest =>
        and_then (files_before_error s (filepath.Join path (fst e)) (fst e)
                    ancestors (snd e)) rest)
     ([], true)).

Lemma files_before_error_Dir path name ancestors entries rderr :
  files_before_error s path name ancestors (Dir entries rderr)
  = if map_index (IgnoredNames s) name then ([], true)
    else match rderr with
         | Some _ => ([], false)
         | None => children_before_error path (ancestors ++ [name])%list entries
         end.
Proof. reflexivity. Qed.

(** The walk reaches every file that it does not ignore exactly when it
    meets no traversal error. *)
Lemma files_before_error_complete node :
  forall path name ancestors,
    snd (files_before_error s path name ancestors node) = true
    <-> dir_errors s name node = [].
Proof.
  induction node as [|entries rderr IH] using Node_induction;
    intros path name ancestors.
  - simpl. tauto.
  - rewrite files_before_error_Dir. cbn [dir_errors].
    destruct (map_index (IgnoredNames s) name); [simpl; tauto|].
    destruct rderr as [e|]; [simpl; split; discriminate|]. simpl app.
    induction IH as [|[name1 node1] es Hnode _ IHes]; [simpl; tauto|].
    cbn [fold_right flat_map fst snd]. unfold and_then at 1.
    specialize (Hnode (filepath.Join path name1) name1 (ancestors ++ [name])%list).
    cbn [snd] in Hnode.
    destruct (snd (files_before_error s (filepath.Join path name1) name1
                     (ancestors ++ [name]) node1)) eqn:Hfirst; cbn [snd].
    + rewrite (proj1 Hnode eq_refl). simpl. exact IHes.
    + split; [discriminate|]. intros Hnil.
      apply app_eq_nil in Hnil as [Hnil _]. apply Hnode in Hnil. discriminate.
Qed.

(** What the walk sends: the paths of the files it reaches that pass its
    tests. *)
Lemma files_before_error_sent node :
  forall path name ancestors sent,
    clear_of_ignored ancestors = true ->
    fst (walkDir (walkFn s) path name node sent)
    = (sent ++ map f_path (List.filter (accepted_path s)
                             (fst (files_before_error s path name ancestors node))))%list.
Proof.
  induction node as [|entries rderr IH] using Node_induction;
    intros path name ancestors sent Hclear.
  - rewrite walkDir_File. cbn [walkFn IsDir Name files_before_error fst List.filter].
    unfold accepted_path, not_ignored, file_passes. cbn [f_path f_name f_ancestors].
    rewrite Hclear, andb_true_r.
    destruct (map_index (AllowedExts s) (filepath.Ext path)); simpl.
    + destruct (matches_any (Patterns s) name); simpl;
        [rewrite app_nil_r|]; reflexivity.
    + rewrite app_nil_r. reflexivity.
  - rewrite walkDir_Dir, files_before_error_Dir. cbn [walkFn IsDir Name].
    destruct (map_index (IgnoredNames s) name) eqn:Hname; simpl.
    { rewrite app_nil_r. reflexivity. }
    destruct rderr as [e|]; simpl.
    { rewrite app_nil_r. reflexivity. }
    assert (Hclear' : clear_of_ignored (ancestors ++ [name]) = true).
    { rewrite forallb_app, Hclear. simpl. rewrite Hname. reflexivity. }
    clear Hclear Hname. revert sent.
    induction IH as [|[name1 node1] es Hnode _ IHes]; intros sent.
    + simpl. rewrite app_nil_r. reflexivity.
    + cbn [walk_children fold_right fst snd].
      specialize (Hnode (filepath.Join path name1) name1 (ancestors ++ [name])%list
                        sent Hclear').
      cbn [snd] in Hnode.
      pose proof (files_before_error_complete node1 (filepath.Join path name1) name1
                    (ancestors ++ [name])%list) as Hcomplete.
      destruct (walkDir_walkFn s node1 (filepath.Join path name1) name1 sent)
        as (new & Hw & _).
      rewrite Hw in Hnode |- *. cbn [fst] in Hnode. unfold and_then at 1.
      destruct (dir_errors s name1 node1) as [|e errs] eqn:Herrs; simpl.
      * rewrite (proj2 Hcomplete eq_refl). cbn [fst].
        rewrite IHes, Hnode, List.filter_app, map_app, app_assoc. reflexivity.
      * destruct (snd (files_before_error s (filepath.Join path name1) name1
                         (ancestors ++ [name]) node1)) eqn:Hfirst.
        { pose proof (proj1 Hcomplete eq_refl). discriminate. }
        cbn [fst]. exact Hnode.
Qed.

Lemma files_beneath_ignored_dropped node :
  forall path name ancestors,
    clear_of_ignored ancestors = false ->
    List.filter (not_ignored s) (files_of path name ancestors node) = [].
Proof.
  induction node as [|entries rderr IH] using Node_induction;
    intros path name ancestors Hign.
  - simpl. unfold not_ignored. simpl. rewrite Hign. reflexivity.
  - cbn [files_of]. rewrite filter_flat_map. apply flat_map_nil.
    eapply Forall_impl; [exact IH|]. intros [name1 node1] Hnode. simpl in *.
    apply Hnode. rewrite forallb_app, Hign. reflexivity.
Qed.

(** The files reached are the first, in the order of the walk, of the
    files of the tree that lie under no ignored directory, and all of them
    when the walk meets no error. *)
Lemma files_before_error_prefix node :
  forall path name ancestors,
    clear_of_ignored ancestors = true ->
    exists rest,
      List.filter (not_ignored s) (files_of path name ancestors node)
      = (fst (files_before_error s path name ancestors node) ++ rest)%list
      /\ (snd (files_before_error s path name ancestors node) = true -> rest = []).
Proof.
  induction node as [|entries rderr IH] using Node_induction;
    intros path name ancestors Hclear.
  - exists []. simpl. unfold not_ignored. simpl. rewrite Hclear. auto.
  - rewrite files_before_error_Dir. cbn [files_of].
    destruct (map_index (IgnoredNames s) name) eqn:Hname.
    { exists []. split; [|reflexivity]. rewrite filter_flat_map. apply flat_map_nil.
      rewrite Forall_forall. intros [name1 node1] _. simpl.
      apply files_beneath_ignored_dropped.
      rewrite forallb_app. simpl. rewrite Hname. simpl. apply andb_false_r. }
    destruct rderr as [e|].
    { eexists. split; [reflexivity|discriminate]. }
    assert (Hclear' : clear_of_ignored (ancestors ++ [name]) = true).
    { rewrite forallb_app, Hclear. simpl. rewrite Hname. reflexivity. }
    clear Hclear Hname.
    induction IH as [|[name1 node1] es Hnode _ IHes].
    + exists []. simpl. auto.
    + cbn [flat_map fold_right fst snd]. rewrite List.filter_app.
      destruct (Hnode (filepath.Join path name1) name1 (ancestors ++ [name])%list Hclear')
        as (rest1 & Hpre1 & Hall1).
      cbn [snd] in Hpre1, Hall1. destruct IHes as (rest2 & Hpre2 & Hall2).
      rewrite Hpre1, Hpre2.
      set (first := files_before_error s (filepath.Join path name1) name1
                      (ancestors ++ [name])%list node1) in *.
      set (others := children_before_error path (ancestors ++ [name])%list es) in *.
      unfold and_then. destruct (snd first); cbn [fst snd].
      * rewrite (Hall1 eq_refl), app_nil_r. exists rest2.
        rewrite app_assoc. auto.
      * eexists. rewrite <- app_assoc. split; [reflexivity|discriminate].
Qed.

End Reached.

(** The files that the walk of the scan reaches are the first of the
    files of the tree under no ignored directory, and all of them when the
    walk meets no traversal error. *)
Lemma reached_files_prefix s lstat :
  exists rest,
    List.filter (not_ignored s) (tree_files (Root s) lstat)
    = (reached_files s lstat ++ rest)%list
    /\ (walk_errors s lstat = [] -> rest = []).
Proof.
  destruct lstat as [node|e]; simpl.
  - destruct (files_before_error_prefix s node (Root s) (os.basename (Root s)) []
                eq_refl) as (rest & Hpre & Hall).
    exists rest. split; [exact Hpre|]. intros Herrs. apply Hall.
    apply files_before_error_complete. exact Herrs.
  - exists []. auto.
Qed.

Lemma reached_files_In s lstat f :
  In f (reached_files s lstat) ->
  In f (tree_files (Root s) lstat) /\ not_ignored s f = true.
Proof.
  intros Hf. destruct (reached_files_prefix s lstat) as (rest & Hpre & _).
  apply filter_In. rewrite Hpre. apply in_or_app. left. exact Hf.
Qed.

(** The walk sends the paths of the accepted files that it reaches
    before its first traversal error. *)
Lemma scan_walk_reached s lstat :
  wf_tree (Root s) lstat = true ->
  fst (scan_walk s lstat)
  = map f_path (List.filter (accepted s) (reached_files s lstat)).
Proof.
  intros Hwf.
  assert (Hsame : List.filter (accepted s) (reached_files s lstat)
                  = List.filter (accepted_path s) (reached_files s lstat)).
  { apply filter_ext_in. intros f Hf. symmetry. apply accepted_path_accepted.
    pose proof (tree_files_last_element _ _ Hwf) as Hnames.
    rewrite List.Forall_forall in Hnames. apply Hnames.
    apply (reached_files_In s lstat f Hf). }
  rewrite Hsame. unfold scan_walk, WalkDir, reached_files.
  destruct lstat as [node|e]; simpl.
  - pose proof (files_before_error_sent s node (Root s) (os.basename (Root s)) [] []
                  eq_refl) as Hsent.
    destruct (walkDir (walkFn s) (Root s) (os.basename (Root s)) node [])
      as [sent [err|]]; simpl in *.
    + destruct (is_SkipDir err || is_SkipAll err); exact Hsent.
    + exact Hsent.
  - reflexivity.
Qed.

(** ** Counting the calls *)

Section Counting.

Variable ReadFile : string -> result string.

Lemma calls_for_app p cs1 cs2 :
  calls_for p (cs1 ++ cs2) = (calls_for p cs1 + calls_for p cs2)%nat.
Proof. unfold calls_for. rewrite List.filter_app, length_app. reflexivity. Qed.

Lemma calls_for_deliveries p sent :
  calls_for p (deliveries ReadFile sent)
  = match ReadFile p with
    | Ok _ => sends_of p sent
    | Err _ => 0%nat
    end.
Proof.
  induction sent as [|q sent IH].
  - destruct (ReadFile p); reflexivity.
  - change (deliveries ReadFile (q :: sent))
      with (deliver ReadFile q ++ deliveries ReadFile sent)%list.
    rewrite calls_for_app, IH. unfold deliver, sends_of. simpl.
    destruct (String.eqb q p) eqn:Hq.
    + apply String.eqb_eq in Hq as ->.
      destruct (ReadFile p); unfold calls_for; simpl; [|reflexivity].
      rewrite String.eqb_refl. reflexivity.
    + destruct (ReadFile q); unfold calls_for; simpl.
      * rewrite Hq. destruct (ReadFile p); reflexivity.
      * destruct (ReadFile p); reflexivity.
Qed.

Lemma calls_for_Permutation p cs1 cs2 :
  cs1 ≡ₚ cs2 -> calls_for p cs1 = calls_for p cs2.
Proof.
  intros Hperm. unfold calls_for. apply Permutation_length.
  induction Hperm as [|x l l' _ IH|x y l|l l' l'' _ IH1 _ IH2]; simpl.
  - constructor.
  - destruct (String.eqb (Path x) p); [constructor|]; exact IH.
  - destruct (String.eqb (Path x) p), (String.eqb (Path y) p);
      try reflexivity. constructor.
  - etransitivity; eassumption.
Qed.

Lemma ScanForAI_err s lstat workerCount cs err :
  ScanForAI ReadFile s lstat workerCount cs err -> err = snd (scan_walk s lstat).
Proof.
  intros (st & Hrtc & Hmain & _).
  pose proof (invariant_rtc ReadFile _ _ _ _ _
                (invariant_start ReadFile s lstat workerCount) Hrtc) as Hinv.
  destruct Hinv as [Herr _ _ _ _ _]. rewrite Hmain in Herr. simpl in Herr. congruence.
Qed.

End Counting.

(** ** The models on examples *)

Example TrimSpace_example : Strings.TrimSpace "  *.log  " = "*.log".
Proof. reflexivity. Qed.

Example ScanLines_example :
  bufio.ScanLines_tokens
    (String "a" (String LF (String "b" (String CR (String LF (String LF "c"))))))
  = ["a"; "b"; ""; "c"].
Proof. reflexivity. Qed.

Example Ext_examples :
  map filepath.Ext ["a.go"; "a.b/c"; "x/y.tar.gz"; ".gitignore"; "Makefile"]
  = [".go"; ""; ".gz"; ".gitignore"; ""].
Proof. reflexivity. Qed.

Example Clean_examples :
  map filepath.Clean [""; "a//b/../c/."; "/../a"; "../../x/.."; "a/.."; "./a.go"]
  = ["."; "a/c"; "/a"; "../.."; "."; "a.go"].
Proof. reflexivity. Qed.

Example Join_examples :
  map (fun p => filepath.Join (fst p) (snd p))
      [(".", "a.go"); ("sub/", "x"); ("/", "x"); ("a/b", "c.go")]
  = ["a.go"; "sub/x"; "/x"; "a/b/c.go"].
Proof. reflexivity. Qed.

Example Match_examples :
  map (fun p => filepath.Match (fst p) (snd p))
      [("*.go", "a.go"); ("*.go", "a.txt"); ("[a-c]?", "bx"); ("[", "a"); ("a[", "b")]
  = [(true, None); (false, None); (true, None);
     (false, Some ErrBadPattern); (false, Some ErrBadPattern)].
Proof. vm_compute. reflexivity. Qed.

(** The example of the specification: in the tree
    [{a.go, b.txt, sub/.git/c.go, sub/d.go}] with the extension [.go]
    allowed, the walk sends [a.go] and [sub/d.go]. *)
Example scan_walk_example :
  scan_walk example_scanner (Ok example_tree) = (["a.go"; "sub/d.go"], None).
Proof. vm_compute. reflexivity. Qed.

Example scan_walk_denied :
  scan_walk example_scanner (Ok denied_tree)
  = ([], Some (OsError (example_error "open" "a"))).
Proof. vm_compute. reflexivity. Qed.

(** Without a worker nothing is received: when the channel has room for
    every send, the scan returns without a call of the callback. *)
Example no_worker_no_call :
  ScanForAI read_all example_scanner (Ok example_tree) 0 [] None.
Proof.
  exists {| main := Returned None; chan := ["a.go"; "sub/d.go"]; closed := true;
            workers := []; calls := [] |}.
  split; [|split; reflexivity].
  replace (start example_scanner (Ok example_tree) 0)
    with {| main := Walking ["a.go"; "sub/d.go"] None; chan := []; closed := false;
            workers := []; calls := [] |}
    by (vm_compute; reflexivity).
  eapply rtc_l; [apply step_send; unfold chan_cap; simpl; lia|].
  eapply rtc_l; [apply step_send; unfold chan_cap; simpl; lia|].
  eapply rtc_l; [apply step_close|].
  eapply rtc_l; [apply step_wait; constructor|].
  apply rtc_refl.
Qed.

(** A run with one worker on the example of the specification: the two
    sends, the close, then the worker receives, reads and delivers each
    path and leaves. *)
Example one_worker_run :
  ScanForAI read_all example_scanner (Ok example_tree) 1
            [{| Path := "a.go"; Content := "package main" |};
             {| Path := "sub/d.go"; Content := "package main" |}]
            None.
Proof.
  exists {| main := Returned None; chan := []; closed := true;
            workers := [Exited];
            calls := [{| Path := "a.go"; Content := "package main" |};
                      {| Path := "sub/d.go"; Content := "package main" |}] |}.
  split; [|split; reflexivity].
  replace (start example_scanner (Ok example_tree) 1)
    with {| main := Walking ["a.go"; "sub/d.go"] None; chan := []; closed := false;
            workers := [Receiving]; calls := [] |}
    by (vm_compute; reflexivity).
  eapply rtc_l; [apply step_send; unfold chan_cap; simpl; lia|]. simpl.
  eapply rtc_l; [apply step_send; unfold chan_cap; simpl; lia|]. simpl.
  eapply rtc_l; [apply step_close|].
  eapply rtc_l; [eapply (step_recv _ _ 0%nat); reflexivity|]. simpl.
  eapply rtc_l; [eapply (step_read_ok _ _ 0%nat); reflexivity|].
  unfold with_worker. simpl.
  eapply rtc_l; [eapply (step_call _ _ 0%nat); reflexivity|]. simpl.
  eapply rtc_l; [eapply (step_recv _ _ 0%nat); reflexivity|]. simpl.
  eapply rtc_l; [eapply (step_read_ok _ _ 0%nat); reflexivity|].
  unfold with_worker. simpl.
  eapply rtc_l; [eapply (step_call _ _ 0%nat); reflexivity|]. simpl.
  eapply rtc_l; [eapply (step_exit _ _ 0%nat); reflexivity|].
  unfold with_worker. simpl.
  eapply rtc_l; [apply step_wait; repeat constructor|].
  apply rtc_refl.
Qed.

(** A run on the tree with a directory that cannot be listed: nothing is
    sent and the scan returns the error. *)
Example denied_run :
  ScanForAI read_all example_scanner (Ok denied_tree) 1 []
            (Some (OsError (example_error "open" "a"))).
Proof.
  exists {| main := Returned (Some (OsError (example_error "open" "a")));
            chan := []; closed := true; workers := [Exited]; calls := [] |}.
  split; [|split; reflexivity].
  replace (start example_scanner (Ok denied_tree) 1)
    with {| main := Walking [] (Some (OsError (example_error "open" "a")));
            chan := []; closed := false; workers := [Receiving]; calls := [] |}
    by (vm_compute; reflexivity).
  eapply rtc_l; [apply step_close|].
  eapply rtc_l; [eapply (step_exit _ _ 0%nat); reflexivity|].
  unfold with_worker. simpl.
  eapply rtc_l; [apply step_wait; repeat constructor|].
  apply rtc_refl.
Qed.

Lemma rtc_app {A} (R : relation A) x y z : rtc R x y -> rtc R y z -> rtc R x z.
Proof.
  induction 1 as [|a b c Hab _ IH]; intros Hrest; [exact Hrest|].
  eapply rtc_l; [exact Hab|apply IH; exact Hrest].
Qed.

(** A run with two workers in which [a.go] cannot be read: up to the
    moment when the first worker has received [a.go] and the second path
    is in the channel. *)
Example failed_read_run_mid :
  rtc (step read_but_first) (start example_scanner (Ok example_tree) 2)
      example_mid_state.
Proof.
  replace (start example_scanner (Ok example_tree) 2)
    with {| main := Walking ["a.go"; "sub/d.go"] None; chan := []; closed := false;
            workers := [Receiving; Receiving]; calls := [] |}
    by (vm_compute; reflexivity).
  eapply rtc_l; [apply step_send; unfold chan_cap; simpl; lia|]. simpl.
  eapply rtc_l; [eapply (step_recv _ _ 0%nat); reflexivity|]. simpl.
  eapply rtc_l; [apply step_send; unfold chan_cap; simpl; lia|]. simpl.
  apply rtc_refl.
Qed.

(** The rest of that run: the read of [a.go] fails and its worker goes
    back to the channel, the other worker delivers [sub/d.go], and the scan
    returns nil. *)
Example failed_read_run_end :
  rtc (step read_but_first) example_mid_state example_end_state.
Proof.
  unfold example_mid_state.
  eapply rtc_l; [eapply (step_read_err _ _ 0%nat); reflexivity|].
  unfold with_worker. simpl.
  eapply rtc_l; [eapply (step_recv _ _ 1%nat); reflexivity|]. simpl.
  eapply rtc_l; [apply step_close|].
  eapply rtc_l; [eapply (step_exit _ _ 0%nat); reflexivity|].
  unfold with_worker. simpl.
  eapply rtc_l; [eapply (step_read_ok _ _ 1%nat); reflexivity|].
  unfold with_worker. simpl.
  eapply rtc_l; [eapply (step_call _ _ 1%nat); reflexivity|]. simpl.
  eapply rtc_l; [eapply (step_exit _ _ 1%nat); reflexivity|].
  unfold with_worker. simpl.
  eapply rtc_l; [apply step_wait; repeat constructor|].
  apply rtc_refl.
Qed.

(** * The claims *)

(** ** Construction *)

(** C9. For every root, ignore-file and extensions, the ignored directory
    names of the scanner that [NewScanner] builds are exactly [.git] and
    [node_modules]: no argument adds to them or removes from them. *)
Theorem NewScanner_IgnoredNames os_Open root ignoreFile extensions :
  IgnoredNames (fst (NewScanner os_Open root ignoreFile extensions))
  = <[".git" := true]> (<["node_modules" := true]> ∅)
  /\ dom (IgnoredNames (fst (NewScanner os_Open root ignoreFile extensions)))
     = ({[ ".git"; "node_modules" ]} : gset string)
  /\ forall name,
       map_index (IgnoredNames (fst (NewScanner os_Open root ignoreFile extensions))) name
       = true
       <-> name = ".git" \/ name = "node_modules".
Proof.
  assert (Hmap : IgnoredNames (fst (NewScanner os_Open root ignoreFile extensions))
                 = <[".git" := true]> (<["node_modules" := true]> ∅)).
  { unfold NewScanner. cbn [fst].
    destruct (os_Open ignoreFile) as [content|e].
    - destruct (fold_scan_line_fields (bufio.ScanLines_tokens content)
                  (fold_left set_AllowedExts extensions
                     {| Root := root;
                        IgnoredNames := <[".git" := true]> (<["node_modules" := true]> ∅);
                        Patterns := []; AllowedExts := ∅ |})) as (_ & -> & _).
      apply fold_set_AllowedExts_fields.
    - apply fold_set_AllowedExts_fields. }
  rewrite Hmap. split; [reflexivity|]. split.
  - rewrite !dom_insert_L, dom_empty_L. set_solver.
  - intros name. unfold map_index.
    destruct (decide (name = ".git")) as [->|Hgit].
    + rewrite lookup_insert_eq. simpl. tauto.
    + rewrite lookup_insert_ne by congruence.
      destruct (decide (name = "node_modules")) as [->|Hnm].
      * rewrite lookup_insert_eq. simpl. tauto.
      * rewrite lookup_insert_ne by congruence. rewrite lookup_empty. simpl.
        split; [discriminate|]. intros [|]; contradiction.
Qed.

Lemma NewScanner_Patterns os_Open root ignoreFile extensions :
  Patterns (fst (NewScanner os_Open root ignoreFile extensions))
  = match os_Open ignoreFile with
    | Ok content =>
        List.filter keeps_line (map Strings.TrimSpace (bufio.ScanLines_tokens content))
    | Err _ => []
    end.
Proof.
  unfold NewScanner. cbn [fst].
  destruct (os_Open ignoreFile) as [content|e].
  - destruct (fold_scan_line_fields (bufio.ScanLines_tokens content)
                (fold_left set_AllowedExts extensions
                   {| Root := root;
                      IgnoredNames := <[".git" := true]> (<["node_modules" := true]> ∅);
                      Patterns := []; AllowedExts := ∅ |})) as (_ & _ & _ & ->).
    destruct (fold_set_AllowedExts_fields extensions
                {| Root := root;
                   IgnoredNames := <[".git" := true]> (<["node_modules" := true]> ∅);
                   Patterns := []; AllowedExts := ∅ |}) as (_ & _ & ->).
    reflexivity.
  - apply fold_set_AllowedExts_fields.
Qed.

Lemma NewScanner_Root os_Open root ignoreFile extensions :
  Root (fst (NewScanner os_Open root ignoreFile extensions)) = root.
Proof.
  unfold NewScanner. cbn [fst].
  destruct (os_Open ignoreFile) as [content|e].
  - destruct (fold_scan_line_fields (bufio.ScanLines_tokens content)
                (fold_left set_AllowedExts extensions
                   {| Root := root;
                      IgnoredNames := <[".git" := true]> (<["node_modules" := true]> ∅);
                      Patterns := []; AllowedExts := ∅ |})) as (-> & _).
    apply fold_set_AllowedExts_fields.
  - apply fold_set_AllowedExts_fields.
Qed.

Lemma NewScanner_AllowedExts os_Open root ignoreFile extensions ext :
  map_index (AllowedExts (fst (NewScanner os_Open root ignoreFile extensions))) ext
  = bool_decide (ext ∈ extensions).
Proof.
  unfold NewScanner. cbn [fst].
  assert (Hbase : map_index (AllowedExts (fold_left set_AllowedExts extensions
             {| Root := root;
                IgnoredNames := <[".git" := true]> (<["node_modules" := true]> ∅);
                Patterns := []; AllowedExts := ∅ |})) ext
           = bool_decide (ext ∈ extensions)).
  { rewrite fold_set_AllowedExts_index. unfold map_index. simpl.
    rewrite lookup_empty. simpl. apply orb_false_r. }
  destruct (os_Open ignoreFile) as [content|e]; [|exact Hbase].
  destruct (fold_scan_line_fields (bufio.ScanLines_tokens content)
              (fold_left set_AllowedExts extensions
                 {| Root := root;
                    IgnoredNames := <[".git" := true]> (<["node_modules" := true]> ∅);
                    Patterns := []; AllowedExts := ∅ |})) as (_ & _ & -> & _).
  exact Hbase.
Qed.

Lemma scan_walk_err s lstat :
  snd (scan_walk s lstat) = OsError <$> head (walk_errors s lstat).
Proof.
  destruct (scan_walk_result s lstat) as (new & -> & _). reflexivity.
Qed.

Lemma ScanForAI_first_error ReadFile s lstat workerCount cs err :
  ScanForAI ReadFile s lstat workerCount cs err ->
  err = OsError <$> head (walk_errors s lstat).
Proof.
  intros Hrun. rewrite <- scan_walk_err. eapply ScanForAI_err. exact Hrun.
Qed.

(** C3. When the ignore-file cannot be opened, [NewScanner] succeeds with
    no pattern, the scanner is the one built from an empty ignore-file, no
    pattern excludes a file, and the scan does not fail for it: without a
    traversal error it returns nil. *)
Theorem NewScanner_missing_ignore_file os_Open root ignoreFile extensions e :
  os_Open ignoreFile = Err e ->
  let s := fst (NewScanner os_Open root ignoreFile extensions) in
  snd (NewScanner os_Open root ignoreFile extensions) = None
  /\ Patterns s = []
  /\ s = fst (NewScanner (fun _ => Ok "") root ignoreFile extensions)
  /\ (forall path name,
        file_passes s path name = map_index (AllowedExts s) (filepath.Ext path))
  /\ (forall ReadFile lstat workerCount,
        1 <= workerCount -> walk_errors s lstat = [] ->
        exists cs, ScanForAI ReadFile s lstat workerCount cs None)
  /\ (forall ReadFile lstat workerCount cs err,
        ScanForAI ReadFile s lstat workerCount cs err ->
        err = OsError <$> head (walk_errors s lstat)).
Proof.
  intros Hopen s.
  assert (Hpat : Patterns s = []).
  { unfold s. rewrite NewScanner_Patterns, Hopen. reflexivity. }
  split; [reflexivity|]. split; [exact Hpat|]. split.
  { unfold s, NewScanner. rewrite Hopen. reflexivity. }
  split.
  { intros path name. unfold file_passes. rewrite Hpat. apply andb_true_r. }
  split.
  - intros ReadFile lstat workerCount Hpos Herrs.
    destruct (ScanForAI_returns ReadFile s lstat workerCount Hpos) as [cs Hrun].
    rewrite scan_walk_err, Herrs in Hrun. exists cs. exact Hrun.
  - intros ReadFile lstat workerCount cs err. apply ScanForAI_first_error.
Qed.

Lemma NewScanner_missing_ignore_file_witness :
  no_file ".gitignore" = Err {| Op := "open"; ErrPath := ".gitignore";
                                Errno := "no such file or directory" |}
  /\ Patterns (fst (NewScanner no_file "." ".gitignore" [".go"])) = [].
Proof.
  split; [reflexivity|].
  apply (NewScanner_missing_ignore_file no_file "." ".gitignore" [".go"]
           {| Op := "open"; ErrPath := ".gitignore";
              Errno := "no such file or directory" |}).
  reflexivity.
Defined.

Lemma file_passes_Join s dir name :
  valid_name name = true ->
  file_passes s (filepath.Join dir name) name
  = map_index (AllowedExts s) (spec_ext name) && negb (matches_any (Patterns s) name).
Proof.
  intros Hvalid. unfold file_passes.
  rewrite Ext_spec, (last_element_Join dir name Hvalid). reflexivity.
Qed.

Lemma walkFn_file s path d sent :
  IsDir d = false ->
  walkFn s path (Visit d) sent
  = (if file_passes s path (Name d) then (sent ++ [path])%list else sent, None).
Proof.
  intros Hd. unfold walkFn, file_passes. rewrite Hd.
  destruct (map_index (AllowedExts s) (filepath.Ext path)); simpl; [|reflexivity].
  destruct (matches_any (Patterns s) (Name d)); reflexivity.
Qed.

(** C6, as amended.  The patterns of the scanner are, in order, the lines
    that the line scanner yields from the ignore-file, each with its
    leading and trailing white space removed, that are then not empty and
    do not start with [#]; the walk matches them against the name of the
    entry only: the directory part of the path plays no role. *)
Theorem NewScanner_patterns_trimmed os_Open root ignoreFile extensions content :
  os_Open ignoreFile = Ok content ->
  let s := fst (NewScanner os_Open root ignoreFile extensions) in
  Patterns s
  = List.filter keeps_line (map Strings.TrimSpace (bufio.ScanLines_tokens content))
  /\ (forall p,
        In p (Patterns s)
        <-> exists text, In text (bufio.ScanLines_tokens content)
                         /\ p = Strings.TrimSpace text
                         /\ is_empty p = false
                         /\ Strings.HasPrefix p "#" = false)
  /\ (forall path d sent,
        IsDir d = false ->
        walkFn s path (Visit d) sent
        = (if map_index (AllowedExts s) (filepath.Ext path)
              && negb (matches_any (Patterns s) (Name d))
           then (sent ++ [path])%list else sent, None))
  /\ (forall dir1 dir2 name,
        valid_name name = true ->
        file_passes s (filepath.Join dir1 name) name
        = file_passes s (filepath.Join dir2 name) name).
Proof.
  intros Hopen s.
  assert (Hpat : Patterns s
                 = List.filter keeps_line
                     (map Strings.TrimSpace (bufio.ScanLines_tokens content))).
  { unfold s. rewrite NewScanner_Patterns, Hopen. reflexivity. }
  split; [exact Hpat|]. split.
  - intros p. rewrite Hpat, filter_In, in_map_iff. unfold keeps_line. split.
    + intros [(text & <- & Hin) Hkeep]. apply andb_prop in Hkeep as [Hne Hhash].
      exists text. repeat split; [exact Hin| |]; apply negb_true_iff; assumption.
    + intros (text & Hin & -> & Hne & Hhash). split; [exists text; auto|].
      rewrite Hne, Hhash. reflexivity.
  - split.
    + intros path d sent Hd. apply walkFn_file. exact Hd.
    + intros dir1 dir2 name Hvalid. rewrite !file_passes_Join by exact Hvalid. reflexivity.
Qed.

Lemma NewScanner_patterns_trimmed_witness :
  (fun _ : string => Ok "  *.log  ") ".gitignore" = Ok "  *.log  "
  /\ Patterns (fst (NewScanner (fun _ => Ok "  *.log  ") "." ".gitignore" [".go"]))
     = List.filter keeps_line
         (map Strings.TrimSpace (bufio.ScanLines_tokens "  *.log  ")).
Proof.
  split; [reflexivity|].
  apply (NewScanner_patterns_trimmed (fun _ => Ok "  *.log  ") "." ".gitignore" [".go"]
           "  *.log  ").
  reflexivity.
Defined.

(** C6, as stated, fails: the line [ a] is neither blank nor a comment,
    yet the pattern that is loaded is [a], not the line taken literally. *)
Lemma NewScanner_patterns_not_literal :
  Patterns (fst (NewScanner (fun _ => Ok " a") "." ".gitignore" [".go"]))
  <> spec_patterns " a".
Proof. vm_compute. discriminate. Qed.

(** ** The walk callback *)



(** ** The returned error *)

(** C5. With at least one worker [ScanForAI] returns, under every
    schedule of its goroutines, and what it returns is the first traversal
    error of the walk, nil exactly when the walk meets none; the result of
    reading the files has no part in it: under any other [os.ReadFile] the
    scan returns the same error. *)
Theorem ScanForAI_returns_first_walk_error ReadFile s lstat workerCount :
  1 <= workerCount ->
  (exists cs, ScanForAI ReadFile s lstat workerCount cs
                        (OsError <$> head (walk_errors s lstat)))
  /\ (forall st,
        rtc (step ReadFile) (start s lstat workerCount) st ->
        sn (step ReadFile) st /\ (nf (step ReadFile) st -> returned st))
  /\ (forall cs err,
        ScanForAI ReadFile s lstat workerCount cs err ->
        err = OsError <$> head (walk_errors s lstat)
        /\ (err = None <-> walk_errors s lstat = []))
  /\ (forall ReadFile' workerCount' cs' err',
        ScanForAI ReadFile' s lstat workerCount' cs' err' ->
        err' = OsError <$> head (walk_errors s lstat)).
Proof.
  intros Hpos. split.
  - destruct (ScanForAI_returns ReadFile s lstat workerCount Hpos) as [cs Hrun].
    rewrite scan_walk_err in Hrun. exists cs. exact Hrun.
  - split.
    + intros st Hrtc. split; [apply step_sn|].
      intros Hnf. eapply ScanForAI_no_deadlock; eauto.
    + split.
      * intros cs err Hrun.
        pose proof (ScanForAI_first_error _ _ _ _ _ _ Hrun) as Herr.
        split; [exact Herr|]. rewrite Herr.
        destruct (walk_errors s lstat); simpl; split; congruence.
      * intros ReadFile' workerCount' cs' err' Hrun'.
        exact (ScanForAI_first_error _ _ _ _ _ _ Hrun').
Qed.

Lemma ScanForAI_returns_first_walk_error_witness :
  1 <= 1
  /\ ScanForAI read_all example_scanner (Ok denied_tree) 1 []
               (Some (OsError (example_error "open" "a")))
  /\ (exists cs, ScanForAI read_all example_scanner (Ok denied_tree) 1 cs
                           (OsError <$> head (walk_errors example_scanner (Ok denied_tree))))
  /\ Some (OsError (example_error "open" "a"))
     = OsError <$> head (walk_errors example_scanner (Ok denied_tree)).
Proof.
  destruct (ScanForAI_returns_first_walk_error read_all example_scanner
              (Ok denied_tree) 1 ltac:(lia)) as (Hrun & _ & Herr & _).
  split; [lia|]. split; [exact denied_run|]. split; [exact Hrun|].
  exact (proj1 (Herr _ _ denied_run)).
Defined.

(** ** The extension *)

Lemma spec_ext_no_dot name :
  free_of is_dot name = true -> spec_ext name = "".
Proof.
  intros Hfree. unfold spec_ext. rewrite (last_index_free _ _ Hfree). reflexivity.
Qed.

Lemma spec_ext_last_dot a b :
  free_of is_dot b = true -> spec_ext (a ++ String filepath.DOT b) = String filepath.DOT b.
Proof.
  intros Hfree. unfold spec_ext. rewrite (last_index_here _ a b Hfree).
  apply str_drop_app.
Qed.

(** C7. The extension that the walk looks up in the allowed extensions is
    the substring of the base name from its last dot to the end, dot
    included, and the empty string when the base name has no dot; a file
    whose extension is not allowed is not sent. *)
Theorem extension_of_base_name s lstat :
  wf_tree (Root s) lstat = true ->
  (forall path, filepath.Ext path = spec_ext (last_element path))
  /\ (forall name, free_of is_dot name = true -> spec_ext name = "")
  /\ (forall a b, free_of is_dot b = true ->
                  spec_ext (a ++ String filepath.DOT b) = String filepath.DOT b)
  /\ (forall f, In f (tree_files (Root s) lstat) ->
                last_element (f_path f) = f_name f
                /\ filepath.Ext (f_path f) = spec_ext (f_name f))
  /\ (forall path d sent,
        IsDir d = false ->
        map_index (AllowedExts s) (spec_ext (last_element path)) = false ->
        walkFn s path (Visit d) sent = (sent, None))
  /\ (forall f, In f (tree_files (Root s) lstat) ->
                map_index (AllowedExts s) (spec_ext (f_name f)) = false ->
                ~ In f (List.filter (accepted s) (tree_files (Root s) lstat))).
Proof.
  intros Hwf. split; [exact Ext_spec|]. split; [exact spec_ext_no_dot|].
  split; [exact spec_ext_last_dot|]. split.
  - intros f Hf.
    pose proof (tree_files_last_element _ _ Hwf) as Hnames.
    rewrite List.Forall_forall in Hnames. specialize (Hnames f Hf).
    split; [exact Hnames|]. rewrite Ext_spec, Hnames. reflexivity.
  - split.
    + intros path d sent Hd Hext. rewrite walkFn_file by exact Hd.
      unfold file_passes. rewrite Ext_spec, Hext. reflexivity.
    + intros f Hf Hext [_ Hacc]%filter_In.
      unfold accepted, ext_allowed in Hacc. rewrite Hext in Hacc. discriminate.
Qed.

Lemma extension_of_base_name_witness :
  wf_tree (Root example_scanner) (Ok example_tree) = true
  /\ filepath.Ext "sub/.git/c.tar.gz" = spec_ext (last_element "sub/.git/c.tar.gz").
Proof.
  split; [reflexivity|].
  apply (extension_of_base_name example_scanner (Ok example_tree)). reflexivity.
Defined.

(** ** The calls of the callback *)

Lemma In_deliveries ReadFile fc ps :
  In fc (deliveries ReadFile ps)
  <-> In (Path fc) ps /\ ReadFile (Path fc) = Ok (Content fc).
Proof.
  induction ps as [|p ps IH].
  - simpl. tauto.
  - change (deliveries ReadFile (p :: ps))
      with (deliver ReadFile p ++ deliveries ReadFile ps)%list.
    rewrite in_app_iff, IH. unfold deliver. simpl. split.
    + intros [Hin|[Hin Hrd]]; [|tauto].
      destruct (ReadFile p) as [bytes|e] eqn:Hp; [|contradiction].
      destruct Hin as [<-|[]]. simpl. auto.
    + intros [[->|Hin] Hrd]; [|tauto].
      left. rewrite Hrd. destruct fc. left. reflexivity.
Qed.

Lemma NoDup_map_In_eq {A B} (h : A -> B) l a b :
  List.NoDup (map h l) -> In a l -> In b l -> h a = h b -> a = b.
Proof.
  induction l as [|x l IH]; simpl; [contradiction|].
  intros Hnd [->|Ha] [->|Hb] Heq; inversion_clear Hnd as [|? ? Hx Hl].
  - reflexivity.
  - exfalso. apply Hx. rewrite Heq. apply in_map. exact Hb.
  - exfalso. apply Hx. rewrite <- Heq. apply in_map. exact Ha.
  - apply IH; assumption.
Qed.

(** C1, as amended.  On a tree as the operating system presents it and
    with at least one worker, the scan returns, and it returns the first
    traversal error of the walk.  The calls of the callback are, as a
    multiset, the accepted files that the walk reaches before its first
    traversal error and that can be read, each with its content; the files
    reached are the first, in the order of the walk, of the files under no
    ignored directory, and all of them when there is no error.  So, the
    paths of the files being distinct, the callback is called for a
    readable file of the tree if and only if its extension is allowed, its
    name matches no pattern, no directory above it has an ignored name (the
    root being one of them, under the name that [os.Lstat] gives it) and
    the walk reaches it before its first traversal error; without a
    traversal error the scan returns nil and the last condition always
    holds. *)
Theorem sink_called_iff_accepted ReadFile s lstat workerCount :
  wf_tree (Root s) lstat = true ->
  1 <= workerCount ->
  (exists cs, ScanForAI ReadFile s lstat workerCount cs
                        (OsError <$> head (walk_errors s lstat)))
  /\ (forall cs err,
        ScanForAI ReadFile s lstat workerCount cs err ->
        err = OsError <$> head (walk_errors s lstat)
        /\ cs ≡ₚ deliveries ReadFile
                   (map f_path (List.filter (accepted s) (reached_files s lstat))))
  /\ (exists rest,
        List.filter (not_ignored s) (tree_files (Root s) lstat)
        = (reached_files s lstat ++ rest)%list
        /\ (walk_errors s lstat = [] -> rest = []))
  /\ (List.NoDup (map f_path (tree_files (Root s) lstat)) ->
      sink_iff_accepted_and_reached ReadFile s lstat workerCount)
  /\ (walk_errors s lstat = [] ->
      (exists cs, ScanForAI ReadFile s lstat workerCount cs None)
      /\ (forall cs err,
            ScanForAI ReadFile s lstat workerCount cs err ->
            err = None
            /\ cs ≡ₚ deliveries ReadFile
                       (map f_path (List.filter (accepted s) (tree_files (Root s) lstat))))
      /\ (List.NoDup (map f_path (tree_files (Root s) lstat)) ->
          sink_iff_accepted ReadFile s lstat workerCount)).
Proof.
  intros Hwf Hpos.
  assert (Hreturns : exists cs, ScanForAI ReadFile s lstat workerCount cs
                                  (OsError <$> head (walk_errors s lstat))).
  { destruct (ScanForAI_returns ReadFile s lstat workerCount Hpos) as [cs Hrun].
    rewrite scan_walk_err in Hrun. exists cs. exact Hrun. }
  assert (Hruns : forall cs err,
            ScanForAI ReadFile s lstat workerCount cs err ->
            err = OsError <$> head (walk_errors s lstat)
            /\ cs ≡ₚ deliveries ReadFile
                       (map f_path (List.filter (accepted s) (reached_files s lstat)))).
  { intros cs err Hrun.
    destruct (ScanForAI_calls ReadFile s lstat workerCount cs err Hpos Hrun)
      as [He Hperm].
    rewrite (scan_walk_reached s lstat Hwf) in Hperm.
    split; [rewrite He; apply scan_walk_err|exact Hperm]. }
  assert (Hiff : List.NoDup (map f_path (tree_files (Root s) lstat)) ->
                 sink_iff_accepted_and_reached ReadFile s lstat workerCount).
  { intros Hnodup cs err Hrun f Hf [bytes Hread].
    destruct (Hruns cs err Hrun) as [_ Hperm]. split.
    - intros (fc & Hfc & Hpath).
      apply (Permutation_in _ Hperm) in Hfc.
      apply In_deliveries in Hfc as [Hsent _].
      apply in_map_iff in Hsent as (g & Hg & [Hgin Hgacc]%filter_In).
      assert (g = f) as <-; [|auto].
      apply (NoDup_map_In_eq f_path _ _ _ Hnodup); [|exact Hf|congruence].
      apply (reached_files_In s lstat g Hgin).
    - intros [Hacc Hin]. exists {| Path := f_path f; Content := bytes |}.
      split; [|reflexivity].
      apply (Permutation_in _ (Permutation_sym Hperm)).
      apply In_deliveries. simpl. split; [|exact Hread].
      apply in_map. apply filter_In. auto. }
  split; [exact Hreturns|]. split; [exact Hruns|].
  split; [apply reached_files_prefix|]. split; [exact Hiff|].
  intros Herrs.
  destruct (reached_files_prefix s lstat) as (rest & Hpre & Hall).
  specialize (Hall Herrs). subst rest. rewrite app_nil_r in Hpre.
  assert (Hsame : List.filter (accepted s) (reached_files s lstat)
                  = List.filter (accepted s) (tree_files (Root s) lstat)).
  { rewrite <- Hpre. clear. induction (tree_files (Root s) lstat) as [|f l IH];
      [reflexivity|].
    cbn [List.filter]. destruct (not_ignored s f) eqn:Hn; cbn [List.filter].
    - rewrite IH. reflexivity.
    - rewrite IH. unfold accepted at 2. rewrite Hn, andb_false_r. reflexivity. }
  split.
  - destruct Hreturns as [cs Hrun]. rewrite Herrs in Hrun. exists cs. exact Hrun.
  - split.
    + intros cs err Hrun. destruct (Hruns cs err Hrun) as [He Hperm].
      rewrite Herrs in He. rewrite Hsame in Hperm. auto.
    + intros Hnodup cs err Hrun f Hf Hread.
      rewrite (Hiff Hnodup cs err Hrun f Hf Hread). split; [tauto|].
      intros Hacc. split; [exact Hacc|].
      rewrite <- Hpre. apply filter_In. split; [exact Hf|].
      unfold accepted in Hacc. apply andb_prop in Hacc as [_ Hn]. exact Hn.
Qed.

Lemma sink_called_iff_accepted_witness :
  wf_tree (Root example_scanner) (Ok example_tree) = true
  /\ wf_tree (Root example_scanner) (Ok partial_tree) = true
  /\ 1 <= 2
  /\ walk_errors example_scanner (Ok example_tree) = []
  /\ List.NoDup (map f_path (tree_files (Root example_scanner) (Ok example_tree)))
  /\ List.NoDup (map f_path (tree_files (Root example_scanner) (Ok partial_tree)))
  /\ (exists cs, ScanForAI read_all example_scanner (Ok example_tree) 2 cs None)
  /\ sink_iff_accepted read_all example_scanner (Ok example_tree) 2
  /\ reached_files example_scanner (Ok partial_tree)
     = [{| f_path := "a.go"; f_name := "a.go"; f_ancestors := ["."] |}]
  /\ (exists cs, ScanForAI read_all example_scanner (Ok partial_tree) 2 cs
                           (Some (OsError (example_error "open" "locked"))))
  /\ (forall cs err,
        ScanForAI read_all example_scanner (Ok partial_tree) 2 cs err ->
        err = Some (OsError (example_error "open" "locked"))
        /\ cs ≡ₚ [{| Path := "a.go"; Content := "package main" |}])
  /\ sink_iff_accepted_and_reached read_all example_scanner (Ok partial_tree) 2.
Proof.
  assert (Hnodup : List.NoDup
            (map f_path (tree_files (Root example_scanner) (Ok example_tree)))).
  { vm_compute. repeat constructor; simpl; intuition discriminate. }
  assert (Hnodup' : List.NoDup
            (map f_path (tree_files (Root example_scanner) (Ok partial_tree)))).
  { vm_compute. repeat constructor; simpl; intuition discriminate. }
  destruct (sink_called_iff_accepted read_all example_scanner (Ok example_tree) 2
              eq_refl ltac:(lia)) as (_ & _ & _ & _ & Hclean).
  destruct (Hclean eq_refl) as (Hrun & _ & Hiff).
  destruct (sink_called_iff_accepted read_all example_scanner (Ok partial_tree) 2
              eq_refl ltac:(lia)) as (Hpartial & Hall & _ & Hiff' & _).
  split; [reflexivity|]. split; [reflexivity|]. split; [lia|].
  split; [reflexivity|]. split; [exact Hnodup|]. split; [exact Hnodup'|].
  split; [exact Hrun|]. split; [exact (Hiff Hnodup)|].
  split; [reflexivity|]. split; [exact Hpartial|].
  split; [exact Hall|exact (Hiff' Hnodup')].
Defined.

(** C1, as stated, fails: beside a directory that cannot be listed, the
    readable file [b.go] meets the three conditions, and the callback is
    not called for it, since the walk stops at the error. *)
Lemma sink_not_called_after_walk_error :
  ~ sink_iff_accepted read_all example_scanner (Ok denied_tree) 1.
Proof.
  intros Hclaim.
  destruct (ScanForAI_returns read_all example_scanner (Ok denied_tree) 1 ltac:(lia))
    as [cs Hrun].
  destruct (ScanForAI_calls read_all example_scanner (Ok denied_tree) 1 cs _
              ltac:(lia) Hrun) as [_ Hperm].
  assert (Hsent : fst (scan_walk example_scanner (Ok denied_tree)) = [])
    by (vm_compute; reflexivity).
  rewrite Hsent in Hperm. apply Permutation_nil_r in Hperm. subst cs.
  destruct (Hclaim [] _ Hrun
              {| f_path := "b.go"; f_name := "b.go"; f_ancestors := ["."] |})
    as [_ Hcalled].
  - vm_compute. tauto.
  - exists "package main". reflexivity.
  - destruct Hcalled as (fc & [] & _). vm_compute. reflexivity.
Qed.

(** ** Ignored directories *)

Lemma start_prune s lstat workerCount :
  start s lstat workerCount = start s (prune_tree s lstat) workerCount.
Proof. unfold start. rewrite <- scan_walk_prune. reflexivity. Qed.

(** C2. The walk does not descend into a directory with an ignored name:
    its walk is the single call of the callback on the directory itself,
    which sends nothing; so the calls of the walk callback, what it sends
    and the calls of the sink are those of the scan of the tree in which
    the ignored directories are empty. *)
Theorem ignored_directory_pruned s lstat :
  (forall path name entries rderr sent log,
     map_index (IgnoredNames s) name = true ->
     walkDir (traced (walkFn s)) path name (Dir entries rderr) (sent, log)
     = ((sent, (log ++ [(path, Visit {| Name := name; IsDir := true |})])%list), None))
  /\ (forall st,
        WalkDir (traced (walkFn s)) (Root s) lstat st
        = WalkDir (traced (walkFn s)) (Root s) (prune_tree s lstat) st)
  /\ (exists log,
        WalkDir (traced (walkFn s)) (Root s) lstat ([], [])
        = ((fst (scan_walk s lstat), log), snd (scan_walk s lstat)))
  /\ (forall ReadFile workerCount cs err,
        ScanForAI ReadFile s lstat workerCount cs err
        <-> ScanForAI ReadFile s (prune_tree s lstat) workerCount cs err)
  /\ (forall f, In f (tree_files (Root s) lstat) ->
                not_ignored s f = false ->
                ~ In f (List.filter (accepted s) (tree_files (Root s) lstat))).
Proof.
  split; [intros; apply walkDir_ignored; assumption|].
  split; [apply WalkDir_prune|]. split.
  - destruct (WalkDir_traced (walkFn s) (Root s) lstat [] []) as [log Hlog].
    exists log. exact Hlog.
  - split.
    + intros ReadFile workerCount cs err. unfold ScanForAI.
      rewrite <- start_prune. reflexivity.
    + intros f _ Hign [_ Hacc]%filter_In. unfold accepted in Hacc.
      rewrite Hign, andb_false_r in Hacc. discriminate.
Qed.

Lemma ignored_directory_pruned_witness :
  map_index (IgnoredNames example_scanner) ".git" = true
  /\ walkDir (traced (walkFn example_scanner)) "sub/.git" ".git"
             (Dir [("c.go", File)] None) ([], [])
     = (([], [("sub/.git", Visit {| Name := ".git"; IsDir := true |})]), None).
Proof.
  split; [reflexivity|].
  apply (ignored_directory_pruned example_scanner (Ok example_tree)). reflexivity.
Defined.

(** ** Reading the files *)

(** C4. In every state of a scan the callback has been called at most
    once for every send of a path, and never for a path that cannot be
    read; when the scan has returned it has been called exactly once for
    every send of a readable path, and the scan returns the error of the
    walk: a failed read stops neither the worker nor the scan, which
    always runs to its return. *)
Theorem one_call_per_readable_path ReadFile s lstat workerCount st :
  rtc (step ReadFile) (start s lstat workerCount) st ->
  (forall p, (calls_for p (calls st) <= sends_of p (fst (scan_walk s lstat)))%nat)
  /\ (forall p e, ReadFile p = Err e -> calls_for p (calls st) = 0%nat)
  /\ (1 <= workerCount -> returned st ->
      main st = Returned (snd (scan_walk s lstat))
      /\ forall p, calls_for p (calls st)
                   = match ReadFile p with
                     | Ok _ => sends_of p (fst (scan_walk s lstat))
                     | Err _ => 0%nat
                     end)
  /\ (1 <= workerCount -> nf (step ReadFile) st -> returned st)
  /\ sn (step ReadFile) st.
Proof.
  intros Hrtc.
  pose proof (invariant_rtc ReadFile _ _ _ _ _
                (invariant_start ReadFile s lstat workerCount) Hrtc) as Hinv.
  assert (Hle : forall p,
            (calls_for p (calls st)
             <= calls_for p (deliveries ReadFile (fst (scan_walk s lstat))))%nat).
  { intros p. destruct Hinv as [_ _ _ _ _ Hcalls].
    rewrite <- (calls_for_Permutation p _ _ Hcalls), calls_for_app. lia. }
  split.
  - intros p. specialize (Hle p). rewrite calls_for_deliveries in Hle.
    destruct (ReadFile p); lia.
  - split.
    + intros p e Hread. specialize (Hle p). rewrite calls_for_deliveries, Hread in Hle. lia.
    + split.
      * intros Hpos Hret.
        destruct (returned_calls ReadFile _ _ _ st Hinv ltac:(lia) Hret) as [Hmain Hperm].
        split; [exact Hmain|]. intros p.
        rewrite (calls_for_Permutation p _ _ Hperm). apply calls_for_deliveries.
      * split; [|apply step_sn].
        intros Hpos Hnf. eapply ScanForAI_no_deadlock; eauto.
Qed.

Lemma one_call_per_readable_path_witness :
  rtc (step read_but_first) (start example_scanner (Ok example_tree) 2)
      example_end_state
  /\ 1 <= 2
  /\ returned example_end_state
  /\ read_but_first "a.go" = Err (example_error "open" "a.go")
  /\ calls_for "a.go" (calls example_end_state) = 0%nat
  /\ main example_end_state
     = Returned (snd (scan_walk example_scanner (Ok example_tree)))
  /\ forall p, calls_for p (calls example_end_state)
               = match read_but_first p with
                 | Ok _ => sends_of p (fst (scan_walk example_scanner (Ok example_tree)))
                 | Err _ => 0%nat
                 end.
Proof.
  pose proof (rtc_app _ _ _ _ failed_read_run_mid failed_read_run_end) as Hrun.
  assert (Hret : returned example_end_state) by (exists None; reflexivity).
  destruct (one_call_per_readable_path read_but_first example_scanner
              (Ok example_tree) 2 example_end_state Hrun)
    as (_ & Hfail & Hdone & _).
  split; [exact Hrun|]. split; [lia|]. split; [exact Hret|].
  split; [reflexivity|].
  split; [exact (Hfail "a.go" (example_error "open" "a.go") eq_refl)|].
  exact (Hdone ltac:(lia) Hret).
Defined.

(** ** Two scans of the same tree *)

(** C8. Two runs of the scan with one worker on the same tree, with the
    same results of reading the files, call the callback with the same
    pairs of path and content, whatever the order, and return the same
    error. *)
Theorem ScanForAI_idempotent ReadFile s lstat cs1 err1 cs2 err2 :
  ScanForAI ReadFile s lstat 1 cs1 err1 ->
  ScanForAI ReadFile s lstat 1 cs2 err2 ->
  cs1 ≡ₚ cs2
  /\ (forall fc, In fc cs1 <-> In fc cs2)
  /\ err1 = err2.
Proof.
  intros Hrun1 Hrun2.
  destruct (ScanForAI_calls ReadFile s lstat 1 cs1 err1 ltac:(lia) Hrun1) as [-> Hperm1].
  destruct (ScanForAI_calls ReadFile s lstat 1 cs2 err2 ltac:(lia) Hrun2) as [-> Hperm2].
  assert (Hperm : cs1 ≡ₚ cs2) by (rewrite Hperm1, Hperm2; reflexivity).
  split; [exact Hperm|]. split; [|reflexivity].
  intros fc. split; apply Permutation_in; [exact Hperm|symmetry; exact Hperm].
Qed.

Lemma ScanForAI_idempotent_witness :
  ScanForAI read_all example_scanner (Ok example_tree) 1
            [{| Path := "a.go"; Content := "package main" |};
             {| Path := "sub/d.go"; Content := "package main" |}]
            None
  /\ [{| Path := "a.go"; Content := "package main" |};
      {| Path := "sub/d.go"; Content := "package main" |}]
     ≡ₚ [{| Path := "a.go"; Content := "package main" |};
         {| Path := "sub/d.go"; Content := "package main" |}].
Proof.
  split; [exact one_worker_run|].
  apply (ScanForAI_idempotent read_all example_scanner (Ok example_tree)
           _ None _ None one_worker_run one_worker_run).
Defined.

(** * The rest of [main.go] *)

(** ** More on the worker pool *)

Section PoolBounds.

Variable ReadFile : string -> result string.
#[local] Abbreviation step := (step ReadFile).

Lemma step_chan_bound st st' :
  step st st' -> (length (chan st) <= chan_cap)%nat ->
  (length (chan st') <= chan_cap)%nat.
Proof.
  destruct 1 as [p pending err ch ws cs Hcap|err ch cl ws cs|err ch cl ws cs Hall
                |st i p ch Hi Hch|st i Hi Hch Hcl|st i p bytes Hi Hrd
                |st i p e Hi Hrd|st i fc Hi]; simpl; intros Hle; try exact Hle.
  - rewrite length_app. simpl. lia.
  - rewrite Hch in Hle. simpl in Hle. lia.
Qed.

Lemma step_calls_grow st st' :
  step st st' -> exists more, calls st' = (calls st ++ more)%list.
Proof.
  destruct 1; simpl; try (exists []; rewrite app_nil_r; reflexivity).
  eexists. reflexivity.
Qed.

Lemma rtc_calls_grow st st' :
  rtc step st st' -> exists more, calls st' = (calls st ++ more)%list.
Proof.
  induction 1 as [st|st st1 st2 Hstep _ IH].
  - exists []. rewrite app_nil_r. reflexivity.
  - destruct (step_calls_grow _ _ Hstep) as [m1 H1]. destruct IH as [m2 H2].
    exists (m1 ++ m2)%list. rewrite H2, H1, app_assoc. reflexivity.
Qed.

Lemma rtc_chan_bound st st' :
  rtc step st st' -> (length (chan st) <= chan_cap)%nat ->
  (length (chan st') <= chan_cap)%nat.
Proof.
  induction 1 as [st|st st1 st2 Hstep _ IH]; intros Hle; [exact Hle|].
  apply IH. eapply step_chan_bound; eauto.
Qed.

Lemma returned_no_step st :
  returned st -> Forall (fun w => w = Exited) (workers st) ->
  forall st', ~ step st st'.
Proof.
  intros [e He] Hall st' Hstep.
  assert (Hbusy : forall i w, workers st !! i = Some w -> w = Exited).
  { intros i w Hi. eapply (proj1 (Forall_lookup _ _) Hall). exact Hi. }
  destruct Hstep as [p pending err ch ws cs Hcap|err ch cl ws cs|err ch cl ws cs Hall'
                    |st i p ch Hi Hch|st i Hi Hch Hcl|st i p bytes Hi Hrd
                    |st i p e' Hi Hrd|st i fc Hi]; simpl in *;
    try discriminate; specialize (Hbusy _ _ Hi); discriminate.
Qed.

Lemma fifo_inv_step sent st st' :
  fifo_inv ReadFile sent st -> step st st' -> fifo_inv ReadFile sent st'.
Proof.
  intros (w & Hws & Heq) Hstep.
  assert (Hone : forall i x, workers st !! i = Some x -> i = 0%nat /\ x = w).
  { intros i x Hi. rewrite Hws in Hi. destruct i as [|i]; simpl in Hi.
    - split; [reflexivity|congruence].
    - destruct i; discriminate. }
  destruct Hstep as [p pending err ch ws cs Hcap|err ch cl ws cs|err ch cl ws cs Hall
                    |st i p ch Hi Hch|st i Hi Hch Hcl|st i p bytes Hi Hrd
                    |st i p e Hi Hrd|st i fc Hi];
    unfold fifo_inv, with_worker; simpl in *.
  - exists w. split; [exact Hws|]. rewrite <- Heq, <- app_assoc. reflexivity.
  - exists w. split; [exact Hws|]. exact Heq.
  - exists w. split; [exact Hws|]. exact Heq.
  - destruct (Hone _ _ Hi) as [-> <-]. rewrite Hws. exists (Reading p).
    split; [reflexivity|]. rewrite <- Heq, Hch. reflexivity.
  - destruct (Hone _ _ Hi) as [-> <-]. rewrite Hws. exists Exited.
    split; [reflexivity|]. rewrite <- Heq. reflexivity.
  - destruct (Hone _ _ Hi) as [-> <-]. rewrite Hws.
    exists (Calling {| Path := p; Content := bytes |}).
    split; [reflexivity|]. rewrite <- Heq. simpl. unfold deliver. rewrite Hrd. reflexivity.
  - destruct (Hone _ _ Hi) as [-> <-]. rewrite Hws. exists Receiving.
    split; [reflexivity|]. rewrite <- Heq. simpl. unfold deliver. rewrite Hrd. reflexivity.
  - destruct (Hone _ _ Hi) as [-> <-]. rewrite Hws. exists Receiving.
    split; [reflexivity|]. rewrite <- Heq. simpl. rewrite <- app_assoc. reflexivity.
Qed.

Lemma fifo_inv_rtc sent st st' :
  fifo_inv ReadFile sent st -> rtc step st st' -> fifo_inv ReadFile sent st'.
Proof.
  intros Hinv Hrtc. induction Hrtc as [|st st1 st2 Hstep _ IH]; [exact Hinv|].
  apply IH. eapply fifo_inv_step; eauto.
Qed.

Lemma fifo_inv_start s lstat :
  fifo_inv ReadFile (fst (scan_walk s lstat)) (start s lstat 1).
Proof.
  unfold start. destruct (scan_walk s lstat) as [sent err]. exists Receiving.
  split; reflexivity.
Qed.

Lemma idle_inv_step sent st st' :
  idle_inv sent st -> step st st' -> idle_inv sent st'.
Proof.
  intros (Hws & Hcs & Hsent & Hcap) Hstep.
  assert (Hnone : forall i x, workers st !! i = Some x -> False).
  { intros i x Hi. rewrite Hws in Hi. destruct i; discriminate. }
  destruct Hstep as [p pending err ch ws cs Hlt|err ch cl ws cs|err ch cl ws cs Hall
                    |st i p ch Hi Hch|st i Hi Hch Hcl|st i p bytes Hi Hrd
                    |st i p e Hi Hrd|st i fc Hi];
    unfold idle_inv, with_worker; simpl in *;
    try (exfalso; eapply Hnone; eassumption).
  - repeat split; auto.
    + rewrite <- Hsent, <- app_assoc. reflexivity.
    + rewrite length_app. simpl. lia.
  - repeat split; auto.
  - repeat split; auto.
Qed.

Lemma idle_inv_rtc sent st st' :
  idle_inv sent st -> rtc step st st' -> idle_inv sent st'.
Proof.
  intros Hinv Hrtc. induction Hrtc as [|st st1 st2 Hstep _ IH]; [exact Hinv|].
  apply IH. eapply idle_inv_step; eauto.
Qed.

Lemma idle_inv_start s lstat workerCount :
  workerCount <= 0 ->
  idle_inv (fst (scan_walk s lstat)) (start s lstat workerCount).
Proof.
  intros Hle. unfold start. destruct (scan_walk s lstat) as [sent err].
  replace (Z.to_nat workerCount) with 0%nat by lia.
  repeat split; simpl; lia.
Qed.

(** Without a worker the walk can make its sends while the channel has
    room, and then the scan returns. *)
Lemma idle_run pending :
  forall ch err,
    (length ch + length pending <= chan_cap)%nat ->
    rtc step {| main := Walking pending err; chan := ch; closed := false;
                workers := []; calls := [] |}
             {| main := Returned err; chan := (ch ++ pending)%list; closed := true;
                workers := []; calls := [] |}.
Proof.
  induction pending as [|p pending IH]; intros ch err Hle.
  - rewrite app_nil_r.
    eapply rtc_l; [apply step_close|].
    eapply rtc_l; [apply step_wait; constructor|]. apply rtc_refl.
  - simpl in Hle.
    eapply rtc_l; [apply step_send; lia|].
    replace (ch ++ p :: pending)%list with ((ch ++ [p]) ++ pending)%list
      by (rewrite <- app_assoc; reflexivity).
    apply IH. rewrite length_app. simpl. lia.
Qed.

Lemma rtc_transitive_step st1 st2 st3 :
  rtc step st1 st2 -> rtc step st2 st3 -> rtc step st1 st3.
Proof.
  induction 1 as [|a b c Hab _ IH]; intros Hrest; [exact Hrest|].
  eapply rtc_l; [exact Hab|apply IH; exact Hrest].
Qed.

End PoolBounds.

(** X1. Whatever the size of the tree and the schedule, the channel
    never holds more than 100 paths, and the pool keeps its [workerCount]
    workers: none is added and none is lost, whether it waits, works or has
    left. *)
Theorem pipeline_bounded ReadFile s lstat workerCount st :
  rtc (step ReadFile) (start s lstat workerCount) st ->
  (length (chan st) <= 100)%nat
  /\ length (workers st) = Z.to_nat workerCount.
Proof.
  intros Hrtc.
  pose proof (invariant_rtc ReadFile _ _ _ _ _
                (invariant_start ReadFile s lstat workerCount) Hrtc) as [_ Hn _ _ _ _].
  split; [|exact Hn].
  apply (rtc_chan_bound ReadFile _ _ Hrtc).
  unfold start. destruct (scan_walk s lstat). simpl. unfold chan_cap. lia.
Qed.

Lemma pipeline_bounded_witness :
  rtc (step read_but_first) (start example_scanner (Ok example_tree) 2)
      example_mid_state
  /\ chan example_mid_state = ["sub/d.go"]
  /\ (length (chan example_mid_state) <= 100)%nat
  /\ length (workers example_mid_state) = Z.to_nat 2.
Proof.
  split; [exact failed_read_run_mid|]. split; [reflexivity|].
  exact (pipeline_bounded read_but_first example_scanner (Ok example_tree) 2
           example_mid_state failed_read_run_mid).
Defined.

(** X2. When [ScanForAI] has returned nothing moves any more: every worker
    has left, the channel is closed, no goroutine can make a step, so the
    callback is not called after the return; and along a run the calls made
    so far are never taken back. *)
Theorem nothing_after_return ReadFile s lstat workerCount st1 st :
  rtc (step ReadFile) (start s lstat workerCount) st1 ->
  rtc (step ReadFile) st1 st ->
  (exists more, calls st = (calls st1 ++ more)%list)
  /\ (returned st ->
      (forall st', ~ step ReadFile st st')
      /\ Forall (fun w => w = Exited) (workers st)
      /\ closed st = true
      /\ (1 <= workerCount -> chan st = [])).
Proof.
  intros Hrtc1 Hrtc. split; [apply (rtc_calls_grow ReadFile _ _ Hrtc)|].
  intros Hret.
  pose proof (invariant_rtc ReadFile _ _ _ _ _
                (invariant_start ReadFile s lstat workerCount)
                (rtc_transitive_step ReadFile _ _ _ Hrtc1 Hrtc)) as [_ Hn Hcl Hex Hall _].
  specialize (Hall Hret).
  split; [apply returned_no_step; assumption|]. split; [exact Hall|].
  assert (Hclosed : closed st = true).
  { destruct Hret as [e He]. rewrite He in Hcl. exact Hcl. }
  split; [exact Hclosed|].
  intros Hpos. destruct (workers st) as [|w ws] eqn:Hws; [simpl in Hn; lia|].
  apply Hex. inversion Hall; subst. left.
Qed.

Lemma nothing_after_return_witness :
  rtc (step read_but_first) (start example_scanner (Ok example_tree) 2)
      example_mid_state
  /\ rtc (step read_but_first) example_mid_state example_end_state
  /\ returned example_end_state
  /\ 1 <= 2
  /\ (exists more, calls example_end_state = (calls example_mid_state ++ more)%list)
  /\ (forall st', ~ step read_but_first example_end_state st')
  /\ Forall (fun w => w = Exited) (workers example_end_state)
  /\ closed example_end_state = true
  /\ chan example_end_state = [].
Proof.
  assert (Hret : returned example_end_state) by (exists None; reflexivity).
  destruct (nothing_after_return read_but_first example_scanner (Ok example_tree) 2
              example_mid_state example_end_state
              failed_read_run_mid failed_read_run_end) as [Hmore Hdone].
  destruct (Hdone Hret) as (Hnf & Hall & Hcl & Hch).
  split; [exact failed_read_run_mid|]. split; [exact failed_read_run_end|].
  split; [exact Hret|]. split; [lia|]. split; [exact Hmore|].
  split; [exact Hnf|]. split; [exact Hall|]. split; [exact Hcl|].
  apply Hch. lia.
Defined.

(** X3. With one worker the callback is called in the order of the walk:
    the calls of a run are exactly, in order, the paths that the walk sends
    and that can be read, each with its content. *)
Theorem single_worker_walk_order ReadFile s lstat cs err :
  ScanForAI ReadFile s lstat 1 cs err ->
  cs = deliveries ReadFile (fst (scan_walk s lstat)).
Proof.
  intros (st & Hrtc & Hmain & Hcs).
  pose proof (fifo_inv_rtc ReadFile _ _ _ (fifo_inv_start ReadFile s lstat) Hrtc)
    as (w & Hws & Heq).
  pose proof (invariant_rtc ReadFile _ _ _ _ _
                (invariant_start ReadFile s lstat 1) Hrtc) as [_ _ _ Hex Hall _].
  assert (Hret : returned st) by (exists err; exact Hmain).
  specialize (Hall Hret). rewrite Hws in Hall, Hex.
  assert (w = Exited) as -> by (inversion Hall; assumption).
  destruct Hex as [_ Hch]; [left|].
  rewrite Hch, Hmain, Hcs in Heq. simpl in Heq. rewrite app_nil_r in Heq. exact Heq.
Qed.

Lemma single_worker_walk_order_witness :
  ScanForAI read_all example_scanner (Ok example_tree) 1
            [{| Path := "a.go"; Content := "package main" |};
             {| Path := "sub/d.go"; Content := "package main" |}]
            None
  /\ [{| Path := "a.go"; Content := "package main" |};
      {| Path := "sub/d.go"; Content := "package main" |}]
     = deliveries read_all (fst (scan_walk example_scanner (Ok example_tree))).
Proof.
  split; [exact one_worker_run|].
  apply (single_worker_walk_order read_all example_scanner (Ok example_tree) _ None).
  exact one_worker_run.
Defined.

(** X4. With a [workerCount] of zero or less no worker is started: the
    callback is never called; the scan returns, with the error of the walk,
    when the walk sends at most 100 paths, and with more the walk blocks on
    the full channel and the scan never returns. *)
Theorem no_worker_no_delivery ReadFile s lstat workerCount :
  workerCount <= 0 ->
  (forall st, rtc (step ReadFile) (start s lstat workerCount) st -> calls st = [])
  /\ ((length (fst (scan_walk s lstat)) <= 100)%nat ->
      ScanForAI ReadFile s lstat workerCount [] (snd (scan_walk s lstat)))
  /\ ((100 < length (fst (scan_walk s lstat)))%nat ->
      forall cs err, ~ ScanForAI ReadFile s lstat workerCount cs err).
Proof.
  intros Hle. split.
  - intros st Hrtc.
    apply (idle_inv_rtc ReadFile _ _ _ (idle_inv_start s lstat workerCount Hle) Hrtc).
  - split.
    + intros Hfew. unfold ScanForAI, start.
      destruct (scan_walk s lstat) as [sent err]. simpl in *.
      replace (Z.to_nat workerCount) with 0%nat by lia.
      eexists. split; [apply (idle_run ReadFile sent [] err)|split; reflexivity].
      simpl. unfold chan_cap. lia.
    + intros Hmany cs err (st & Hrtc & Hmain & _).
      pose proof (idle_inv_rtc ReadFile _ _ _ (idle_inv_start s lstat workerCount Hle) Hrtc)
        as (_ & _ & Hsent & Hcap).
      rewrite Hmain in Hsent. simpl in Hsent. rewrite app_nil_r in Hsent.
      rewrite <- Hsent in Hmany. unfold chan_cap in Hcap. lia.
Qed.

Lemma no_worker_no_delivery_witness :
  0 <= 0
  /\ ScanForAI read_all example_scanner (Ok example_tree) 0 []
               (snd (scan_walk example_scanner (Ok example_tree))).
Proof.
  split; [lia|].
  apply (no_worker_no_delivery read_all example_scanner (Ok example_tree) 0); [lia|].
  vm_compute. lia.
Defined.

(** ** More on the walk *)

(** X5. A scan that meets a traversal error keeps what it has done: the
    paths that the walk has sent are the first, in the order of the walk, of
    the paths of the accepted files, and every call of the callback is for
    one of them. *)
Theorem partial_scan_is_prefix ReadFile s lstat workerCount cs err :
  wf_tree (Root s) lstat = true ->
  1 <= workerCount ->
  ScanForAI ReadFile s lstat workerCount cs err ->
  exists rest,
    map f_path (List.filter (accepted s) (tree_files (Root s) lstat))
    = (fst (scan_walk s lstat) ++ rest)%list
    /\ (cs ++ deliveries ReadFile rest)%list
       ≡ₚ deliveries ReadFile
            (map f_path (List.filter (accepted s) (tree_files (Root s) lstat)))
    /\ (forall fc, In fc cs ->
          exists f, In f (tree_files (Root s) lstat)
                    /\ accepted s f = true
                    /\ Path fc = f_path f
                    /\ ReadFile (f_path f) = Ok (Content fc)).
Proof.
  intros Hwf Hpos Hrun.
  destruct (scan_walk_result s lstat) as (new & Hw & [rest Hpre] & _).
  rewrite (dispatchable_accepted s lstat Hwf) in Hpre.
  destruct (ScanForAI_calls ReadFile s lstat workerCount cs err Hpos Hrun) as [_ Hperm].
  rewrite Hw in Hperm. simpl in Hperm.
  exists rest. rewrite Hw. simpl. split; [exact Hpre|]. split.
  - rewrite Hpre, deliveries_app, Hperm. reflexivity.
  - intros fc Hfc. apply (Permutation_in _ Hperm) in Hfc.
    apply In_deliveries in Hfc as [Hin Hread].
    assert (Hall : In (Path fc)
              (map f_path (List.filter (accepted s) (tree_files (Root s) lstat)))).
    { rewrite Hpre. apply in_or_app. left. exact Hin. }
    apply in_map_iff in Hall as (f & Hpath & [Hf Hacc]%filter_In).
    exists f. rewrite Hpath. auto.
Qed.

Lemma partial_scan_is_prefix_witness :
  wf_tree (Root example_scanner) (Ok denied_tree) = true
  /\ 1 <= 1
  /\ ScanForAI read_all example_scanner (Ok denied_tree) 1 []
               (Some (OsError (example_error "open" "a")))
  /\ exists rest,
       map f_path (List.filter (accepted example_scanner)
                     (tree_files (Root example_scanner) (Ok denied_tree)))
       = (fst (scan_walk example_scanner (Ok denied_tree)) ++ rest)%list.
Proof.
  split; [reflexivity|]. split; [lia|]. split; [exact denied_run|].
  destruct (partial_scan_is_prefix read_all example_scanner (Ok denied_tree) 1 []
              (Some (OsError (example_error "open" "a"))) eq_refl ltac:(lia) denied_run)
    as (rest & Hpre & _).
  exists rest. exact Hpre.
Defined.

Section DirectoryPatterns.

Variables (s : FileScanner) (p : string).

Lemma walkFn_with_pattern_dir path name sent :
  walkFn (with_pattern s p) path (Visit {| Name := name; IsDir := true |}) sent
  = walkFn s path (Visit {| Name := name; IsDir := true |}) sent.
Proof. reflexivity. Qed.

Lemma walkFn_with_pattern_failed path d e sent :
  walkFn (with_pattern s p) path (Failed d e) sent = walkFn s path (Failed d e) sent.
Proof. reflexivity. Qed.

Lemma walkFn_with_pattern_file path name sent :
  fst (filepath.Match p name) = false ->
  walkFn (with_pattern s p) path (Visit {| Name := name; IsDir := false |}) sent
  = walkFn s path (Visit {| Name := name; IsDir := false |}) sent.
Proof.
  intros Hp. rewrite !walkFn_file by reflexivity. unfold file_passes. simpl.
  rewrite matches_any_app. simpl.
  destruct (filepath.Match p name) as [m e]. simpl in Hp. subst m.
  rewrite orb_false_r. reflexivity.
Qed.

Lemma walk_children_with_pattern es :
  Forall (fun e => forall path name ancestors sent,
            (forall f, In f (files_of path name ancestors (snd e)) ->
                       fst (filepath.Match p (f_name f)) = false) ->
            walkDir (walkFn (with_pattern s p)) path name (snd e) sent
            = walkDir (walkFn s) path name (snd e) sent) es ->
  forall path ancestors sent,
    (forall f, In f (flat_map (fun e => files_of (filepath.Join path (fst e)) (fst e)
                                                 ancestors (snd e)) es) ->
               fst (filepath.Match p (f_name f)) = false) ->
    walk_children (walkFn (with_pattern s p)) path es sent
    = walk_children (walkFn s) path es sent.
Proof.
  induction 1 as [|[name1 node1] es Hnode _ IH]; intros path ancestors sent Hfiles;
    [reflexivity|].
  cbn [walk_children]. cbn [snd] in Hnode.
  rewrite (Hnode (filepath.Join path name1) name1 ancestors sent).
  - destruct (walkDir (walkFn s) (filepath.Join path name1) name1 node1 sent)
      as [sent1 [e|]]; [reflexivity|].
    apply (IH path ancestors). intros f Hf. apply Hfiles. simpl.
    apply in_or_app. right. exact Hf.
  - intros f Hf. apply Hfiles. simpl. apply in_or_app. left. exact Hf.
Qed.

Lemma walkDir_with_pattern node :
  forall path name ancestors sent,
    (forall f, In f (files_of path name ancestors node) ->
               fst (filepath.Match p (f_name f)) = false) ->
    walkDir (walkFn (with_pattern s p)) path name node sent
    = walkDir (walkFn s) path name node sent.
Proof.
  induction node as [|entries rderr IH] using Node_induction;
    intros path name ancestors sent Hfiles.
  - rewrite !walkDir_File. rewrite walkFn_with_pattern_file; [reflexivity|].
    apply (Hfiles {| f_path := path; f_name := name; f_ancestors := ancestors |}).
    left. reflexivity.
  - rewrite !walkDir_Dir. cbv zeta. rewrite walkFn_with_pattern_dir.
    destruct (walkFn s path (Visit {| Name := name; IsDir := true |}) sent)
      as [sent1 [e|]]; [reflexivity|].
    destruct rderr as [e|].
    + rewrite walkFn_with_pattern_failed.
      destruct (walkFn s path _ sent1) as [sent2 [e2|]]; [reflexivity|].
      apply (walk_children_with_pattern entries IH path (ancestors ++ [name])%list).
      exact Hfiles.
    + apply (walk_children_with_pattern entries IH path (ancestors ++ [name])%list).
      exact Hfiles.
Qed.

Lemma scan_walk_with_pattern lstat :
  (forall f, In f (tree_files (Root s) lstat) ->
             fst (filepath.Match p (f_name f)) = false) ->
  scan_walk (with_pattern s p) lstat = scan_walk s lstat.
Proof.
  intros Hfiles. unfold scan_walk, WalkDir.
  change (Root (with_pattern s p)) with (Root s).
  destruct lstat as [node|e]; [|reflexivity].
  rewrite (walkDir_with_pattern node (Root s) (os.basename (Root s)) [] [] Hfiles).
  reflexivity.
Qed.

End DirectoryPatterns.

(** X6. The patterns act on the names of files only: a pattern that
    matches no file name of the tree changes nothing in the scan, whatever
    directory names it matches; the walk still descends into a directory
    whose name matches a pattern. *)
Theorem pattern_on_directories_has_no_effect s p lstat :
  (forall f, In f (tree_files (Root s) lstat) ->
             fst (filepath.Match p (f_name f)) = false) ->
  scan_walk (with_pattern s p) lstat = scan_walk s lstat
  /\ (forall ReadFile workerCount cs err,
        ScanForAI ReadFile (with_pattern s p) lstat workerCount cs err
        <-> ScanForAI ReadFile s lstat workerCount cs err).
Proof.
  intros Hfiles. pose proof (scan_walk_with_pattern s p lstat Hfiles) as Hwalk.
  split; [exact Hwalk|].
  intros ReadFile workerCount cs err. unfold ScanForAI, start. rewrite Hwalk. reflexivity.
Qed.

Lemma pattern_on_directories_has_no_effect_witness :
  fst (filepath.Match "sub" "sub") = true
  /\ (forall f, In f (tree_files (Root example_scanner) (Ok example_tree)) ->
                fst (filepath.Match "sub" (f_name f)) = false)
  /\ scan_walk (with_pattern example_scanner "sub") (Ok example_tree)
     = (["a.go"; "sub/d.go"], None).
Proof.
  assert (Hfiles : forall f, In f (tree_files (Root example_scanner) (Ok example_tree)) ->
                             fst (filepath.Match "sub" (f_name f)) = false).
  { intros f Hf. vm_compute in Hf.
    destruct Hf as [<-|[<-|[<-|[<-|[]]]]]; reflexivity. }
  split; [reflexivity|]. split; [exact Hfiles|].
  destruct (pattern_on_directories_has_no_effect example_scanner "sub" (Ok example_tree)
              Hfiles) as [-> _].
  reflexivity.
Defined.

Lemma reachable_calls_sub ReadFile s lstat workerCount st :
  rtc (step ReadFile) (start s lstat workerCount) st ->
  exists rest, (calls st ++ rest)%list ≡ₚ deliveries ReadFile (fst (scan_walk s lstat)).
Proof.
  intros Hrtc.
  pose proof (invariant_rtc ReadFile _ _ _ _ _
                (invariant_start ReadFile s lstat workerCount) Hrtc) as [_ _ _ _ _ Hcalls].
  eexists. exact Hcalls.
Qed.

(** X7. When the name of the root directory, as [os.Lstat] gives it (the
    last element of the root path, trailing separators removed), is an
    ignored name, the scan visits nothing beneath the root: nothing is
    sent, the callback is not called and the scan returns nil, even if the
    root cannot be listed. *)
Theorem ignored_root_scans_nothing ReadFile s entries rderr workerCount cs err :
  map_index (IgnoredNames s) (os.basename (Root s)) = true ->
  ScanForAI ReadFile s (Ok (Dir entries rderr)) workerCount cs err ->
  scan_walk s (Ok (Dir entries rderr)) = ([], None)
  /\ cs = [] /\ err = None.
Proof.
  intros Hign Hrun.
  assert (Hwalk : scan_walk s (Ok (Dir entries rderr)) = ([], None)).
  { unfold scan_walk, WalkDir. rewrite walkDir_Dir. cbv zeta. unfold walkFn. simpl.
    rewrite Hign. reflexivity. }
  split; [exact Hwalk|].
  pose proof (ScanForAI_err ReadFile _ _ _ _ _ Hrun) as He. rewrite Hwalk in He.
  split; [|exact He].
  destruct Hrun as (st & Hrtc & _ & <-).
  destruct (reachable_calls_sub ReadFile s (Ok (Dir entries rderr)) workerCount st Hrtc)
    as [rest Hperm].
  rewrite Hwalk in Hperm. simpl in Hperm.
  apply Permutation_nil_r in Hperm. apply app_eq_nil in Hperm. tauto.
Qed.

Lemma ignored_root_scans_nothing_witness :
  map_index (IgnoredNames (fst (NewScanner no_file "proj/node_modules/" ".gitignore" [".go"])))
            (os.basename (Root (fst (NewScanner no_file "proj/node_modules/"
                                       ".gitignore" [".go"]))))
  = true
  /\ scan_walk (fst (NewScanner no_file "proj/node_modules/" ".gitignore" [".go"]))
               (Ok (Dir [("index.go", File)] None))
     = ([], None).
Proof.
  split; [reflexivity|].
  assert (Hrun : ScanForAI read_all
                   (fst (NewScanner no_file "proj/node_modules/" ".gitignore" [".go"]))
                   (Ok (Dir [("index.go", File)] None)) 0 [] None).
  { exists {| main := Returned None; chan := ([] ++ [])%list; closed := true;
              workers := []; calls := [] |}.
    split; [|split; reflexivity].
    replace (start (fst (NewScanner no_file "proj/node_modules/" ".gitignore" [".go"]))
               (Ok (Dir [("index.go", File)] None)) 0)
      with {| main := Walking [] None; chan := []; closed := false;
              workers := []; calls := [] |}
      by (vm_compute; reflexivity).
    apply (idle_run read_all [] [] None). simpl. unfold chan_cap. lia. }
  apply (ignored_root_scans_nothing read_all
           (fst (NewScanner no_file "proj/node_modules/" ".gitignore" [".go"]))
           [("index.go", File)] None 0 [] None eq_refl Hrun).
Defined.

(** ** More on [NewScanner] *)

Lemma fold_set_AllowedExts_lookup exts s ext :
  AllowedExts (fold_left set_AllowedExts exts s) !! ext
  = if decide (ext ∈ exts) then Some true else AllowedExts s !! ext.
Proof.
  revert s. induction exts as [|x exts IH]; intros s.
  - rewrite decide_False; [reflexivity|]. apply not_elem_of_nil.
  - cbn [fold_left]. rewrite IH. unfold set_AllowedExts. cbn [AllowedExts].
    destruct (decide (ext ∈ exts)) as [Hin|Hnin].
    + rewrite decide_True; [reflexivity|]. right. exact Hin.
    + destruct (decide (x = ext)) as [->|Hne].
      * rewrite lookup_insert_eq. rewrite decide_True; [reflexivity|]. left.
      * rewrite lookup_insert_ne by exact Hne.
        rewrite decide_False; [reflexivity|].
        intros [Heq|Hin]%elem_of_cons; [congruence|contradiction].
Qed.

Lemma NewScanner_AllowedExts_lookup os_Open root ignoreFile extensions ext :
  AllowedExts (fst (NewScanner os_Open root ignoreFile extensions)) !! ext
  = if decide (ext ∈ extensions) then Some true else None.
Proof.
  unfold NewScanner. cbn [fst].
  assert (Hbase : AllowedExts (fold_left set_AllowedExts extensions
             {| Root := root;
                IgnoredNames := <[".git" := true]> (<["node_modules" := true]> ∅);
                Patterns := []; AllowedExts := ∅ |}) !! ext
           = if decide (ext ∈ extensions) then Some true else None).
  { rewrite fold_set_AllowedExts_lookup. simpl. rewrite lookup_empty. reflexivity. }
  destruct (os_Open ignoreFile) as [content|e]; [|exact Hbase].
  destruct (fold_scan_line_fields (bufio.ScanLines_tokens content)
              (fold_left set_AllowedExts extensions
                 {| Root := root;
                    IgnoredNames := <[".git" := true]> (<["node_modules" := true]> ∅);
                    Patterns := []; AllowedExts := ∅ |})) as (_ & _ & -> & _).
  exact Hbase.
Qed.

(** X8. The allowed extensions of the scanner are exactly the extensions
    given to [NewScanner]: an extension is allowed if and only if it occurs
    in the list; the order of the list, its repetitions, the root and the
    ignore-file play no role. *)
Theorem NewScanner_AllowedExts_exact os_Open root ignoreFile extensions :
  (forall ext,
     map_index (AllowedExts (fst (NewScanner os_Open root ignoreFile extensions))) ext
     = true <-> In ext extensions)
  /\ dom (AllowedExts (fst (NewScanner os_Open root ignoreFile extensions)))
     = (list_to_set extensions : gset string)
  /\ (forall os_Open' root' ignoreFile' extensions',
        (forall ext, In ext extensions <-> In ext extensions') ->
        AllowedExts (fst (NewScanner os_Open' root' ignoreFile' extensions'))
        = AllowedExts (fst (NewScanner os_Open root ignoreFile extensions))).
Proof.
  split.
  - intros ext. unfold map_index. rewrite NewScanner_AllowedExts_lookup.
    rewrite <- list_elem_of_In.
    destruct (decide (ext ∈ extensions)); simpl; split; auto; discriminate.
  - split.
    + apply set_eq. intros ext. rewrite elem_of_dom, NewScanner_AllowedExts_lookup.
      rewrite elem_of_list_to_set.
      destruct (decide (ext ∈ extensions)) as [Hin|Hnin].
      * split; [intros _; exact Hin|intros _; eexists; reflexivity].
      * split; [intros [v Hv]; discriminate|intros Hin; contradiction].
    + intros os_Open' root' ignoreFile' extensions' Hsame.
      apply map_eq. intros ext. rewrite !NewScanner_AllowedExts_lookup.
      destruct (decide (ext ∈ extensions')) as [Hin|Hnin],
               (decide (ext ∈ extensions)) as [Hin'|Hnin']; try reflexivity.
      * exfalso. apply Hnin'. apply list_elem_of_In, Hsame, list_elem_of_In. exact Hin.
      * exfalso. apply Hnin. apply list_elem_of_In, Hsame, list_elem_of_In. exact Hin'.
Qed.

Lemma NewScanner_AllowedExts_exact_witness :
  (forall ext, In ext [".go"; ".ts"] <-> In ext [".ts"; ".go"; ".ts"])
  /\ AllowedExts (fst (NewScanner no_file "." ".gitignore" [".ts"; ".go"; ".ts"]))
     = AllowedExts (fst (NewScanner no_file "src" "other" [".go"; ".ts"])).
Proof.
  assert (Hsame : forall ext, In ext [".go"; ".ts"] <-> In ext [".ts"; ".go"; ".ts"])
    by (intros ext; simpl; tauto).
  split; [exact Hsame|].
  apply (NewScanner_AllowedExts_exact no_file "src" "other" [".go"; ".ts"]). exact Hsame.
Defined.

(** ** Extensions without a dot *)

Lemma Ext_empty_or_dot path :
  filepath.Ext path = "" \/ exists rest, filepath.Ext path = String filepath.DOT rest.
Proof.
  destruct (last_dot_or_sep path) as [Hfree|(a & c & b & -> & Hc & Hb)].
  - left. unfold filepath.Ext.
    change path with ("" ++ path) at 1.
    change (str_len path) with (str_len "" + str_len path)%nat.
    rewrite (Ext_from_free path Hfree ""). reflexivity.
  - rewrite (Ext_last a c b Hb). unfold is_dot_or_sep in Hc.
    destruct (is_sep c); [left; reflexivity|].
    rewrite orb_false_r in Hc. rewrite Hc. right.
    apply Ascii.eqb_eq in Hc as ->. exists b. reflexivity.
Qed.

Lemma dispatchable_nil s node :
  (forall path name, file_passes s path name = false) ->
  forall path name, dispatchable s path name node = [].
Proof.
  intros Hnone.
  induction node as [|entries rderr IH] using Node_induction; intros path name.
  - simpl. rewrite Hnone. reflexivity.
  - cbn [dispatchable]. destruct (map_index (IgnoredNames s) name); [reflexivity|].
    apply flat_map_nil. eapply Forall_impl; [exact IH|].
    intros e He. apply He.
Qed.

(** X9. The extension of a path is empty or starts with its dot, and the
    walk looks it up as it is: when every extension given to [NewScanner]
    is written without the leading dot (and none is empty), no file is ever
    sent, whatever the tree. *)
Theorem extensions_need_their_dot os_Open root ignoreFile extensions lstat :
  (forall ext, In ext extensions ->
               ext <> "" /\ starts_with_dot ext = false) ->
  (forall path, filepath.Ext path = ""
                \/ exists rest, filepath.Ext path = String filepath.DOT rest)
  /\ fst (scan_walk (fst (NewScanner os_Open root ignoreFile extensions)) lstat) = [].
Proof.
  intros Hexts. split; [exact Ext_empty_or_dot|].
  set (s := fst (NewScanner os_Open root ignoreFile extensions)).
  assert (Hnone : forall path name, file_passes s path name = false).
  { intros path name. unfold file_passes.
    destruct (map_index (AllowedExts s) (filepath.Ext path)) eqn:Hidx; [|reflexivity].
    exfalso. unfold s, map_index in Hidx. rewrite NewScanner_AllowedExts_lookup in Hidx.
    destruct (decide (filepath.Ext path ∈ extensions)) as [Hin|]; [|discriminate].
    apply list_elem_of_In, Hexts in Hin as [Hne Hdot].
    destruct (Ext_empty_or_dot path) as [Hempty|[rest Hrest]]; [contradiction|].
    rewrite Hrest in Hdot. discriminate. }
  destruct (scan_walk_result s lstat) as (new & -> & [rest Hpre] & _).
  simpl. destruct lstat as [node|e].
  - rewrite (dispatchable_nil s node Hnone) in Hpre.
    symmetry in Hpre. apply app_eq_nil in Hpre. tauto.
  - symmetry in Hpre. apply app_eq_nil in Hpre. tauto.
Qed.

Lemma extensions_need_their_dot_witness :
  (forall ext, In ext ["go"; "ts"] ->
               ext <> "" /\ starts_with_dot ext = false)
  /\ fst (scan_walk (fst (NewScanner no_file "." ".gitignore" ["go"; "ts"]))
                    (Ok example_tree)) = [].
Proof.
  assert (Hexts : forall ext, In ext ["go"; "ts"] ->
                              ext <> "" /\ starts_with_dot ext = false).
  { intros ext [<-|[<-|[]]]; split; (discriminate || reflexivity). }
  split; [exact Hexts|].
  apply (extensions_need_their_dot no_file "." ".gitignore" ["go"; "ts"] (Ok example_tree)).
  exact Hexts.
Defined.

(** ** [main]: the scan into the context *)

Lemma list_update_split {A} (l : list A) i x :
  l !! i = Some x ->
  exists l1 l2, l = (l1 ++ x :: l2)%list
                /\ forall y, <[i := y]> l = (l1 ++ y :: l2)%list.
Proof.
  intros Hi. exists (take i l), (drop (Datatypes.S i) l). split.
  - symmetry. apply take_drop_middle. exact Hi.
  - intros y. apply insert_take_drop. eapply lookup_lt_Some. exact Hi.
Qed.

Lemma sum_update {A} (f : A -> nat) (l : list A) i x y :
  l !! i = Some x ->
  (sum_list_with f (<[i := y]> l) + f x = sum_list_with f l + f y)%nat.
Proof.
  intros (l1 & l2 & -> & Hins)%list_update_split. rewrite Hins.
  rewrite !sum_list_with_app. simpl. lia.
Qed.

Lemma bind_update {A B} (f : A -> list B) (l : list A) i x y :
  l !! i = Some x ->
  exists rest, l ≫= f ≡ₚ (f x ++ rest)%list
               /\ <[i := y]> l ≫= f ≡ₚ (f y ++ rest)%list.
Proof.
  intros (l1 & l2 & -> & Hins)%list_update_split. rewrite Hins.
  exists ((l1 ≫= f) ++ (l2 ≫= f))%list.
  rewrite !bind_app, !bind_cons. split.
  - rewrite !app_assoc. f_equiv. apply Permutation_app_comm.
  - rewrite !app_assoc. f_equiv. apply Permutation_app_comm.
Qed.

Lemma elem_of_update {A} (l : list A) i x y v :
  l !! i = Some x -> v ∈ <[i := y]> l -> v = y \/ v ∈ l.
Proof.
  intros (l1 & l2 & -> & Hins)%list_update_split. rewrite Hins.
  rewrite !elem_of_app, !elem_of_cons. tauto.
Qed.

Lemma blocks_app l1 l2 : blocks (l1 ++ l2) = blocks l1 ++ blocks l2.
Proof.
  induction l1 as [|fc l1 IH]; [reflexivity|].
  change (blocks ((fc :: l1) ++ l2)) with (file_block fc ++ blocks (l1 ++ l2)).
  change (blocks (fc :: l1)) with (file_block fc ++ blocks l1).
  rewrite IH, str_app_assoc. reflexivity.
Qed.

Lemma wrap64_add a b : wrap64 (wrap64 a + b) = wrap64 (a + b).
Proof.
  unfold wrap64.
  replace ((a + 2 ^ 63) mod 2 ^ 64 - 2 ^ 63 + b + 2 ^ 63)
    with ((a + 2 ^ 63) mod 2 ^ 64 + b) by lia.
  replace (a + b + 2 ^ 63) with ((a + 2 ^ 63) + b) by lia.
  rewrite Zplus_mod_idemp_l. reflexivity.
Qed.

Lemma wrap64_small z : - 2 ^ 63 <= z < 2 ^ 63 -> wrap64 z = z.
Proof. intros Hz. unfold wrap64. rewrite Z.mod_small; lia. Qed.

Section MainPool.

Variable ReadFile : string -> result string.
#[local] Abbreviation pstep := (pstep ReadFile).
#[local] Abbreviation pinflight := (pinflight ReadFile).
#[local] Abbreviation pinv := (pinv ReadFile).

Lemma pstep_weight st st' : pstep st st' -> (pweight st' < pweight st)%nat.
Proof.
  unfold pweight.
  destruct 1 as [p pending err ch ws n m b Hcap|err ch cl ws n m b
                |err ch cl ws n m b Hall
                |st i p ch Hi Hch|st i Hi Hch Hcl|st i p bytes Hi Hrd
                |st i p e Hi Hrd|st i fc Hi|st i fc Hi Hmu|st i fc Hi|st i Hi];
    simpl.
  - rewrite length_app. simpl. lia.
  - lia.
  - lia.
  - rewrite Hch. simpl.
    pose proof (sum_update pworker_weight _ _ _ (PReading p) Hi). simpl in *. lia.
  - pose proof (sum_update pworker_weight _ _ _ PExited Hi). simpl in *. lia.
  - pose proof (sum_update pworker_weight _ _ _
                  (PCounting {| Path := p; Content := bytes |}) Hi). simpl in *. lia.
  - pose proof (sum_update pworker_weight _ _ _ PReceiving Hi). simpl in *. lia.
  - pose proof (sum_update pworker_weight _ _ _ (PLocking fc) Hi). simpl in *. lia.
  - pose proof (sum_update pworker_weight _ _ _ (PWriting fc) Hi). simpl in *. lia.
  - pose proof (sum_update pworker_weight _ _ _ PUnlocking Hi). simpl in *. lia.
  - pose proof (sum_update pworker_weight _ _ _ PReceiving Hi). simpl in *. lia.
Qed.

Lemma pstep_sn st : sn pstep st.
Proof.
  induction st as [st IH] using (well_founded_induction (well_founded_ltof _ pweight)).
  constructor. intros st' Hstep. apply IH. unfold ltof.
  apply pstep_weight. exact Hstep.
Qed.

Lemma not_all_pexited (ws : list pworker) i w :
  ws !! i = Some w -> w <> PExited ->
  Forall (fun v => v = PExited) ws -> False.
Proof.
  intros Hi Hw Hall. apply Hw.
  eapply (proj1 (Forall_lookup _ _) Hall). exact Hi.
Qed.

Section MainInvariant.

Variables (sent : list string) (err : option error) (n : nat).

Ltac worker_update Hi w :=
  let rest := fresh "rest" in
  let Hold := fresh "Hold" in
  let Hnew := fresh "Hnew" in
  let Hh := fresh "Hh" in
  let Hc := fresh "Hc" in
  destruct (bind_update pinflight _ _ _ w Hi) as (rest & Hold & Hnew);
  pose proof (sum_update holder _ _ _ w Hi) as Hh;
  pose proof (sum_update counted _ _ _ w Hi) as Hc;
  simpl in Hh, Hc.

Lemma pinv_step st st' :
  pinv sent err n st -> pstep st st' -> pinv sent err n st'.
Proof.
  intros [Herr Hn Hcl Hex Hret Hmu Hout] Hstep.
  destruct Hstep as [p pending e ch ws k m b Hcap|e ch cl ws k m b
                    |e ch cl ws k m b Hall
                    |st i p ch Hi Hch|st i Hi Hch Hclosed|st i p bytes Hi Hrd
                    |st i p e Hi Hrd|st i fc Hi|st i fc Hi Hfree|st i fc Hi|st i Hi];
    unfold with_pworker; simpl in *.
  - constructor; simpl; auto.
    + intros Hin. destruct (Hex Hin); discriminate.
    + intros [e' He']. discriminate.
    + destruct Hout as (written & Hb & Hperm & Hcnt). exists written.
      split; [exact Hb|]. split; [|exact Hcnt].
      rewrite <- Hperm, <- app_assoc. reflexivity.
  - constructor; simpl; auto.
    + intros Hin. destruct (Hex Hin) as [_ ->]. auto.
    + intros [e' He']. discriminate.
  - constructor; simpl; auto.
  - worker_update Hi (PReading p).
    constructor; simpl; auto.
    + rewrite length_insert. exact Hn.
    + intros Hin. destruct (elem_of_update _ _ _ _ _ Hi Hin) as [|Hin']; [discriminate|].
      destruct (Hex Hin') as [_ Hnil]. rewrite Hnil in Hch. discriminate.
    + intros Hr. exfalso. eapply not_all_pexited; eauto; discriminate.
    + rewrite <- Hmu. lia.
    + destruct Hout as (written & Hb & Hperm & Hcnt). exists written.
      split; [exact Hb|]. split.
      * rewrite <- Hperm, Hch, Hnew, Hold. simpl.
        apply Permutation_app_head.
        rewrite (app_assoc rest). apply Permutation_app_tail.
        apply Permutation_app_comm.
      * rewrite Hcnt. f_equal. lia.
  - worker_update Hi PExited.
    constructor; simpl; auto.
    + rewrite length_insert. exact Hn.
    + intros Hr. exfalso. eapply not_all_pexited; eauto; discriminate.
    + rewrite <- Hmu. lia.
    + destruct Hout as (written & Hb & Hperm & Hcnt). exists written.
      split; [exact Hb|]. split.
      * rewrite <- Hperm, Hnew, Hold. reflexivity.
      * rewrite Hcnt. f_equal. lia.
  - worker_update Hi (PCounting {| Path := p; Content := bytes |}).
    constructor; simpl; auto.
    + rewrite length_insert. exact Hn.
    + intros Hin. destruct (elem_of_update _ _ _ _ _ Hi Hin) as [|Hin']; [discriminate|].
      auto.
    + intros Hr. exfalso. eapply not_all_pexited; eauto; discriminate.
    + rewrite <- Hmu. lia.
    + destruct Hout as (written & Hb & Hperm & Hcnt). exists written.
      split; [exact Hb|]. split.
      * rewrite <- Hperm, Hnew, Hold. simpl. unfold deliver. rewrite Hrd. reflexivity.
      * rewrite Hcnt. f_equal. lia.
  - worker_update Hi PReceiving.
    constructor; simpl; auto.
    + rewrite length_insert. exact Hn.
    + intros Hin. destruct (elem_of_update _ _ _ _ _ Hi Hin) as [|Hin']; [discriminate|].
      auto.
    + intros Hr. exfalso. eapply not_all_pexited; eauto; discriminate.
    + rewrite <- Hmu. lia.
    + destruct Hout as (written & Hb & Hperm & Hcnt). exists written.
      split; [exact Hb|]. split.
      * rewrite <- Hperm, Hnew, Hold. simpl. unfold deliver. rewrite Hrd. reflexivity.
      * rewrite Hcnt. f_equal. lia.
  - worker_update Hi (PLocking fc).
    constructor; simpl; auto.
    + rewrite length_insert. exact Hn.
    + intros Hin. destruct (elem_of_update _ _ _ _ _ Hi Hin) as [|Hin']; [discriminate|].
      auto.
    + intros Hr. exfalso. eapply not_all_pexited; eauto; discriminate.
    + rewrite <- Hmu. lia.
    + destruct Hout as (written & Hb & Hperm & Hcnt). exists written.
      split; [exact Hb|]. split.
      * rewrite <- Hperm, Hnew, Hold. reflexivity.
      * rewrite Hcnt, wrap64_add. f_equal. lia.
  - worker_update Hi (PWriting fc).
    constructor; simpl; auto.
    + rewrite length_insert. exact Hn.
    + intros Hin. destruct (elem_of_update _ _ _ _ _ Hi Hin) as [|Hin']; [discriminate|].
      auto.
    + intros Hr. exfalso. eapply not_all_pexited; eauto; discriminate.
    + rewrite Hfree in Hmu. lia.
    + destruct Hout as (written & Hb & Hperm & Hcnt). exists written.
      split; [exact Hb|]. split.
      * rewrite <- Hperm, Hnew, Hold. reflexivity.
      * rewrite Hcnt. f_equal. lia.
  - worker_update Hi PUnlocking.
    constructor; simpl; auto.
    + rewrite length_insert. exact Hn.
    + intros Hin. destruct (elem_of_update _ _ _ _ _ Hi Hin) as [|Hin']; [discriminate|].
      auto.
    + intros Hr. exfalso. eapply not_all_pexited; eauto; discriminate.
    + rewrite <- Hmu. lia.
    + destruct Hout as (written & Hb & Hperm & Hcnt). exists (written ++ [fc])%list.
      split; [rewrite blocks_app, Hb; simpl; rewrite str_app_nil_r; reflexivity|]. split.
      * rewrite <- Hperm, Hnew, Hold. simpl. rewrite <- !app_assoc. reflexivity.
      * rewrite Hcnt. f_equal. rewrite length_app. simpl. lia.
  - worker_update Hi PReceiving.
    constructor; simpl; auto.
    + rewrite length_insert. exact Hn.
    + intros Hin. destruct (elem_of_update _ _ _ _ _ Hi Hin) as [|Hin']; [discriminate|].
      auto.
    + intros Hr. exfalso. eapply not_all_pexited; eauto; discriminate.
    + destruct (mu st); lia.
    + destruct Hout as (written & Hb & Hperm & Hcnt). exists written.
      split; [exact Hb|]. split.
      * rewrite <- Hperm, Hnew, Hold. reflexivity.
      * rewrite Hcnt. f_equal. lia.
Qed.

Lemma pinv_rtc st st' :
  pinv sent err n st -> rtc pstep st st' -> pinv sent err n st'.
Proof.
  intros Hinv Hrtc. induction Hrtc as [|st st1 st2 Hstep _ IH]; [exact Hinv|].
  apply IH. eapply pinv_step; eauto.
Qed.

Lemma existsb_false {A} (f : A -> bool) l x :
  existsb f l = false -> In x l -> f x = false.
Proof.
  intros Hnone Hin. destruct (f x) eqn:Hfx; [|reflexivity].
  assert (existsb f l = true) by (apply existsb_exists; eauto). congruence.
Qed.

Lemma sum_list_with_zero {A} (f : A -> nat) l :
  (forall x, In x l -> f x = 0%nat) -> sum_list_with f l = 0%nat.
Proof.
  induction l as [|x l IH]; intros Hall; [reflexivity|]. simpl.
  rewrite (Hall x) by (left; reflexivity). apply IH. intros y Hy. apply Hall. right. exact Hy.
Qed.

Lemma In_lookup {A} (l : list A) x : In x l -> exists i, l !! i = Some x.
Proof. intros Hin. apply list_elem_of_lookup, list_elem_of_In. exact Hin. Qed.

(** With at least one worker a state of the scan of [main] that has not
    returned can move. *)
Lemma pprogress st :
  pinv sent err n st -> (1 <= n)%nat -> ~ returned_main (p_main st) ->
  exists st', pstep st st'.
Proof.
  intros [Herr Hn Hcl Hex Hret Hmu Hout] Hpos Hnret.
  destruct (existsb active (p_workers st)) eqn:Hactive.
  { apply existsb_exists in Hactive as (w & Hin & Hw).
    apply In_lookup in Hin as [i Hi].
    destruct w as [|p|fc|fc|fc| |]; try discriminate.
    - destruct (ReadFile p) as [bytes|e] eqn:Hrd.
      + eexists. eapply pstep_read_ok; eauto.
      + eexists. eapply pstep_read_err; eauto.
    - eexists. eapply pstep_count; eauto.
    - eexists. eapply pstep_write; eauto.
    - eexists. eapply pstep_unlock; eauto. }
  assert (Hfree : mu st = false).
  { rewrite sum_list_with_zero in Hmu.
    - destruct (mu st); [discriminate|reflexivity].
    - intros w Hin. pose proof (existsb_false _ _ _ Hactive Hin) as Hw.
      destruct w; try discriminate; reflexivity. }
  destruct (existsb (fun w => match w with PLocking _ => true | _ => false end)
                    (p_workers st)) eqn:Hlocking.
  { apply existsb_exists in Hlocking as (w & Hin & Hw).
    apply In_lookup in Hin as [i Hi].
    destruct w as [|p|fc|fc|fc| |]; try discriminate.
    eexists. eapply pstep_lock; eauto. }
  assert (Hidle : forall w, In w (p_workers st) -> w = PReceiving \/ w = PExited).
  { intros w Hin. pose proof (existsb_false _ _ _ Hactive Hin) as Hw.
    pose proof (existsb_false _ _ _ Hlocking Hin) as Hl.
    destruct w; try discriminate; auto. }
  destruct st as [m ch cl ws k mt b]. simpl in *.
  destruct m as [pending e|e|e].
  - destruct pending as [|p pending].
    + eexists. apply pstep_close.
    + subst cl.
      destruct (decide (length ch < chan_cap)%nat) as [Hroom|Hfull].
      * eexists. apply pstep_send. exact Hroom.
      * destruct ws as [|w ws]; [simpl in Hn; lia|].
        destruct (Hidle w (or_introl eq_refl)) as [->| ->].
        -- destruct ch as [|q ch]; [unfold chan_cap in Hfull; simpl in Hfull; lia|].
           eexists. eapply (pstep_recv _ _ 0%nat); reflexivity.
        -- destruct Hex as [Hex _]; [left|discriminate].
  - destruct (existsb (fun w => match w with PReceiving => true | _ => false end) ws)
      eqn:Hrecv.
    + apply existsb_exists in Hrecv as (w & Hin & Hw).
      apply In_lookup in Hin as [i Hi].
      destruct w; try discriminate.
      destruct ch as [|q ch].
      * eexists. eapply (pstep_exit _ _ i); eauto.
      * eexists. eapply (pstep_recv _ _ i); eauto.
    + eexists. apply pstep_wait. apply List.Forall_forall. intros w Hin.
      pose proof (existsb_false _ _ _ Hrecv Hin) as Hw.
      destruct (Hidle w Hin) as [->| ->]; [discriminate|reflexivity].
  - exfalso. apply Hnret. eexists. reflexivity.
Qed.

Lemma prun_to_return st :
  pinv sent err n st -> (1 <= n)%nat ->
  exists st', rtc pstep st st' /\ returned_main (p_main st').
Proof.
  intros Hinv Hpos. induction (pstep_sn st) as [st _ IH].
  destruct (p_main st) as [pending e|e|e] eqn:Hmain.
  - destruct (pprogress st Hinv Hpos) as [st1 Hstep].
    { intros [e' He']. congruence. }
    destruct (IH st1 Hstep) as (st' & Hrtc & Hret).
    { eapply pinv_step; eauto. }
    exists st'. split; [|exact Hret]. eapply rtc_l; eauto.
  - destruct (pprogress st Hinv Hpos) as [st1 Hstep].
    { intros [e' He']. congruence. }
    destruct (IH st1 Hstep) as (st' & Hrtc & Hret).
    { eapply pinv_step; eauto. }
    exists st'. split; [|exact Hret]. eapply rtc_l; eauto.
  - exists st. split; [apply rtc_refl|]. exists e. exact Hmain.
Qed.

(** When the scan of [main] has returned, the builder holds one block for
    every sent path that could be read, and the counter their number. *)
Lemma preturned_context st :
  pinv sent err n st -> (1 <= n)%nat -> returned_main (p_main st) ->
  mu st = false
  /\ exists written,
       written ≡ₚ deliveries ReadFile sent
       /\ builder st = blocks written
       /\ fileCount st = wrap64 (Z.of_nat (length written)).
Proof.
  intros [Herr Hn Hcl Hex Hret Hmu Hout] Hpos Hr.
  pose proof (Hret Hr) as Hall.
  assert (Hnone : p_workers st ≫= pinflight = []
                  /\ sum_list_with counted (p_workers st) = 0%nat
                  /\ sum_list_with holder (p_workers st) = 0%nat).
  { clear -Hall. induction Hall as [|v vs Hv _ (IH1 & IH2 & IH3)]; [auto|].
    subst v. rewrite bind_cons, IH1. simpl. auto. }
  destruct Hnone as (Hinfl & Hcounted & Hholder).
  split.
  { rewrite Hholder in Hmu. destruct (mu st); [discriminate|reflexivity]. }
  destruct Hout as (written & Hb & Hperm & Hcnt). exists written.
  destruct (p_workers st) as [|w ws] eqn:Hws; [simpl in Hn; lia|].
  assert (Hw : w = PExited) by (inversion Hall; assumption).
  destruct Hex as [_ Hch]; [subst w; left|].
  destruct Hr as [e He]. rewrite He, Hch, Hinfl in Hperm. simpl in Hperm.
  rewrite app_nil_r in Hperm.
  split; [exact Hperm|]. split; [exact Hb|].
  rewrite Hcnt, Hcounted. f_equal. lia.
Qed.

End MainInvariant.

Lemma replicate_preceiving k :
  replicate k PReceiving ≫= pinflight = []
  /\ sum_list_with counted (replicate k PReceiving) = 0%nat
  /\ sum_list_with holder (replicate k PReceiving) = 0%nat.
Proof. induction k as [|k (IH1 & IH2 & IH3)]; [auto|]. simpl. auto. Qed.

Lemma pinv_start s lstat workerCount :
  pinv (fst (scan_walk s lstat)) (snd (scan_walk s lstat))
       (Z.to_nat workerCount) (pstart s lstat workerCount).
Proof.
  unfold pstart. destruct (scan_walk s lstat) as [sent err]. simpl.
  destruct (replicate_preceiving (Z.to_nat workerCount)) as (H1 & H2 & H3).
  constructor; simpl; auto.
  - apply length_replicate.
  - intros [Hin _]%elem_of_replicate. discriminate.
  - intros [e He]. discriminate.
  - exists []. rewrite H1, H2. simpl. auto.
Qed.

End MainPool.

Lemma main_scan_context ReadFile os_Open dir lstat numCPU count repoContext :
  1 <= numCPU ->
  main_scan ReadFile os_Open dir lstat numCPU count repoContext ->
  exists written,
    written ≡ₚ deliveries ReadFile (fst (scan_walk (main_scanner os_Open dir) lstat))
    /\ repoContext = blocks written
    /\ count = wrap64 (Z.of_nat (length written)).
Proof.
  intros Hpos (st & Hrtc & Hret & <- & <-).
  pose proof (pinv_rtc ReadFile _ _ _ _ _
                (pinv_start ReadFile (main_scanner os_Open dir) lstat numCPU) Hrtc) as Hinv.
  destruct (preturned_context ReadFile _ _ _ st Hinv ltac:(lia) Hret)
    as (_ & written & Hperm & Hb & Hcnt).
  exists written. auto.
Qed.

(** A run of the scan of [main] with one worker on the example of the
    specification. *)
Example main_example_run :
  main_scan read_all no_file "." (Ok example_tree) 1 2
    (blocks [{| Path := "a.go"; Content := "package main" |};
             {| Path := "sub/d.go"; Content := "package main" |}]).
Proof.
  exists {| p_main := Returned None; p_chan := []; p_closed := true;
            p_workers := [PExited]; fileCount := 2; mu := false;
            builder := blocks [{| Path := "a.go"; Content := "package main" |};
                               {| Path := "sub/d.go"; Content := "package main" |}] |}.
  split; [|split; [exists None; reflexivity|split; reflexivity]].
  replace (pstart (main_scanner no_file ".") (Ok example_tree) 1)
    with {| p_main := Walking ["a.go"; "sub/d.go"] None; p_chan := []; p_closed := false;
            p_workers := [PReceiving]; fileCount := 0; mu := false; builder := "" |}
    by (vm_compute; reflexivity).
  eapply rtc_l; [apply pstep_send; unfold chan_cap; simpl; lia|]. simpl.
  eapply rtc_l; [apply pstep_send; unfold chan_cap; simpl; lia|]. simpl.
  eapply rtc_l; [apply pstep_close|].
  eapply rtc_l; [eapply (pstep_recv _ _ 0%nat); reflexivity|]. simpl.
  eapply rtc_l; [eapply (pstep_read_ok _ _ 0%nat); reflexivity|].
  unfold with_pworker. simpl.
  eapply rtc_l; [eapply (pstep_count _ _ 0%nat); reflexivity|]. simpl.
  eapply rtc_l; [eapply (pstep_lock _ _ 0%nat); reflexivity|]. simpl.
  eapply rtc_l; [eapply (pstep_write _ _ 0%nat); reflexivity|]. simpl.
  eapply rtc_l; [eapply (pstep_unlock _ _ 0%nat); reflexivity|]. simpl.
  eapply rtc_l; [eapply (pstep_recv _ _ 0%nat); reflexivity|]. simpl.
  eapply rtc_l; [eapply (pstep_read_ok _ _ 0%nat); reflexivity|].
  unfold with_pworker. simpl.
  eapply rtc_l; [eapply (pstep_count _ _ 0%nat); reflexivity|]. simpl.
  eapply rtc_l; [eapply (pstep_lock _ _ 0%nat); reflexivity|]. simpl.
  eapply rtc_l; [eapply (pstep_write _ _ 0%nat); reflexivity|]. simpl.
  eapply rtc_l; [eapply (pstep_unlock _ _ 0%nat); reflexivity|]. simpl.
  eapply rtc_l; [eapply (pstep_exit _ _ 0%nat); reflexivity|].
  unfold with_pworker. simpl.
  eapply rtc_l; [apply pstep_wait; repeat constructor|].
  apply rtc_refl.
Qed.

(** X10. When the scan of [main] is over, the context is made of one
    block [--- FILE: path ---] with its content for every file delivered,
    in the order in which the workers took the mutex, and [fileCount], the
    number that [main] prints, is the number of these blocks (as an
    [int64]): the files that the walk has sent and that could be read,
    whether or not the walk met an error. *)
Theorem main_count_matches_context ReadFile os_Open dir lstat numCPU count repoContext :
  1 <= numCPU ->
  main_scan ReadFile os_Open dir lstat numCPU count repoContext ->
  exists written,
    written ≡ₚ deliveries ReadFile (fst (scan_walk (main_scanner os_Open dir) lstat))
    /\ repoContext = blocks written
    /\ count = wrap64 (Z.of_nat (length written))
    /\ (Z.of_nat (length written) < 2 ^ 63 -> count = Z.of_nat (length written)).
Proof.
  intros Hpos Hrun.
  destruct (main_scan_context _ _ _ _ _ _ _ Hpos Hrun) as (written & Hperm & Hb & Hcnt).
  exists written. repeat split; auto.
  intros Hsmall. rewrite Hcnt. apply wrap64_small. lia.
Qed.

Lemma main_count_matches_context_witness :
  1 <= 1
  /\ main_scan read_all no_file "." (Ok example_tree) 1 2
       (blocks [{| Path := "a.go"; Content := "package main" |};
                {| Path := "sub/d.go"; Content := "package main" |}])
  /\ exists written,
       written ≡ₚ deliveries read_all
                    (fst (scan_walk (main_scanner no_file ".") (Ok example_tree)))
       /\ blocks [{| Path := "a.go"; Content := "package main" |};
                  {| Path := "sub/d.go"; Content := "package main" |}]
          = blocks written
       /\ 2 = wrap64 (Z.of_nat (length written))
       /\ (Z.of_nat (length written) < 2 ^ 63 -> 2 = Z.of_nat (length written)).
Proof.
  split; [lia|]. split; [exact main_example_run|].
  apply (main_count_matches_context read_all no_file "." (Ok example_tree) 1 2 _
           ltac:(lia) main_example_run).
Defined.

Lemma holder_lookup ws i w :
  ws !! i = Some w -> (holder w <= sum_list_with holder ws)%nat.
Proof.
  revert i. induction ws as [|v ws IH]; intros [|i] Hi; try discriminate.
  - injection Hi as ->. simpl. lia.
  - simpl in *. specialize (IH i Hi). lia.
Qed.

Lemma holder_others ws i w :
  ws !! i = Some w -> holder w = 1%nat ->
  (sum_list_with holder ws <= 1)%nat ->
  forall j v, ws !! j = Some v -> j <> i -> holder v = 0%nat.
Proof.
  revert i. induction ws as [|u ws IH]; intros [|i] Hi Hw Hle [|j] v Hj Hne;
    try discriminate; try contradiction; simpl in *.
  - injection Hi as ->. pose proof (holder_lookup ws j v Hj). lia.
  - injection Hj as ->. pose proof (holder_lookup ws i w Hi). lia.
  - apply (IH i Hi Hw ltac:(lia) j v Hj). congruence.
Qed.

(** A run of the scan of [main] with two workers on the example, up to
    the moment when the first worker holds the mutex and the second waits
    for it. *)
Example main_locked_run :
  rtc (pstep read_all) (pstart example_scanner (Ok example_tree) 2)
      example_locked_state.
Proof.
  replace (pstart example_scanner (Ok example_tree) 2)
    with {| p_main := Walking ["a.go"; "sub/d.go"] None; p_chan := []; p_closed := false;
            p_workers := [PReceiving; PReceiving];
            fileCount := 0; mu := false; builder := "" |}
    by (vm_compute; reflexivity).
  eapply rtc_l; [apply pstep_send; unfold chan_cap; simpl; lia|]. simpl.
  eapply rtc_l; [apply pstep_send; unfold chan_cap; simpl; lia|]. simpl.
  eapply rtc_l; [eapply (pstep_recv _ _ 0%nat); reflexivity|]. simpl.
  eapply rtc_l; [eapply (pstep_recv _ _ 1%nat); reflexivity|]. simpl.
  eapply rtc_l; [eapply (pstep_read_ok _ _ 0%nat); reflexivity|].
  unfold with_pworker. simpl.
  eapply rtc_l; [eapply (pstep_read_ok _ _ 1%nat); reflexivity|].
  unfold with_pworker. simpl.
  eapply rtc_l; [eapply (pstep_count _ _ 0%nat); reflexivity|]. simpl.
  eapply rtc_l; [eapply (pstep_count _ _ 1%nat); reflexivity|]. simpl.
  eapply rtc_l; [eapply (pstep_lock _ _ 0%nat); reflexivity|]. simpl.
  apply rtc_refl.
Qed.

(** X11. The builder is written under the mutex: in every state of the
    scan of [main] at most one worker is between [mu.Lock()] and
    [mu.Unlock()], the mutex is held exactly when there is one, and every
    step that changes the builder is made while the mutex is held, by the
    one worker that holds it. *)
Theorem builder_written_under_mutex ReadFile s lstat workerCount st :
  rtc (pstep ReadFile) (pstart s lstat workerCount) st ->
  (sum_list_with holder (p_workers st) <= 1)%nat
  /\ (mu st = true <-> sum_list_with holder (p_workers st) = 1%nat)
  /\ (forall st', pstep ReadFile st st' -> builder st' <> builder st ->
        mu st = true /\ mu st' = true
        /\ exists i fc, p_workers st !! i = Some (PWriting fc)
                        /\ forall j w, p_workers st !! j = Some w -> j <> i ->
                                       holder w = 0%nat).
Proof.
  intros Hrtc.
  pose proof (pinv_rtc ReadFile _ _ _ _ _
                (pinv_start ReadFile s lstat workerCount) Hrtc)
    as [_ _ _ _ _ Hmu _].
  assert (Hle : (sum_list_with holder (p_workers st) <= 1)%nat)
    by (rewrite Hmu; destruct (mu st); lia).
  split; [exact Hle|]. split.
  - rewrite Hmu. destruct (mu st); split; auto; discriminate.
  - intros st' Hstep Hchanged.
    inversion Hstep; subst; simpl in *; try (exfalso; apply Hchanged; reflexivity).
    match goal with
    | Hi : p_workers st !! ?i = Some (PWriting ?fc) |- _ =>
        pose proof (holder_lookup _ _ _ Hi) as Hone; simpl in Hone;
        assert (Hheld : mu st = true)
          by (destruct (mu st); [reflexivity|rewrite Hmu in Hone; lia]);
        split; [exact Hheld|]; split; [exact Hheld|];
        exists i, fc; split; [exact Hi|];
        intros j w Hj Hne;
        exact (holder_others _ _ _ Hi eq_refl Hle j w Hj Hne)
    end.
Qed.

Lemma builder_written_under_mutex_witness :
  rtc (pstep read_all) (pstart example_scanner (Ok example_tree) 2)
      example_locked_state
  /\ mu example_locked_state = true
  /\ (sum_list_with holder (p_workers example_locked_state) <= 1)%nat
  /\ (mu example_locked_state = true
      <-> sum_list_with holder (p_workers example_locked_state) = 1%nat)
  /\ exists st',
       pstep read_all example_locked_state st'
       /\ builder st' <> builder example_locked_state
       /\ mu st' = true.
Proof.
  destruct (builder_written_under_mutex read_all example_scanner (Ok example_tree) 2
              example_locked_state main_locked_run) as (Hle & Hiff & Hwrite).
  split; [exact main_locked_run|]. split; [reflexivity|].
  split; [exact Hle|]. split; [exact Hiff|].
  assert (Hstep : pstep read_all example_locked_state
            {| p_main := Walking [] None; p_chan := []; p_closed := false;
               p_workers := [PUnlocking;
                             PLocking {| Path := "sub/d.go"; Content := "package main" |}];
               fileCount := 2; mu := true;
               builder := file_block {| Path := "a.go"; Content := "package main" |} |}).
  { exact (pstep_write read_all example_locked_state 0%nat
             {| Path := "a.go"; Content := "package main" |} eq_refl). }
  assert (Hchanged : builder
            {| p_main := Walking [] None; p_chan := []; p_closed := false;
               p_workers := [PUnlocking;
                             PLocking {| Path := "sub/d.go"; Content := "package main" |}];
               fileCount := 2; mu := true;
               builder := file_block {| Path := "a.go"; Content := "package main" |} |}
            <> builder example_locked_state) by discriminate.
  eexists. split; [exact Hstep|]. split; [exact Hchanged|].
  exact (proj1 (proj2 (Hwrite _ Hstep Hchanged))).
Defined.

(** X12. With at least one worker the scan of [main] always ends: no
    schedule of the walker and the workers runs forever, none is blocked on
    the channel or on the mutex before the return, and a run to the return
    exists. *)
Theorem main_scan_ends ReadFile os_Open dir lstat numCPU :
  1 <= numCPU ->
  (exists count repoContext,
     main_scan ReadFile os_Open dir lstat numCPU count repoContext)
  /\ (forall st,
        rtc (pstep ReadFile) (pstart (main_scanner os_Open dir) lstat numCPU) st ->
        sn (pstep ReadFile) st
        /\ (nf (pstep ReadFile) st -> returned_main (p_main st))).
Proof.
  intros Hpos. split.
  - destruct (prun_to_return ReadFile _ _ _ _
                (pinv_start ReadFile (main_scanner os_Open dir) lstat numCPU))
      as (st & Hrtc & Hret); [lia|].
    exists (fileCount st), (builder st), st. auto.
  - intros st Hrtc. split; [apply pstep_sn|].
    intros Hnf.
    pose proof (pinv_rtc ReadFile _ _ _ _ _
                  (pinv_start ReadFile (main_scanner os_Open dir) lstat numCPU) Hrtc)
      as Hinv.
    destruct (p_main st) as [pending e|e|e] eqn:Hmain.
    + exfalso. apply Hnf. eapply pprogress; eauto; [lia|].
      rewrite Hmain. intros [e' He']. discriminate.
    + exfalso. apply Hnf. eapply pprogress; eauto; [lia|].
      rewrite Hmain. intros [e' He']. discriminate.
    + exists e. reflexivity.
Qed.

Lemma main_scan_ends_witness :
  1 <= 8
  /\ exists count repoContext,
       main_scan read_all no_file "." (Ok example_tree) 8 count repoContext.
Proof.
  split; [lia|].
  apply (main_scan_ends read_all no_file "." (Ok example_tree) 8). lia.
Defined.

Lemma NewScanner_IgnoredNames_index os_Open root ignoreFile extensions name :
  map_index (IgnoredNames (fst (NewScanner os_Open root ignoreFile extensions))) name
  = String.eqb name ".git" || String.eqb name "node_modules".
Proof.
  assert (Hmap : IgnoredNames (fst (NewScanner os_Open root ignoreFile extensions))
                 = <[".git" := true]> (<["node_modules" := true]> ∅)).
  { unfold NewScanner. cbn [fst].
    destruct (os_Open ignoreFile) as [content|e].
    - destruct (fold_scan_line_fields (bufio.ScanLines_tokens content)
                  (fold_left set_AllowedExts extensions
                     {| Root := root;
                        IgnoredNames := <[".git" := true]> (<["node_modules" := true]> ∅);
                        Patterns := []; AllowedExts := ∅ |})) as (_ & -> & _).
      apply fold_set_AllowedExts_fields.
    - apply fold_set_AllowedExts_fields. }
  rewrite Hmap. unfold map_index.
  destruct (String.eqb name ".git") eqn:Hgit.
  - apply String.eqb_eq in Hgit as ->. rewrite lookup_insert_eq. reflexivity.
  - apply String.eqb_neq in Hgit. rewrite lookup_insert_ne by congruence.
    destruct (String.eqb name "node_modules") eqn:Hnm.
    + apply String.eqb_eq in Hnm as ->. rewrite lookup_insert_eq. reflexivity.
    + apply String.eqb_neq in Hnm. rewrite lookup_insert_ne by congruence.
      rewrite lookup_empty. reflexivity.
Qed.

Lemma main_scanner_accepted os_Open dir f :
  accepted (main_scanner os_Open dir) f = main_accepts os_Open f.
Proof.
  unfold accepted, main_accepts, ext_allowed, pattern_free, not_ignored, main_scanner.
  rewrite NewScanner_AllowedExts, NewScanner_Patterns. f_equal.
  induction (f_ancestors f) as [|d ds IH]; [reflexivity|].
  cbn [forallb]. rewrite NewScanner_IgnoredNames_index, IH. reflexivity.
Qed.

(** X13. [main], on a tree that the walk traverses without error, loads
    into the context exactly the readable files whose extension is one of
    [.svelte], [.ts], [.go], [.html], [.sql], whose name matches no pattern
    of the file [.gitignore] (named as such, not under the directory to
    analyze) and that lie under no directory [.git] or [node_modules]; the
    number it prints is their number. *)
Theorem main_loads_accepted_files ReadFile os_Open dir lstat numCPU count repoContext :
  wf_tree dir lstat = true ->
  walk_errors (main_scanner os_Open dir) lstat = [] ->
  1 <= numCPU ->
  main_scan ReadFile os_Open dir lstat numCPU count repoContext ->
  exists written,
    written ≡ₚ deliveries ReadFile
                 (map f_path (List.filter (main_accepts os_Open) (tree_files dir lstat)))
    /\ repoContext = blocks written
    /\ count = wrap64 (Z.of_nat (length written)).
Proof.
  intros Hwf Herrs Hpos Hrun.
  destruct (main_scan_context _ _ _ _ _ _ _ Hpos Hrun) as (written & Hperm & Hb & Hcnt).
  exists written. split; [|auto].
  assert (Hroot : Root (main_scanner os_Open dir) = dir) by apply NewScanner_Root.
  rewrite <- Hroot in Hwf.
  rewrite (scan_walk_sent _ lstat Hwf Herrs) in Hperm. simpl in Hperm.
  rewrite Hroot in Hperm. rewrite Hperm.
  rewrite (List.filter_ext _ _ (main_scanner_accepted os_Open dir)). reflexivity.
Qed.

Lemma main_loads_accepted_files_witness :
  wf_tree "." (Ok example_tree) = true
  /\ walk_errors (main_scanner no_file ".") (Ok example_tree) = []
  /\ 1 <= 1
  /\ main_scan read_all no_file "." (Ok example_tree) 1 2
       (blocks [{| Path := "a.go"; Content := "package main" |};
                {| Path := "sub/d.go"; Content := "package main" |}])
  /\ exists written,
       written ≡ₚ deliveries read_all
                    (map f_path (List.filter (main_accepts no_file)
                                   (tree_files "." (Ok example_tree))))
       /\ blocks [{| Path := "a.go"; Content := "package main" |};
                  {| Path := "sub/d.go"; Content := "package main" |}]
          = blocks written
       /\ 2 = wrap64 (Z.of_nat (length written)).
Proof.
  split; [reflexivity|]. split; [reflexivity|]. split; [lia|].
  split; [exact main_example_run|].
  apply (main_loads_accepted_files read_all no_file "." (Ok example_tree) 1 2 _
           eq_refl eq_refl ltac:(lia) main_example_run).
Defined.

(** ** [main]: the interactive loop *)

Lemma questions_session texts :
  questions (session texts)
  = List.filter (fun q => negb (is_empty q))
                (before_exit (map Strings.TrimSpace texts)).
Proof.
  induction texts as [|text texts IH]; [reflexivity|].
  cbn [session map before_exit].
  destruct (is_exit (Strings.TrimSpace text)); [reflexivity|].
  cbn [List.filter].
  destruct (is_empty (Strings.TrimSpace text)); simpl; [exact IH|].
  f_equal. exact IH.
Qed.

Lemma In_before_exit q inputs :
  In q (before_exit inputs) -> In q inputs /\ is_exit q = false.
Proof.
  induction inputs as [|input inputs IH]; simpl; [contradiction|].
  destruct (is_exit input) eqn:Hexit; [contradiction|].
  intros [<-|Hin]; [auto|]. destruct (IH Hin). auto.
Qed.

Lemma before_exit_stops before input after :
  is_exit input = true ->
  before_exit (before ++ input :: after) = before_exit before.
Proof.
  intros Hexit. induction before as [|x before IH]; simpl.
  - rewrite Hexit. reflexivity.
  - destruct (is_exit x); [reflexivity|]. rewrite IH. reflexivity.
Qed.

(** X14. The questions that the session passes to [AskAboutRepo] are, in
    order, the input lines with their surrounding white space removed that
    are not empty, up to the first line that reads [exit] or [quit]: no
    empty question is ever asked, nor [exit] or [quit], and nothing that
    follows such a line is asked. *)
Theorem session_questions texts :
  questions (session texts)
  = List.filter (fun q => negb (is_empty q))
                (before_exit (map Strings.TrimSpace texts))
  /\ (forall q, In q (questions (session texts)) ->
                q <> "" /\ q <> "exit" /\ q <> "quit"
                /\ exists text, In text texts /\ q = Strings.TrimSpace text)
  /\ (forall before text after,
        texts = (before ++ text :: after)%list ->
        is_exit (Strings.TrimSpace text) = true ->
        questions (session texts) = questions (session before)).
Proof.
  split; [apply questions_session|]. split.
  - intros q. rewrite questions_session, filter_In.
    intros [[Hin Hexit]%In_before_exit Hne].
    apply in_map_iff in Hin as (text & <- & Hin).
    unfold is_exit in Hexit. apply orb_false_elim in Hexit as [He Hq].
    apply String.eqb_neq in He, Hq.
    repeat split; auto.
    + intros Heq. rewrite Heq in Hne. discriminate.
    + exists text. auto.
  - intros before text after -> Hexit.
    rewrite !questions_session, map_app. cbn [map].
    rewrite (before_exit_stops _ _ _ Hexit). reflexivity.
Qed.

Lemma session_questions_witness :
  ["explain main"; "  "; " quit "; "more"] = (["explain main"; "  "] ++ " quit " :: ["more"])%list
  /\ is_exit (Strings.TrimSpace " quit ") = true
  /\ questions (session ["explain main"; "  "; " quit "; "more"])
     = questions (session ["explain main"; "  "]).
Proof.
  split; [reflexivity|]. split; [reflexivity|].
  destruct (session_questions ["explain main"; "  "; " quit "; "more"]) as (_ & _ & Hstop).
  apply (Hstop ["explain main"; "  "] " quit " ["more"]); reflexivity.
Defined.

(** ** The line scanner on long lines *)

Lemma split_lf_line line rest :
  free_of is_lf line = true ->
  bufio.split_lf (line ++ String LF rest) = line :: bufio.split_lf rest.
Proof.
  induction line as [|c line IH]; intros Hfree.
  - change ("" ++ String LF rest) with (String LF rest).
    cbn [bufio.split_lf]. rewrite Ascii.eqb_refl. reflexivity.
  - simpl in Hfree. apply andb_prop in Hfree as [Hc Hline].
    apply negb_true_iff in Hc. unfold is_lf in Hc.
    change (String c line ++ String LF rest) with (String c (line ++ String LF rest)).
    cbn [bufio.split_lf]. rewrite Hc, (IH Hline). reflexivity.
Qed.

Lemma split_lf_not_nil s : bufio.split_lf s <> [].
Proof.
  induction s as [|c s IH]; simpl; [discriminate|].
  destruct (Ascii.eqb c LF); [discriminate|].
  destruct (bufio.split_lf s); [contradiction|discriminate].
Qed.

Lemma scan_segments_cons seg rest :
  rest <> [] ->
  bufio.scan_segments (seg :: rest)
  = if Z.of_nat (str_len seg) <? bufio.MaxScanTokenSize
    then bufio.dropCR seg :: bufio.scan_segments rest
    else [].
Proof. destruct rest; [contradiction|reflexivity]. Qed.

Lemma tokens_unlines_short lines more :
  forallb short_line lines = true ->
  bufio.ScanLines_tokens (unlines lines ++ more)
  = (map bufio.dropCR lines ++ bufio.ScanLines_tokens more)%list.
Proof.
  unfold bufio.ScanLines_tokens.
  induction lines as [|line lines IH]; intros Hshort; [reflexivity|].
  simpl in Hshort. apply andb_prop in Hshort as [Hline Hlines].
  unfold short_line in Hline. apply andb_prop in Hline as [Hfree Hlen].
  cbn [unlines fold_right]. rewrite str_app_assoc.
  change (String LF (fold_right (fun line rest => line ++ String LF rest) "" lines) ++ more)
    with (String LF (unlines lines ++ more)).
  rewrite (split_lf_line _ _ Hfree), scan_segments_cons by apply split_lf_not_nil.
  rewrite Hlen, (IH Hlines). reflexivity.
Qed.

Lemma tokens_long_line long rest :
  free_of is_lf long = true ->
  (Z.of_nat (str_len long) <? bufio.MaxScanTokenSize) = false ->
  bufio.ScanLines_tokens (long ++ String LF rest) = [].
Proof.
  intros Hfree Hlen. unfold bufio.ScanLines_tokens.
  rewrite (split_lf_line _ _ Hfree), scan_segments_cons by apply split_lf_not_nil.
  rewrite Hlen. reflexivity.
Qed.

Lemma unlines_app l1 l2 : unlines (l1 ++ l2) = unlines l1 ++ unlines l2.
Proof.
  induction l1 as [|x l1 IH]; [reflexivity|].
  cbn [app unlines fold_right]. fold (unlines (l1 ++ l2)). fold (unlines l1).
  rewrite IH, str_app_assoc. reflexivity.
Qed.

Lemma tokens_stop_at_long_line lines long more :
  forallb short_line lines = true ->
  free_of is_lf long = true ->
  (Z.of_nat (str_len long) <? bufio.MaxScanTokenSize) = false ->
  bufio.ScanLines_tokens (unlines (lines ++ long :: more)) = map bufio.dropCR lines
  /\ bufio.ScanLines_tokens (unlines lines) = map bufio.dropCR lines.
Proof.
  intros Hshort Hfree Hlen. split.
  - rewrite unlines_app, (tokens_unlines_short _ _ Hshort).
    cbn [unlines fold_right]. rewrite (tokens_long_line _ _ Hfree Hlen).
    apply app_nil_r.
  - rewrite <- (str_app_nil_r (unlines lines)), (tokens_unlines_short _ _ Hshort).
    apply app_nil_r.
Qed.

(** X15. Both readers of lines, the loop of [NewScanner] over the
    ignore-file and the loop of [main] over the standard input, stop
    without an error at a line of 65536 bytes or more, as at the end of the
    input: the lines before it are read (a text made of shorter lines is
    read back line by line), the patterns and the questions that follow it
    are dropped. *)
Theorem long_line_ends_reading lines long more :
  forallb short_line lines = true ->
  free_of is_lf long = true ->
  (Z.of_nat (str_len long) <? bufio.MaxScanTokenSize) = false ->
  bufio.ScanLines_tokens (unlines lines) = map bufio.dropCR lines
  /\ main_session (unlines (lines ++ long :: more)) = main_session (unlines lines)
  /\ (forall os_Open os_Open' root ignoreFile extensions,
        os_Open ignoreFile = Ok (unlines (lines ++ long :: more)) ->
        os_Open' ignoreFile = Ok (unlines lines) ->
        Patterns (fst (NewScanner os_Open root ignoreFile extensions))
        = Patterns (fst (NewScanner os_Open' root ignoreFile extensions))).
Proof.
  intros Hshort Hfree Hlen.
  destruct (tokens_stop_at_long_line lines long more Hshort Hfree Hlen) as [Hlong Hall].
  split; [exact Hall|]. split.
  - unfold main_session. rewrite Hlong, Hall. reflexivity.
  - intros os_Open os_Open' root ignoreFile extensions Hopen Hopen'.
    rewrite !NewScanner_Patterns, Hopen, Hopen', Hlong, Hall. reflexivity.
Qed.

Lemma long_line_ends_reading_witness :
  forallb short_line ["*.log"; "# build"] = true
  /\ free_of is_lf (str_repeat (Z.to_nat 65536) "x") = true
  /\ (Z.of_nat (str_len (str_repeat (Z.to_nat 65536) "x")) <? bufio.MaxScanTokenSize) = false
  /\ main_session (unlines (["*.log"; "# build"] ++ str_repeat (Z.to_nat 65536) "x" :: ["*.tmp"]))
     = main_session (unlines ["*.log"; "# build"]).
Proof.
  split; [vm_compute; reflexivity|]. split; [vm_compute; reflexivity|].
  split; [vm_compute; reflexivity|].
  apply (long_line_ends_reading ["*.log"; "# build"] (str_repeat (Z.to_nat 65536) "x") ["*.tmp"]);
    vm_compute; reflexivity.
Defined.

(** ** [AskAboutRepo] and [playSpinner] *)

Lemma frame_lines_S k :
  frame_lines (Datatypes.S k)
  = (frame_lines k ++ [spinner_line (nth (k mod 10) frames "")])%list.
Proof. unfold frame_lines. rewrite seq_S, map_app. reflexivity. Qed.

Section Ask.

Variable Chat : api.ChatRequest -> list string * option error.
Variable Render : string -> string * option error.
Variables repoContext userQuestion : string.

#[local] Abbreviation astep := (ask_step Chat Render repoContext userQuestion).
#[local] Abbreviation the_error := (chat_error Chat repoContext userQuestion).
#[local] Abbreviation the_answer := (answer Chat Render repoContext userQuestion).
#[local] Abbreviation ainv := (ask_inv the_error the_answer).

Lemma ask_inv_start : ainv ask_start.
Proof. exists 0%nat. simpl. auto. Qed.

Lemma ask_inv_step st st' : ainv st -> astep st st' -> ainv st'.
Proof.
  intros [k Hinv] Hstep.
  destruct Hstep as [sp out|i out|m i out|i out|m out|sp out];
    cbn [a_main a_spinner a_out] in Hinv.
  - exists k. cbn [a_main a_spinner a_out]. destruct sp; auto.
  - exists k. cbn [a_main a_spinner a_out]. exact Hinv.
  - assert (Hk : out = frame_lines k /\ i = Z.of_nat (k mod 10)).
    { destruct m; try contradiction; exact Hinv. }
    destruct Hk as [Hout Hi].
    pose proof (Nat.mod_upper_bound k 10 ltac:(lia)) as Hlt.
    assert (Hbound : (0 <=? i) && (i <? Z.of_nat (length frames)) = true).
    { change (Z.of_nat (length frames)) with 10.
      apply andb_true_intro. split; [apply Z.leb_le|apply Z.ltb_lt]; lia. }
    rewrite Hbound. exists (Datatypes.S k).
    assert (Hnext : Z.rem (i + 1) (Z.of_nat (length frames))
                    = Z.of_nat (Datatypes.S k mod 10)).
    { change (Z.of_nat (length frames)) with 10.
      rewrite Z.rem_mod_nonneg by lia. rewrite Hi.
      rewrite (Nat2Z.inj_mod (Datatypes.S k) 10), (Nat2Z.inj_mod k 10).
      change (Z.of_nat 10) with 10. rewrite Nat2Z.inj_succ.
      rewrite <- Z.add_1_r. rewrite Z.add_mod_idemp_l by lia. reflexivity. }
    assert (Hline : (out ++ [spinner_line (nth (Z.to_nat i) frames "")])%list
                    = frame_lines (Datatypes.S k)).
    { rewrite frame_lines_S, Hout, Hi, Nat2Z.id. reflexivity. }
    destruct m; cbn [a_main a_spinner a_out]; try contradiction; auto.
  - exists k. cbn [a_main a_spinner a_out]. tauto.
  - exists k. destruct m; cbn [a_main a_spinner a_out] in *; try contradiction.
    + rewrite Hinv. reflexivity.
    + destruct Hinv as [He Hout]. split; [exact He|]. right.
      rewrite Hout, <- app_assoc. reflexivity.
  - exists k. destruct sp; cbn [a_main a_spinner a_out] in *; try contradiction.
    + split; [reflexivity|]. rewrite Hinv. reflexivity.
    + split; [reflexivity|]. left. rewrite Hinv, <- app_assoc. reflexivity.
Qed.

Lemma ask_inv_rtc st st' : ainv st -> rtc astep st st' -> ainv st'.
Proof.
  intros Hinv Hrtc. induction Hrtc as [|st st1 st2 Hstep _ IH]; [exact Hinv|].
  apply IH. eapply ask_inv_step; eauto.
Qed.

Lemma ask_step_main st st' :
  astep st st' -> a_main st <> Chatting ->
  a_main st' <> Chatting /\ (ask_weight st' < ask_weight st)%nat.
Proof.
  destruct 1 as [sp out|i out|m i out|i out|m out|sp out]; simpl; intros Hm;
    try contradiction; unfold ask_weight; simpl.
  - destruct ((0 <=? i) && (i <? Z.of_nat 10)); simpl; split; auto; lia.
  - split; [discriminate|lia].
  - split; [exact Hm|lia].
  - split; [discriminate|lia].
Qed.

(** Once [Chat] has returned the two goroutines make finitely many
    steps. *)
Lemma ask_sn st : a_main st <> Chatting -> sn astep st.
Proof.
  induction st as [st IH] using (well_founded_induction (well_founded_ltof _ ask_weight)).
  intros Hm. constructor. intros st' Hstep.
  destruct (ask_step_main _ _ Hstep Hm) as [Hm' Hlt].
  apply IH; assumption.
Qed.

(** A state that the invariant allows, and in which the two goroutines
    have not both returned, has a step: neither goroutine waits for ever
    on [done]. *)
Lemma ask_progress st :
  ainv st ->
  (a_main st = AskReturned the_error /\ a_spinner st = SpReturned)
  \/ exists st', astep st st'.
Proof.
  intros [k Hinv]. destruct st as [m sp out].
  cbn [a_main a_spinner a_out] in *.
  destruct m as [| | |e], sp as [i|i| | |]; try contradiction.
  - right. eexists. apply ask_default.
  - right. eexists. apply ask_tick.
  - right. eexists. apply ask_handshake.
  - right. eexists. apply ask_tick.
  - right. eexists. apply ask_clear.
  - right. eexists. apply ask_finish.
  - right. eexists. apply ask_clear.
  - left. destruct Hinv as [-> _]. auto.
Qed.

Lemma ask_tick_next m k :
  astep {| a_main := m; a_spinner := SpTick (Z.of_nat (k mod 10));
           a_out := frame_lines k |}
        {| a_main := m; a_spinner := SpSelect (Z.of_nat (Datatypes.S k mod 10));
           a_out := frame_lines (Datatypes.S k) |}.
Proof.
  pose proof (Nat.mod_upper_bound k 10 ltac:(lia)) as Hlt.
  pose proof (ask_tick Chat Render repoContext userQuestion m
                (Z.of_nat (k mod 10)) (frame_lines k)) as Hstep.
  assert (Hbound : (0 <=? Z.of_nat (k mod 10))
                   && (Z.of_nat (k mod 10) <? Z.of_nat (length frames)) = true).
  { change (Z.of_nat (length frames)) with 10.
    apply andb_true_intro. split; [apply Z.leb_le|apply Z.ltb_lt]; lia. }
  rewrite Hbound in Hstep.
  assert (Hnext : Z.rem (Z.of_nat (k mod 10) + 1) (Z.of_nat (length frames))
                  = Z.of_nat (Datatypes.S k mod 10)).
  { change (Z.of_nat (length frames)) with 10.
    rewrite Z.rem_mod_nonneg by lia.
    rewrite (Nat2Z.inj_mod (Datatypes.S k) 10), (Nat2Z.inj_mod k 10).
    change (Z.of_nat 10) with 10. rewrite Nat2Z.inj_succ.
    rewrite <- Z.add_1_r. rewrite Z.add_mod_idemp_l by lia. reflexivity. }
  rewrite Hnext, Nat2Z.id, <- frame_lines_S in Hstep. exact Hstep.
Qed.

Lemma ask_rtc_app st1 st2 st3 :
  rtc astep st1 st2 -> rtc astep st2 st3 -> rtc astep st1 st3.
Proof.
  induction 1 as [|a b c Hab _ IH]; intros Hrest; [exact Hrest|].
  eapply rtc_l; [exact Hab|apply IH; exact Hrest].
Qed.

(** While [Chat] runs the spinner can print any number of frames. *)
Lemma ask_frames_run k :
  rtc astep ask_start
      {| a_main := Chatting; a_spinner := SpSelect (Z.of_nat (k mod 10));
         a_out := frame_lines k |}.
Proof.
  induction k as [|k IH]; [apply rtc_refl|].
  eapply ask_rtc_app; [exact IH|].
  eapply rtc_l; [apply ask_default|].
  eapply rtc_l; [apply ask_tick_next|]. apply rtc_refl.
Qed.

(** A run in which the line of the spinner is cleared before the answer
    is printed. *)
Lemma ask_run_clear_first k :
  rtc astep ask_start
      {| a_main := AskReturned the_error; a_spinner := SpReturned;
         a_out := (frame_lines k ++ clear_line :: the_answer)%list |}.
Proof.
  eapply ask_rtc_app; [apply (ask_frames_run k)|].
  eapply rtc_l; [apply ask_chat_returns|].
  eapply rtc_l; [apply ask_handshake|].
  eapply rtc_l; [apply ask_clear|].
  eapply rtc_l; [apply ask_finish|].
  rewrite <- app_assoc. apply rtc_refl.
Qed.

(** A run in which the answer is printed before the line of the spinner
    is cleared. *)
Lemma ask_run_answer_first k :
  rtc astep ask_start
      {| a_main := AskReturned the_error; a_spinner := SpReturned;
         a_out := (frame_lines k ++ the_answer ++ [clear_line])%list |}.
Proof.
  eapply ask_rtc_app; [apply (ask_frames_run k)|].
  eapply rtc_l; [apply ask_chat_returns|].
  eapply rtc_l; [apply ask_handshake|].
  eapply rtc_l; [apply ask_finish|].
  eapply rtc_l; [apply ask_clear|].
  rewrite <- app_assoc. apply rtc_refl.
Qed.

Lemma ask_final_nf out :
  nf astep {| a_main := AskReturned the_error; a_spinner := SpReturned; a_out := out |}.
Proof. intros [st' Hstep]. inversion Hstep. Qed.

End Ask.

(** X16. The spinner never indexes outside its ten frames, and it prints
    them in their order, again and again: at every moment of
    [AskAboutRepo] the output starts with the first [k] lines of the
    spinner, for some [k]; as long as the spinner has not received from
    [done] nothing else is printed and its index is [k mod 10]; what is
    printed after these lines is the clearing of the line or the answer,
    never another frame. *)
Theorem spinner_frames_in_turn Chat Render repoContext userQuestion st :
  rtc (ask_step Chat Render repoContext userQuestion) ask_start st ->
  a_spinner st <> SpPanic
  /\ exists k rest,
       a_out st = (frame_lines k ++ rest)%list
       /\ (forall l, In l rest ->
             l = clear_line \/ In l (answer Chat Render repoContext userQuestion))
       /\ (forall i, a_spinner st = SpSelect i \/ a_spinner st = SpTick i ->
             rest = [] /\ i = Z.of_nat (k mod 10)).
Proof.
  intros Hrun.
  destruct (ask_inv_rtc _ _ _ _ _ _ (ask_inv_start _ _ _ _) Hrun) as [k Hinv].
  destruct st as [m sp out]. cbn [a_main a_spinner a_out] in *.
  split.
  { intros ->. destruct m; exact Hinv. }
  exists k.
  destruct m as [| | |e], sp as [i|i| | |]; try contradiction.
  1-4: exists []; destruct Hinv as [-> ->]; rewrite app_nil_r;
    (split; [reflexivity|split; [intros l []|]]);
    intros j [Hj|Hj]; inversion Hj; subst; auto.
  - exists []. rewrite app_nil_r. split; [exact Hinv|].
    split; [intros l []|]. intros j [Hj|Hj]; discriminate.
  - exists [clear_line]. split; [exact Hinv|].
    split; [intros l [<-|[]]; auto|]. intros j [Hj|Hj]; discriminate.
  - exists (answer Chat Render repoContext userQuestion).
    destruct Hinv as [_ ->]. split; [reflexivity|].
    split; [auto|]. intros j [Hj|Hj]; discriminate.
  - destruct Hinv as [_ [->| ->]].
    + exists (clear_line :: answer Chat Render repoContext userQuestion).
      split; [reflexivity|]. split; [intros l [<-|Hl]; auto|].
      intros j [Hj|Hj]; discriminate.
    + exists (answer Chat Render repoContext userQuestion ++ [clear_line])%list.
      split; [reflexivity|].
      split; [|intros j [Hj|Hj]; discriminate].
      intros l Hl. apply in_app_or in Hl. destruct Hl as [Hl|[<-|[]]]; auto.
Qed.

Lemma spinner_frames_in_turn_witness :
  rtc (ask_step example_chat failing_render "ctx" "q") ask_start example_ask_state
  /\ a_spinner example_ask_state <> SpPanic
  /\ exists k rest,
       a_out example_ask_state = (frame_lines k ++ rest)%list
       /\ (forall l, In l rest ->
             l = clear_line \/ In l (answer example_chat failing_render "ctx" "q"))
       /\ (forall i, a_spinner example_ask_state = SpSelect i
                     \/ a_spinner example_ask_state = SpTick i ->
             rest = [] /\ i = Z.of_nat (k mod 10)).
Proof.
  pose proof (ask_run_answer_first example_chat failing_render "ctx" "q" 12) as Hrun.
  split; [exact Hrun|].
  exact (spinner_frames_in_turn example_chat failing_render "ctx" "q"
           example_ask_state Hrun).
Defined.

(** X17. Once [Chat] has returned, [AskAboutRepo] and its spinner end,
    whatever the order of their steps, and they stop only when both have
    returned: the send on [done] is always received.  [AskAboutRepo]
    returns the error of [Chat] and no other: an error of the renderer is
    never returned.  When it returns the spinner has received from
    [done], and at the end the output is the lines of the spinner, then
    the clearing of the line and the answer, in one order or the other. *)
Theorem AskAboutRepo_returns_chat_error Chat Render repoContext userQuestion st :
  rtc (ask_step Chat Render repoContext userQuestion) ask_start st ->
  (a_main st <> Chatting -> sn (ask_step Chat Render repoContext userQuestion) st)
  /\ (forall e, a_main st = AskReturned e ->
        e = snd (Chat (chat_request repoContext userQuestion))
        /\ (a_spinner st = SpStopping \/ a_spinner st = SpReturned))
  /\ (nf (ask_step Chat Render repoContext userQuestion) st ->
        a_main st = AskReturned (snd (Chat (chat_request repoContext userQuestion)))
        /\ a_spinner st = SpReturned
        /\ exists k,
             a_out st = (frame_lines k ++ clear_line
                           :: answer Chat Render repoContext userQuestion)%list
             \/ a_out st = (frame_lines k
                              ++ answer Chat Render repoContext userQuestion
                              ++ [clear_line])%list).
Proof.
  intros Hrun.
  pose proof (ask_inv_rtc _ _ _ _ _ _ (ask_inv_start _ _ _ _) Hrun) as Hinv.
  split; [apply ask_sn|]. split.
  - intros e He. destruct Hinv as [k Hinv]. rewrite He in Hinv.
    destruct (a_spinner st); try contradiction.
    + destruct Hinv as [-> _]. auto.
    + destruct Hinv as [-> _]. auto.
  - intros Hnf. destruct (ask_progress _ _ _ _ _ Hinv) as [[Hm Hsp]|Hred].
    2: { exfalso. apply Hnf. exact Hred. }
    split; [exact Hm|]. split; [exact Hsp|].
    destruct Hinv as [k Hinv]. rewrite Hm, Hsp in Hinv.
    exists k. apply Hinv.
Qed.

Lemma AskAboutRepo_returns_chat_error_witness :
  rtc (ask_step example_chat failing_render "ctx" "q") ask_start example_ask_state
  /\ (a_main example_ask_state <> Chatting ->
      sn (ask_step example_chat failing_render "ctx" "q") example_ask_state)
  /\ (forall e, a_main example_ask_state = AskReturned e ->
        e = snd (example_chat (chat_request "ctx" "q"))
        /\ (a_spinner example_ask_state = SpStopping
            \/ a_spinner example_ask_state = SpReturned))
  /\ (nf (ask_step example_chat failing_render "ctx" "q") example_ask_state ->
        a_main example_ask_state
        = AskReturned (snd (example_chat (chat_request "ctx" "q")))
        /\ a_spinner example_ask_state = SpReturned
        /\ exists k,
             a_out example_ask_state
             = (frame_lines k ++ clear_line
                  :: answer example_chat failing_render "ctx" "q")%list
             \/ a_out example_ask_state
                = (frame_lines k ++ answer example_chat failing_render "ctx" "q"
                     ++ [clear_line])%list).
Proof.
  pose proof (ask_run_answer_first example_chat failing_render "ctx" "q" 12) as Hrun.
  split; [exact Hrun|].
  exact (AskAboutRepo_returns_chat_error example_chat failing_render "ctx" "q"
           example_ask_state Hrun).
Defined.

(** X18. Nothing orders the clearing of the line of the spinner and the
    printing of the answer: after any number of frames, [AskAboutRepo] has
    a complete run in which the line is cleared and then the answer
    printed, and one in which the answer is printed and then the line
    cleared. *)
Theorem answer_may_precede_clearing Chat Render repoContext userQuestion k :
  (exists st,
     rtc (ask_step Chat Render repoContext userQuestion) ask_start st
     /\ nf (ask_step Chat Render repoContext userQuestion) st
     /\ a_out st = (frame_lines k ++ clear_line
                      :: answer Chat Render repoContext userQuestion)%list)
  /\ (exists st,
        rtc (ask_step Chat Render repoContext userQuestion) ask_start st
        /\ nf (ask_step Chat Render repoContext userQuestion) st
        /\ a_out st = (frame_lines k ++ answer Chat Render repoContext userQuestion
                         ++ [clear_line])%list).
Proof.
  split.
  - eexists. split; [apply ask_run_clear_first|].
    split; [apply ask_final_nf|reflexivity].
  - eexists. split; [apply ask_run_answer_first|].
    split; [apply ask_final_nf|reflexivity].
Qed.
